(** * meson-c: tokenizer, AST model and recursive-descent parser

    A shallow embedding of [src/lexer.c], [src/ast.c] and [src/parser.c],
    followed by the properties of the specification that were checked
    against it.

    Conventions of the embedding:
    - a C function that mutates [struct lexer] or [struct parser] is a
      state transformer in the monad [M];
    - reading outside a buffer (undefined behaviour in C) is the distinct
      outcome [Fault];
    - every C loop is a [Fixpoint] on a step budget; exhausting the budget
      is the distinct outcome [OutOfFuel]. *)

From Stdlib Require Import String Ascii List Bool Arith Lia ZArith DecimalString.
Import ListNotations.

Set Implicit Arguments.
Set Warnings "-register-all".

(** ** Outcomes and the state monad *)

Inductive outcome (A : Type) : Type :=
| Ret (a : A)
| Fault
| OutOfFuel.

Arguments Ret {A} a.
Arguments Fault {A}.
Arguments OutOfFuel {A}.

Definition M (S A : Type) : Type := S -> outcome (A * S).

Definition ret {S A : Type} (a : A) : M S A := fun s => Ret (a, s).

Definition bind {S A B : Type} (m : M S A) (k : A -> M S B) : M S B :=
  fun s =>
    match m s with
    | Ret (a, s') => k a s'
    | Fault => Fault
    | OutOfFuel => OutOfFuel
    end.

Definition fault {S A : Type} : M S A := fun _ => Fault.
Definition out_of_fuel {S A : Type} : M S A := fun _ => OutOfFuel.
Definition get {S : Type} : M S S := fun s => Ret (s, s).
Definition put {S : Type} (s : S) : M S unit := fun _ => Ret (tt, s).
Definition modify {S : Type} (f : S -> S) : M S unit := fun s => Ret (tt, f s).

Declare Scope m_scope.
Delimit Scope m_scope with m.
Notation "x <- c1 ;; c2" := (bind c1 (fun x => c2))
  (at level 100, c1 at next level, right associativity) : m_scope.
Notation "c1 ;; c2" := (bind c1 (fun _ => c2))
  (at level 100, right associativity) : m_scope.
Open Scope m_scope.

(** ** ctype.h in the C locale, on single bytes *)

Definition NUL : ascii := "000"%char.
Definition code (c : ascii) : nat := nat_of_ascii c.
Definition in_range (lo hi c : ascii) : bool :=
  (code lo <=? code c) && (code c <=? code hi).

Definition isspace (c : ascii) : bool :=
  ((9 <=? code c) && (code c <=? 13)) || (code c =? 32).
Definition isalpha (c : ascii) : bool :=
  in_range "a" "z" c || in_range "A" "Z" c.
Definition isdigit (c : ascii) : bool := in_range "0" "9" c.
Definition isxdigit (c : ascii) : bool :=
  isdigit c || in_range "a" "f" c || in_range "A" "F" c.

(** A string literal of the source as its bytes. *)
Definition chars (s : string) : list ascii := list_ascii_of_string s.

(** ** lexer.h and lexer.c *)

Module Lexer.

Inductive token_type : Set :=
| TOKEN_INVALID
| TOKEN_AND | TOKEN_BREAK | TOKEN_CONTINUE | TOKEN_ELIF | TOKEN_ELSE
| TOKEN_ENDFOREACH | TOKEN_ENDIF | TOKEN_FALSE | TOKEN_FOREACH | TOKEN_IF
| TOKEN_IN | TOKEN_NOT | TOKEN_OR | TOKEN_TRUE
| TOKEN_IDENTIFIER | TOKEN_BIN_NUMBER | TOKEN_DEC_NUMBER | TOKEN_OCT_NUMBER
| TOKEN_HEX_NUMBER | TOKEN_STRING | TOKEN_MULTILINE_STRING
| TOKEN_L_PAREN | TOKEN_L_BRACE | TOKEN_L_BRACKET
| TOKEN_R_PAREN | TOKEN_R_BRACE | TOKEN_R_BRACKET
| TOKEN_ASSIGN | TOKEN_DOT | TOKEN_COLON | TOKEN_COMMA | TOKEN_TERNARY
| TOKEN_PLUS | TOKEN_MINUS | TOKEN_STAR | TOKEN_SLASH | TOKEN_PERCENT
| TOKEN_ADD_ASSIGN | TOKEN_SUB_ASSIGN | TOKEN_MOD_ASSIGN | TOKEN_MUL_ASSIGN
| TOKEN_DIV_ASSIGN
| TOKEN_LT | TOKEN_LE | TOKEN_GT | TOKEN_GE | TOKEN_EQ | TOKEN_NE
| TOKEN_INC | TOKEN_DEC
| TOKEN_NEWLINE | TOKEN_END | TOKEN_ERROR.

Scheme Equality for token_type.

(** [struct lexer].  The input buffer is [input] followed by the NUL
    terminator of the C string; [lexeme] is the content of the lexeme buffer
    below [lexeme_len] (so [lexeme_len] is its length).  [realloc_plan] is
    not a field of the C struct: it lists the answers [realloc] will give
    to this tokenizer's next growth requests ([true]: the block is grown,
    [false]: NULL); once it is used up every request is granted. *)
Record lexer : Type := mk_lexer {
  error : bool;
  input : list ascii;
  input_pos : nat;
  input_len : nat;
  lexeme : list ascii;
  lexeme_max : nat;
  realloc_plan : list bool
}.

Definition set_error (b : bool) (l : lexer) : lexer :=
  mk_lexer b (input l) (input_pos l) (input_len l) (lexeme l) (lexeme_max l)
           (realloc_plan l).
Definition set_input_pos (n : nat) (l : lexer) : lexer :=
  mk_lexer (error l) (input l) n (input_len l) (lexeme l) (lexeme_max l)
           (realloc_plan l).
Definition set_lexeme (x : list ascii) (l : lexer) : lexer :=
  mk_lexer (error l) (input l) (input_pos l) (input_len l) x (lexeme_max l)
           (realloc_plan l).
Definition set_lexeme_max (n : nat) (l : lexer) : lexer :=
  mk_lexer (error l) (input l) (input_pos l) (input_len l) (lexeme l) n
           (realloc_plan l).
Definition set_realloc_plan (r : list bool) (l : lexer) : lexer :=
  mk_lexer (error l) (input l) (input_pos l) (input_len l) (lexeme l)
           (lexeme_max l) r.

(** [struct result] of lexer.c; [fail()] leaves [token] zero-initialised. *)
Record lex_result : Type := mk_lex_result {
  success : bool;
  token : token_type
}.

Definition L (A : Type) : Type := M lexer A.

Definition peek : L ascii := fun l =>
  match nth_error (input l ++ [NUL]) (input_pos l) with
  | Some c => Ret (c, l)
  | None => Fault
  end.

Definition advance : L unit :=
  modify (fun l => set_input_pos (S (input_pos l)) l).

Definition grow : L bool := fun l =>
  if error l then Ret (false, l)
  else if lexeme_max l <=? length (lexeme l) then
    let l1 := set_lexeme_max (2 * lexeme_max l) l in
    match realloc_plan l1 with
    | false :: plan => Ret (false, set_error true (set_realloc_plan plan l1))
    | true :: plan => Ret (true, set_realloc_plan plan l1)
    | [] => Ret (true, l1)
    end
  else Ret (true, l).

Definition append : L unit :=
  ok <- grow ;;
  (if ok : bool then
     c <- peek ;;
     modify (fun l => set_lexeme (lexeme l ++ [c]) l)
   else ret tt) ;;
  advance.

Definition fail : lex_result := mk_lex_result false TOKEN_INVALID.

Definition finish (token : token_type) : L lex_result :=
  ok <- grow ;;
  if ok : bool then ret (mk_lex_result true token) else ret fail.

Definition is_end : L bool :=
  l <- get ;; ret (input_pos l =? input_len l).

Definition punct (c : ascii) : bool :=
  existsb (Ascii.eqb c)
    ["("; ")"; "{"; "}"; "["; "]"; "."; ","; ":"; "?"; "+"; "-"; "*"; "/";
     "%"; "="; "<"; ">"; "!"]%char.

(** [return f(peek(l))]: the shape of every [is_...] function. *)
Definition test (f : ascii -> bool) : L bool := c <- peek ;; ret (f c).

Definition is_punct : L bool := test punct.
Definition is_space : L bool := test isspace.
Definition is_symbol : L bool :=
  test (fun c => isalpha c || Ascii.eqb c "_").

Definition bdigit (c : ascii) : bool := Ascii.eqb c "0" || Ascii.eqb c "1".
Definition odigit (c : ascii) : bool := in_range "0" "7" c.

Definition is_bdigit : L bool := test bdigit.
Definition is_odigit : L bool := test odigit.
Definition is_xdigit : L bool := test isxdigit.
Definition is_digit : L bool := test isdigit.
Definition is_quote : L bool := test (fun c => Ascii.eqb c "'").

Definition match_ (c : ascii) : L bool :=
  d <- peek ;;
  if Ascii.eqb d c then advance ;; ret true else ret false.

Definition accept (c : ascii) : L bool :=
  d <- peek ;;
  if Ascii.eqb d c then append ;; ret true else ret false.

(** [a || b] and [a && b] of C: the right operand runs only when needed. *)
Definition orL (a b : L bool) : L bool :=
  x <- a ;; if x : bool then ret true else b.
Definition andL (a b : L bool) : L bool :=
  x <- a ;; if x : bool then b else ret false.
Definition notL (a : L bool) : L bool := x <- a ;; ret (negb x).

(** [is_end(l) || is_space(l) || is_punct(l)] *)
Definition at_boundary : L bool := orL is_end (orL is_space is_punct).

(** [while (cond(l)) body(l);] *)
Fixpoint while (fuel : nat) (cond : L bool) (body : L unit) : L unit :=
  match fuel with
  | O => out_of_fuel
  | S n =>
      b <- cond ;;
      if b : bool then body ;; while n cond body else ret tt
  end.

(** The table of [symbol]: prefix flag, name ([None] for the NULL name of
    the closing entry), token. *)
Definition keywords : list (bool * option (list ascii) * token_type) :=
  [ (false, Some (chars "and"), TOKEN_AND);
    (false, Some (chars "break"), TOKEN_BREAK);
    (false, Some (chars "continue"), TOKEN_CONTINUE);
    (true, Some (chars "elif"), TOKEN_ELIF);
    (true, Some (chars "else"), TOKEN_ELSE);
    (true, Some (chars "endforeach"), TOKEN_ENDFOREACH);
    (false, Some (chars "endif"), TOKEN_ENDIF);
    (true, Some (chars "false"), TOKEN_FALSE);
    (false, Some (chars "foreach"), TOKEN_FOREACH);
    (true, Some (chars "if"), TOKEN_IF);
    (false, Some (chars "in"), TOKEN_IN);
    (false, Some (chars "not"), TOKEN_NOT);
    (false, Some (chars "or"), TOKEN_OR);
    (false, Some (chars "true"), TOKEN_TRUE);
    (false, None, TOKEN_INVALID) ].

(** The first loop of [symbol], at table row [i] and column [j].  The
    result is [Some r] when the loop returns [r] from the function, [None]
    when it is left (by [break] or at the NULL name).  [name[j]] is read
    from the string literal, which ends with its NUL; a column beyond that
    is outside the literal. *)
Fixpoint symbol_scan (fuel i j : nat) : L (option lex_result) :=
  match fuel with
  | O => out_of_fuel
  | S n =>
      match nth_error keywords i with
      | None => fault
      | Some (_, None, _) => ret None
      | Some (prefix, Some name, tok) =>
          match nth_error (name ++ [NUL]) j with
          | None => fault
          | Some c =>
              if Ascii.eqb c NUL then
                b <- at_boundary ;;
                if b : bool then r <- finish tok ;; ret (Some r)
                else ret None
              else
                a <- accept c ;;
                if a : bool then symbol_scan n i (S j)
                else symbol_scan n (S i) (if prefix : bool then j else 0)
          end
      end
  end.

Definition symbol (fuel : nat) : L lex_result :=
  r <- symbol_scan fuel 0 0 ;;
  match r with
  | Some res => ret res
  | None =>
      while fuel (orL is_symbol is_digit) append ;;
      finish TOKEN_IDENTIFIER
  end.

(** [l->lexeme_len -= k].  (When fewer than [k] bytes are stored the C
    counter wraps around; that only happens with the error latch set, and
    then [grow] refuses every later use of the counter's value until
    [do_lex] resets it.) *)
Definition drop_lexeme (k : nat) : L unit :=
  modify (fun l => set_lexeme (firstn (length (lexeme l) - k) (lexeme l)) l).

(** [while (i < 3 && is_quote(l)) { append(l); i++; }], returning [i]. *)
Fixpoint quote_run (fuel i : nat) : L nat :=
  match fuel with
  | O => out_of_fuel
  | S n =>
      if i <? 3 then
        q <- is_quote ;;
        if q : bool then append ;; quote_run n (S i) else ret i
      else ret i
  end.

Fixpoint multiline_string (fuel : nat) : L lex_result :=
  match fuel with
  | O => out_of_fuel
  | S n =>
      e <- is_end ;;
      if e : bool then ret fail
      else
        while n (andL (notL is_end) (notL is_quote)) append ;;
        i <- quote_run n 0 ;;
        if i =? 3 then
          drop_lexeme 3 ;;
          finish TOKEN_MULTILINE_STRING
        else
          append ;;
          multiline_string n
  end.

Definition string_ (fuel : nat) : L lex_result :=
  match_ "'" ;;
  q <- match_ "'" ;;
  if q : bool then
    q' <- match_ "'" ;;
    if q' : bool then multiline_string fuel else finish TOKEN_STRING
  else
    while fuel (andL (notL is_end) (notL is_quote)) append ;;
    q' <- match_ "'" ;;
    if q' : bool then finish TOKEN_STRING else ret fail.

(** The [switch (peek(l))] of [number]: digit test and token of the base. *)
Definition number_base (c : ascii) : L bool * token_type :=
  if Ascii.eqb c "b" then (is_bdigit, TOKEN_BIN_NUMBER)
  else if Ascii.eqb c "o" then (is_odigit, TOKEN_OCT_NUMBER)
  else if Ascii.eqb c "x" then (is_xdigit, TOKEN_HEX_NUMBER)
  else (is_digit, TOKEN_DEC_NUMBER).

(** [number] from its [while (cond(l))] loop on. *)
Definition number_digits (fuel : nat) (cond : L bool) (token : token_type)
  : L lex_result :=
  while fuel cond append ;;
  b <- at_boundary ;;
  if b : bool then finish token else ret fail.

Definition number (fuel : nat) : L lex_result :=
  z <- accept "0" ;;
  if z : bool then
    c <- peek ;;
    let (cond, token) := number_base c in
    if token_type_beq token TOKEN_DEC_NUMBER then number_digits fuel cond token
    else
      advance ;;
      d <- cond ;;
      if d : bool then drop_lexeme 1 ;; number_digits fuel cond token
      else ret fail
  else number_digits fuel is_digit TOKEN_DEC_NUMBER.

Definition maybe_eq (if_eq if_not_eq : token_type) : L lex_result :=
  append ;;
  e <- accept "=" ;;
  if e : bool then finish if_eq else finish if_not_eq.

Definition append_finish (token : token_type) : L lex_result :=
  append ;; finish token.

Definition newline : ascii := "010"%char.

(** The [for (;;)] of [do_lex]: [Some r] when it returns [r], [None] when
    it is left by [break]. *)
Fixpoint skip_blanks (fuel : nat) : L (option lex_result) :=
  match fuel with
  | O => out_of_fuel
  | S n =>
      while n (andL (notL is_end) is_space) advance ;;
      e <- is_end ;;
      if e : bool then r <- finish TOKEN_END ;; ret (Some r)
      else
        m <- match_ "\" ;;
        if m : bool then skip_blanks n
        else
          c <- peek ;;
          if negb (Ascii.eqb c "#") then ret None
          else
            while n (andL (notL is_end)
                          (test (fun d => negb (Ascii.eqb d newline))))
                  advance ;;
            skip_blanks n
  end.

(** The [switch (peek(l))] of [do_lex]. *)
Definition punctuator (fuel : nat) (c : ascii) : L lex_result :=
  if Ascii.eqb c "(" then append_finish TOKEN_L_PAREN
  else if Ascii.eqb c ")" then append_finish TOKEN_R_PAREN
  else if Ascii.eqb c "{" then append_finish TOKEN_L_BRACE
  else if Ascii.eqb c "}" then append_finish TOKEN_R_BRACE
  else if Ascii.eqb c "[" then append_finish TOKEN_L_BRACKET
  else if Ascii.eqb c "]" then append_finish TOKEN_R_BRACKET
  else if Ascii.eqb c "." then append_finish TOKEN_DOT
  else if Ascii.eqb c "," then append_finish TOKEN_COMMA
  else if Ascii.eqb c ":" then append_finish TOKEN_COLON
  else if Ascii.eqb c "?" then append_finish TOKEN_TERNARY
  else if Ascii.eqb c "+" then maybe_eq TOKEN_ADD_ASSIGN TOKEN_PLUS
  else if Ascii.eqb c "-" then maybe_eq TOKEN_SUB_ASSIGN TOKEN_MINUS
  else if Ascii.eqb c "*" then maybe_eq TOKEN_MUL_ASSIGN TOKEN_STAR
  else if Ascii.eqb c "/" then maybe_eq TOKEN_DIV_ASSIGN TOKEN_SLASH
  else if Ascii.eqb c "%" then maybe_eq TOKEN_MOD_ASSIGN TOKEN_PERCENT
  else if Ascii.eqb c "<" then maybe_eq TOKEN_LE TOKEN_LT
  else if Ascii.eqb c ">" then maybe_eq TOKEN_GE TOKEN_GT
  else if Ascii.eqb c "=" then maybe_eq TOKEN_EQ TOKEN_ASSIGN
  else if Ascii.eqb c "!" then maybe_eq TOKEN_NE TOKEN_INVALID
  else if Ascii.eqb c "'" then string_ fuel
  else if isdigit c then number fuel
  else ret fail.

Definition do_lex (fuel : nat) : L lex_result :=
  modify (set_lexeme []) ;;
  r <- skip_blanks fuel ;;
  match r with
  | Some res => ret res
  | None =>
      s <- is_symbol ;;
      if s : bool then symbol fuel
      else c <- peek ;; punctuator fuel c
  end.

(** [lexer_init]; the buffer of [lexeme_max] bytes it requests is taken
    to be granted (the C code does not test it). *)
Definition lexer_init (source : list ascii) (plan : list bool) : lexer :=
  mk_lexer false source 0 (length source) [] 128 plan.

Definition lex (fuel : nat) : L token_type :=
  res <- do_lex fuel ;;
  if success res then
    l <- get ;;
    ret (if error l then TOKEN_ERROR else token res)
  else ret TOKEN_ERROR.

(** The observation of tests/test-lexer.c: lex the first token of [source]
    and report it with the lexeme. *)
Definition lex_first (source : string) : outcome (token_type * string) :=
  match lex (2 * String.length source + 20) (lexer_init (chars source) []) with
  | Ret (t, l) => Ret (t, string_of_list_ascii (lexeme l))
  | Fault => Fault
  | OutOfFuel => OutOfFuel
  end.

End Lexer.

(** ** common.c: allocation and owned text

    The allocator is a bump allocator with a journal.  [alloc_plan] lists
    the answers [malloc] will give to the next requests of [mem_alloc]
    ([false]: NULL); once it is used up every request is granted.  [live]
    holds the blocks handed out and not yet released, [released] every
    block passed to [mem_free], most recent first. *)

Definition addr : Set := nat.

Record heap : Type := mk_heap {
  alloc_plan : list bool;
  next_addr : addr;
  live : list addr;
  released : list addr
}.

Definition H (A : Type) : Type := M heap A.

Definition mem_alloc : H (option addr) := fun h =>
  match alloc_plan h with
  | false :: plan =>
      Ret (None, mk_heap plan (next_addr h) (live h) (released h))
  | granted =>
      Ret (Some (next_addr h),
           mk_heap (tl granted) (S (next_addr h)) (next_addr h :: live h)
                   (released h))
  end.

Definition mem_free (a : addr) : H unit :=
  modify (fun h =>
    mk_heap (alloc_plan h) (next_addr h) (remove Nat.eq_dec a (live h))
            (a :: released h)).

(** [struct string]: the null string, a borrowed buffer ([raw]), or a
    block owned by the value. *)
Inductive str : Type :=
| NULL_STRING
| Raw (text : list ascii)
| Owned (data : addr) (text : list ascii).

Definition string_text (s : str) : option (list ascii) :=
  match s with
  | NULL_STRING => None
  | Raw t | Owned _ t => Some t
  end.

(** The bytes of a C string up to its NUL: what [strlen] measures. *)
Fixpoint c_str (s : list ascii) : list ascii :=
  match s with
  | [] => []
  | c :: r => if Ascii.eqb c NUL then [] else c :: c_str r
  end.

Definition string_dup_n (s : list ascii) : H str :=
  d <- mem_alloc ;;
  match d with
  | None => ret NULL_STRING
  | Some a => ret (Owned a s)
  end.

Definition string_dup (s : list ascii) : H str := string_dup_n (c_str s).

Definition string_free (s : str) : H unit :=
  match s with
  | Owned a _ => mem_free a
  | _ => ret tt
  end.

(** ** ast.h *)

Inductive ast_type : Set :=
| AST_EMPTY | AST_SEQUENCE | AST_ASSIGNMENT | AST_IF | AST_IF_CLAUSE
| AST_FOREACH | AST_JUMP | AST_UNARY | AST_LOGICAL | AST_ARITHMETIC
| AST_RELATIONAL | AST_MEMBER | AST_INDEX | AST_APPLICATION
| AST_KEYWORD_ARG | AST_ID | AST_BOOLEAN | AST_NUMBER | AST_STRING
| AST_ARRAY | AST_DICTIONARY | AST_KV.

Inductive ast_subtype : Set :=
| AST_NONE
| AST_ASSIGN | AST_ADD_ASSIGN | AST_SUB_ASSIGN | AST_MUL_ASSIGN
| AST_DIV_ASSIGN | AST_MOD_ASSIGN
| AST_BREAK | AST_CONTINUE
| AST_NOT | AST_PLUS | AST_MINUS
| AST_OR | AST_AND | AST_TERNARY
| AST_ADD | AST_SUB | AST_MUL | AST_DIV | AST_MOD
| AST_EQ | AST_NE | AST_LT | AST_LE | AST_GT | AST_GE | AST_IN | AST_NOT_IN
| AST_TRUE | AST_FALSE.

Scheme Equality for ast_type.
Scheme Equality for ast_subtype.

(** [struct ast]: the block of the node and its [info]. *)
Record header : Set := mk_header {
  block : addr;
  type_of : ast_type;
  subtype_of : ast_subtype
}.

(** One constructor per struct of ast.h.  A pointer field that the parser
    leaves NULL for a while is an [option]; an intrusive list is the list
    of its elements in order. *)
Inductive ast : Type :=
| Plain (h : header)
| Seq (h : header) (exps : list ast)
| Binary (h : header) (lhs rhs : ast)
| Ternary (h : header) (pred conseq alt : ast)
| If (h : header) (clauses : list ast) (alt : option ast)
| IfClause (h : header) (pred conseq : ast)
| Foreach (h : header) (ids : list ast) (exp body : option ast)
| Unary (h : header) (exp : ast)
| Member (h : header) (obj field : ast)
| Index (h : header) (ref : option ast) (index : ast)
| App (h : header) (ref : option ast) (args kw_args : list ast)
| KwArg (h : header) (id exp : ast)
| Id (h : header) (name : str)
| Number (h : header) (value : Z)
| String_ (h : header) (value : str)
| Array (h : header) (count : nat) (elts : list ast)
| Dict (h : header) (map : list ast)
| Kv (h : header) (key value : ast).

Definition header_of (t : ast) : header :=
  match t with
  | Plain h | Seq h _ | Binary h _ _ | Ternary h _ _ _ | If h _ _
  | IfClause h _ _ | Foreach h _ _ _ | Unary h _ | Member h _ _
  | Index h _ _ | App h _ _ _ | KwArg h _ _ | Id h _ | Number h _
  | String_ h _ | Array h _ _ | Dict h _ | Kv h _ _ => h
  end.

Definition ast_type_ (t : ast) : ast_type := type_of (header_of t).
Definition ast_subtype_ (t : ast) : ast_subtype := subtype_of (header_of t).
Definition is_type (ty : ast_type) (t : ast) : bool :=
  ast_type_beq (ast_type_ t) ty.

(** ** ast.c *)

Section Free.
Variable ast_free : ast -> H unit.

(** [free_ast_list], and the same loop written out in [ast_free_app],
    [ast_free_if] and the dictionary case. *)
Fixpoint free_ast_list (l : list ast) : H unit :=
  match l with
  | [] => ret tt
  | x :: r => ast_free x ;; free_ast_list r
  end.

(** [if (p != NULL) ast_free(p);] *)
Definition free_if_set (p : option ast) : H unit :=
  match p with
  | Some x => ast_free x
  | None => ret tt
  end.

End Free.

(** [ast_free].  Freeing an index node whose [ref] is still NULL trips the
    assertion of the recursive call. *)
Fixpoint ast_free (t : ast) : H unit :=
  (match t with
   | Plain _ => ret tt
   | Seq _ exps => free_ast_list ast_free exps
   | Binary _ lhs rhs => ast_free lhs ;; ast_free rhs
   | Ternary _ pred conseq alt =>
       ast_free pred ;; ast_free conseq ;; ast_free alt
   | If _ clauses alt =>
       free_ast_list ast_free clauses ;; free_if_set ast_free alt
   | IfClause _ pred conseq => ast_free pred ;; ast_free conseq
   | Foreach _ ids exp body =>
       free_ast_list ast_free ids ;; free_if_set ast_free exp ;;
       free_if_set ast_free body
   | Unary _ exp => ast_free exp
   | Member _ obj field => ast_free obj ;; ast_free field
   | Index _ ref index =>
       match ref with
       | Some r => ast_free r ;; ast_free index
       | None => fault
       end
   | App _ ref args kw_args =>
       free_if_set ast_free ref ;; free_ast_list ast_free args ;;
       free_ast_list ast_free kw_args
   | KwArg _ id exp => ast_free id ;; ast_free exp
   | Id _ name => string_free name
   | Number _ _ => ret tt
   | String_ _ value => string_free value
   | Array _ _ elts => free_ast_list ast_free elts
   | Dict _ map => free_ast_list ast_free map
   | Kv _ key value => ast_free key ;; ast_free value
   end) ;;
  mem_free (block (header_of t)).

Definition ast_new (type : ast_type) (subtype : ast_subtype)
  : H (option header) :=
  a <- mem_alloc ;;
  match a with
  | None => ret None
  | Some b => ret (Some (mk_header b type subtype))
  end.

Definition omap {A B : Type} (f : A -> B) (o : option A) : option B :=
  match o with
  | Some a => Some (f a)
  | None => None
  end.

Definition ast_empty : H (option ast) :=
  h <- ast_new AST_EMPTY AST_NONE ;; ret (omap Plain h).

Definition ast_seq : H (option header) := ast_new AST_SEQUENCE AST_NONE.

Definition ast_binary (type : ast_type) (subtype : ast_subtype)
           (lhs rhs : ast) : H (option ast) :=
  h <- ast_new type subtype ;; ret (omap (fun h => Binary h lhs rhs) h).

Definition ast_ternary (pred conseq alt : ast) : H (option ast) :=
  h <- ast_new AST_LOGICAL AST_TERNARY ;;
  ret (omap (fun h => Ternary h pred conseq alt) h).

Definition ast_if : H (option header) := ast_new AST_IF AST_NONE.

(** [ast_if_clause(if_, pred, conseq)]: the new clause, which the C code
    also appends to [if_->clauses]. *)
Definition ast_if_clause (pred conseq : ast) : H (option ast) :=
  h <- ast_new AST_IF_CLAUSE AST_NONE ;;
  ret (omap (fun h => IfClause h pred conseq) h).

Definition ast_foreach : H (option header) := ast_new AST_FOREACH AST_NONE.

Definition ast_member (obj field : ast) : H (option ast) :=
  h <- ast_new AST_MEMBER AST_NONE ;;
  ret (omap (fun h => Member h obj field) h).

Definition ast_app : H (option header) := ast_new AST_APPLICATION AST_NONE.

(** [string_text(s)] of a null string is NULL, which [strlen] must not be
    given. *)
Definition dup_text (s : str) : H str :=
  match string_text s with
  | Some t => string_dup t
  | None => fault
  end.

Definition ast_id (s : str) : H (option ast) :=
  h <- ast_new AST_ID AST_NONE ;;
  match h with
  | None => ret None
  | Some h => name <- dup_text s ;; ret (Some (Id h name))
  end.

Definition ast_boolean (value : bool) : H (option ast) :=
  h <- ast_new AST_BOOLEAN (if value then AST_TRUE else AST_FALSE) ;;
  ret (omap Plain h).

Definition ast_number (value : Z) : H (option ast) :=
  h <- ast_new AST_NUMBER AST_NONE ;;
  ret (omap (fun h => Number h value) h).

Definition ast_string (s : str) : H (option ast) :=
  h <- ast_new AST_STRING AST_NONE ;;
  match h with
  | None => ret None
  | Some h => value <- dup_text s ;; ret (Some (String_ h value))
  end.

Definition ast_array : H (option header) := ast_new AST_ARRAY AST_NONE.
Definition ast_dict : H (option header) := ast_new AST_DICTIONARY AST_NONE.

(** ** stdlib.h: [strtoll] on a string of digits

    The lexemes handed to [strtoll] hold digits only, so white space, sign
    and the optional [0x] are left out; the conversion stops at the first
    byte that is not a digit of the base and saturates at [LLONG_MAX]. *)

Definition digit_value (c : ascii) : option Z :=
  if isdigit c then Some (Z.of_nat (code c - code "0"))
  else if in_range "a" "z" c then Some (Z.of_nat (code c - code "a" + 10))
  else if in_range "A" "Z" c then Some (Z.of_nat (code c - code "A" + 10))
  else None.

Definition LLONG_MAX : Z := 9223372036854775807.

Fixpoint strtoll_from (acc : Z) (s : list ascii) (base : Z) : Z :=
  match s with
  | [] => acc
  | c :: r =>
      match digit_value c with
      | Some d =>
          if (d <? base)%Z
          then strtoll_from (Z.min LLONG_MAX (acc * base + d)) r base
          else acc
      | None => acc
      end
  end.

Definition strtoll (s : list ascii) (base : Z) : Z := strtoll_from 0 s base.

(** ** parser.c *)

Module Parser.
Import Lexer.

Inductive parse_status : Set := SUCCESS | FAILURE | NO_MEMORY.

(** [struct result] of parser.c: the status with the member of the union
    that was set, if any. *)
Inductive result : Type :=
| Res_ast (a : ast)
| Res_error (e : str)
| Res_status (s : parse_status).

Definition status (r : result) : parse_status :=
  match r with
  | Res_ast _ => SUCCESS
  | Res_error _ => FAILURE
  | Res_status s => s
  end.

(** [res.status] used as a condition. *)
Definition failed (r : result) : bool :=
  match status r with
  | SUCCESS => false
  | _ => true
  end.

(** Modelled from the spec: [struct parser] is declared in parser.h, which
    is not among the sources; parser.c uses its tokenizer, the token of
    lookahead and the flag telling whether that token has been read (spec
    4.2: exactly one token of lookahead). *)
Record parser : Type := mk_parser {
  p_lexer : lexer;
  p_token : token_type;
  ready : bool
}.

(** The parser of one [parse] call together with the allocator. *)
Record world : Type := mk_world {
  the_parser : parser;
  the_heap : heap
}.

Definition P (A : Type) : Type := M world A.

Definition inH {A : Type} (m : H A) : P A := fun w =>
  match m (the_heap w) with
  | Ret (a, h) => Ret (a, mk_world (the_parser w) h)
  | Fault => Fault
  | OutOfFuel => OutOfFuel
  end.

Definition inL {A : Type} (m : L A) : P A := fun w =>
  let p := the_parser w in
  match m (p_lexer p) with
  | Ret (a, l) => Ret (a, mk_world (mk_parser l (p_token p) (ready p))
                                   (the_heap w))
  | Fault => Fault
  | OutOfFuel => OutOfFuel
  end.

Definition get_parser : P parser := w <- get ;; ret (the_parser w).

Definition set_token (t : token_type) (r : bool) : P unit :=
  modify (fun w => mk_world (mk_parser (p_lexer (the_parser w)) t r)
                            (the_heap w)).

Definition free (t : ast) : P unit := inH (ast_free t).

Section Grammar.
Variable fuel : nat.

Definition peek : P token_type :=
  p <- get_parser ;;
  if ready p then ret (p_token p)
  else
    t <- inL (lex fuel) ;;
    set_token t true ;;
    ret t.

(** [accept_any]: the result paired with the first listed token equal to
    the lookahead, which is then consumed; [None] stands for -1. *)
Definition accept_any {A : Type} (choices : list (token_type * A))
  : P (option A) :=
  t <- peek ;;
  match find (fun c => token_type_beq (fst c) t) choices with
  | Some (_, r) => set_token t false ;; ret (Some r)
  | None => ret None
  end.

Definition accept (token : token_type) : P bool :=
  r <- accept_any [(token, tt)] ;;
  match r with
  | Some _ => ret true
  | None => ret false
  end.

Definition with_ast (p : option ast) : result :=
  match p with
  | Some a => Res_ast a
  | None => Res_status NO_MEMORY
  end.

Definition with_error (message : string) : P result :=
  e <- inH (string_dup (chars message)) ;;
  ret (Res_error e).

Definition with_status (s : parse_status) : result := Res_status s.

Definition with_expected (where_ what : string) : P result :=
  with_error (where_ ++ ": expected " ++ what).

Definition expect (token : token_type) (where_ what : string) : P result :=
  a <- accept token ;;
  if a : bool then ret (with_status SUCCESS) else with_expected where_ what.

(** [res.ast] of a result whose status is SUCCESS; there is no node to
    read in a result that carries none. *)
Definition node_of (res : result) : P ast :=
  match res with
  | Res_ast a => ret a
  | _ => fault
  end.

(** [string_dup_n(p->lexer.lexeme, p->lexer.lexeme_len)] *)
Definition dup_lexeme : P str :=
  p <- get_parser ;;
  inH (string_dup_n (lexeme (p_lexer p))).

Definition maybe_identifier : P result :=
  a <- accept TOKEN_IDENTIFIER ;;
  if a : bool then
    s <- dup_lexeme ;;
    match s with
    | NULL_STRING => ret (with_status NO_MEMORY)
    | _ =>
        id <- inH (ast_id s) ;;
        inH (string_free s) ;;
        ret (with_ast id)
    end
  else
    e <- inH ast_empty ;;
    ret (with_ast e).

(** [accept(p, TOKEN_COMMA) && peek(p) != closing]: the condition of the
    [do ... while] loops of [dictionary], [array] and [application]. *)
Definition another_item (closing : token_type) : P bool :=
  comma <- accept TOKEN_COMMA ;;
  if comma : bool then
    t <- peek ;;
    ret (negb (token_type_beq t closing))
  else ret false.

Section Expression.
Variable expression : P result.

(** The [do ... while] of [dictionary] with its [cleanup] label. *)
Definition dictionary_cleanup (key val : option ast) (dict : ast)
           (res : result) : P result :=
  inH (free_if_set ast_free key) ;;
  inH (free_if_set ast_free val) ;;
  free dict ;;
  ret res.

(** [dictionary] once a pair was appended: the loop condition, with the
    next round of the loop as [again], and the statements after the loop. *)
Definition dictionary_end (again : P result) (h : header) (map : list ast)
  : P result :=
  more <- another_item TOKEN_R_BRACE ;;
  if more : bool then again
  else
    c <- accept TOKEN_R_BRACE ;;
    if negb c then
      free (Dict h map) ;;
      with_expected "dictionary" "closing brace"
    else ret (with_ast (Some (Dict h map))).

Fixpoint dictionary_items (n : nat) (h : header) (map : list ast)
  : P result :=
  match n with
  | O => out_of_fuel
  | S n' =>
      let dict := Dict h map in
      res <- expression ;;
      if failed res then dictionary_cleanup None None dict res else
      key <- node_of res ;;
      if is_type AST_EMPTY key then
        res <- with_expected "dictionary" "key" ;;
        dictionary_cleanup (Some key) None dict res
      else
      c <- accept TOKEN_COLON ;;
      if negb c then
        res <- with_expected "dictionary" "colon" ;;
        dictionary_cleanup (Some key) None dict res
      else
      res <- expression ;;
      if failed res then dictionary_cleanup (Some key) None dict res else
      val <- node_of res ;;
      if is_type AST_EMPTY val then
        res <- with_expected "dictionary" "value" ;;
        dictionary_cleanup (Some key) (Some val) dict res
      else
      kv <- inH (ast_new AST_KV AST_NONE) ;;
      match kv with
      | None =>
          dictionary_cleanup (Some key) (Some val) dict
                             (with_status NO_MEMORY)
      | Some hkv =>
          let map := map ++ [Kv hkv key val] in
          dictionary_end (dictionary_items n' h map) h map
      end
  end.

Definition dictionary : P result :=
  res <- expect TOKEN_L_BRACE "dictionary" "opening brace" ;;
  if failed res then ret res else
  dict <- inH ast_dict ;;
  match dict with
  | None => ret (with_status NO_MEMORY)
  | Some h =>
      c <- accept TOKEN_R_BRACE ;;
      if c : bool then ret (with_ast (Some (Dict h [])))
      else dictionary_items fuel h []
  end.

(** [array] once an element was appended and counted: the loop condition,
    with the next round of the loop as [again], and the statements after
    the loop. *)
Definition array_end (again : P result) (h : header) (elts : list ast)
           (count : nat) : P result :=
  more <- another_item TOKEN_R_BRACKET ;;
  if more : bool then again
  else
    c <- accept TOKEN_R_BRACKET ;;
    if negb c then
      free (Array h 0 elts) ;;
      with_expected "array" "closing bracket"
    else ret (with_ast (Some (Array h count elts))).

(** The body of the [do ... while] of [array]; [array->count] stays zero
    until the closing bracket is accepted. *)
Fixpoint array_items (n : nat) (h : header) (elts : list ast) (count : nat)
  : P result :=
  match n with
  | O => out_of_fuel
  | S n' =>
      let array := Array h 0 elts in
      res <- expression ;;
      if failed res then free array ;; ret res else
      exp <- node_of res ;;
      if is_type AST_EMPTY exp then
        free array ;; free exp ;;
        with_expected "array" "expression"
      else
      let elts := elts ++ [exp] in
      let count := S count in
      array_end (array_items n' h elts count) h elts count
  end.

Definition array : P result :=
  res <- expect TOKEN_L_BRACKET "array" "opening bracket" ;;
  if failed res then ret res else
  array <- inH ast_array ;;
  match array with
  | None => ret (with_status NO_MEMORY)
  | Some h =>
      c <- accept TOKEN_R_BRACKET ;;
      if c : bool then ret (with_ast (Some (Array h 0 [])))
      else array_items fuel h [] 0
  end.

Definition string_ : P result :=
  p <- get_parser ;;
  res <- expect (p_token p) "literal" "string literal" ;;
  if failed res then ret res else
  s <- dup_lexeme ;;
  match s with
  | NULL_STRING => ret (with_status NO_MEMORY)
  | _ =>
      str <- inH (ast_string s) ;;
      inH (string_free s) ;;
      ret (with_ast str)
  end.

Definition number : P result :=
  p <- get_parser ;;
  res <- expect (p_token p) "literal" "integer constant" ;;
  if failed res then ret res else
  p <- get_parser ;;
  let lexeme := lexeme (p_lexer p) in
  let convert base :=
    n <- inH (ast_number (strtoll lexeme base)) ;; ret (with_ast n) in
  match p_token p with
  | TOKEN_BIN_NUMBER => convert 2%Z
  | TOKEN_OCT_NUMBER => convert 8%Z
  | TOKEN_DEC_NUMBER => convert 10%Z
  | TOKEN_HEX_NUMBER => convert 16%Z
  | _ =>
      with_error ("invalid number: `" ++ string_of_list_ascii (c_str lexeme)
                  ++ "'")
  end.

Definition boolean : P result :=
  p <- get_parser ;;
  res <- expect (p_token p) "literal" "boolean value" ;;
  if failed res then ret res else
  p <- get_parser ;;
  b <- inH (ast_boolean (token_type_beq (p_token p) TOKEN_TRUE)) ;;
  ret (with_ast b).

Definition literal : P result :=
  t <- peek ;;
  match t with
  | TOKEN_TRUE | TOKEN_FALSE => boolean
  | TOKEN_DEC_NUMBER | TOKEN_BIN_NUMBER | TOKEN_OCT_NUMBER
  | TOKEN_HEX_NUMBER => number
  | TOKEN_STRING | TOKEN_MULTILINE_STRING => string_
  | TOKEN_L_BRACKET => array
  | TOKEN_L_BRACE => dictionary
  | _ => e <- inH ast_empty ;; ret (with_ast e)
  end.

Definition primary : P result :=
  t <- peek ;;
  match t with
  | TOKEN_L_PAREN =>
      accept TOKEN_L_PAREN ;;
      res <- expression ;;
      if failed res then ret res else
      exp <- node_of res ;;
      if is_type AST_EMPTY exp then
        free exp ;; with_error "invalid expression"
      else
      c <- accept TOKEN_R_PAREN ;;
      if negb c then free exp ;; with_error "expected closing paren"
      else ret (with_ast (Some exp))
  | TOKEN_IDENTIFIER => maybe_identifier
  | _ => literal
  end.

Definition subscript : P result :=
  res <- expect TOKEN_L_BRACKET "subscript" "opening bracket" ;;
  if failed res then ret res else
  res <- expression ;;
  if failed res then ret res else
  index <- node_of res ;;
  if is_type AST_EMPTY index then
    free index ;; with_expected "subscript" "expression"
  else
  c <- accept TOKEN_R_BRACKET ;;
  if negb c then free index ;; with_expected "subscript" "closing bracket"
  else
  a <- inH (ast_new AST_INDEX AST_NONE) ;;
  match a with
  | None => free index ;; ret (with_status NO_MEMORY)
  | Some h => ret (with_ast (Some (Index h None index)))
  end.

(** [application] once an argument was appended: the loop condition, with
    the next round of the loop as [again], and the statements after the
    loop. *)
Definition application_end (again : P result) (h : header)
           (args kw_args : list ast) : P result :=
  more <- another_item TOKEN_R_PAREN ;;
  if more : bool then again
  else
    c <- accept TOKEN_R_PAREN ;;
    if negb c then
      free (App h None args kw_args) ;;
      with_expected "application" "closing paren"
    else ret (with_ast (Some (App h None args kw_args))).

(** The body of the argument loop of [application]; [keywords] is the flag
    of the C function, [app] the node built so far. *)
Fixpoint application_args (n : nat) (h : header) (args kw_args : list ast)
         (keywords : bool) : P result :=
  match n with
  | O => out_of_fuel
  | S n' =>
      let app := App h None args kw_args in
      let next (args kw_args : list ast) (keywords : bool) : P result :=
        application_end (application_args n' h args kw_args keywords)
                        h args kw_args in
      res <- expression ;;
      if failed res then free app ;; ret res else
      arg <- node_of res ;;
      if is_type AST_EMPTY arg then
        free app ;; free arg ;;
        with_expected "application" "argument"
      else
      colon <- accept TOKEN_COLON ;;
      let keywords := keywords || colon in
      if keywords && negb colon then
        free app ;; free arg ;;
        with_expected "application" "keyword"
      else
      if negb keywords then next (args ++ [arg]) kw_args keywords
      else
        if negb (is_type AST_ID arg) then
          free app ;; free arg ;;
          with_expected "application" "kwarg name"
        else
        res <- expression ;;
        if failed res then free app ;; free arg ;; ret res else
        value <- node_of res ;;
        if is_type AST_EMPTY value then
          free app ;; free arg ;; free value ;;
          with_expected "application" "kwarg value"
        else
        kw <- inH (ast_new AST_KEYWORD_ARG AST_NONE) ;;
        match kw with
        | None =>
            free app ;; free arg ;; free value ;;
            ret (with_status NO_MEMORY)
        | Some hkw => next args (kw_args ++ [KwArg hkw arg value]) keywords
        end
  end.

Definition application : P result :=
  res <- expect TOKEN_L_PAREN "application" "opening paren" ;;
  if failed res then ret res else
  app <- inH ast_app ;;
  match app with
  | None => ret (with_status NO_MEMORY)
  | Some h =>
      c <- accept TOKEN_R_PAREN ;;
      if c : bool then ret (with_ast (Some (App h None [] [])))
      else application_args fuel h [] [] false
  end.

(** The [while (res.status == 0)] of [postfix] around the node [ast], and
    the two statements after it, which are reached when an extension
    fails. *)
Fixpoint postfix_chain (n : nat) (ast : ast) : P result :=
  match n with
  | O => out_of_fuel
  | S n' =>
      t <- peek ;;
      match t with
      | TOKEN_DOT =>
          accept TOKEN_DOT ;;
          res <- primary ;;
          if failed res then free ast ;; ret res else
          right <- node_of res ;;
          if is_type AST_EMPTY right then
            free right ;;
            res <- with_error "expected field name" ;;
            free ast ;; ret res
          else
          if negb (is_type AST_ID right) then
            free right ;;
            res <- with_error "field name must be plain id" ;;
            free ast ;; ret res
          else
          ref <- inH (ast_member ast right) ;;
          match ref with
          | None => free ast ;; ret (with_status NO_MEMORY)
          | Some m => postfix_chain n' m
          end
      | TOKEN_L_PAREN =>
          res <- application ;;
          if failed res then free ast ;; ret res else
          app <- node_of res ;;
          match app with
          | App h _ args kw_args =>
              postfix_chain n' (App h (Some ast) args kw_args)
          | _ => fault
          end
      | TOKEN_L_BRACKET =>
          res <- subscript ;;
          if failed res then free ast ;; ret res else
          index <- node_of res ;;
          match index with
          | Index h _ i => postfix_chain n' (Index h (Some ast) i)
          | _ => fault
          end
      | _ => ret (with_ast (Some ast))
      end
  end.

Definition postfix : P result :=
  res <- primary ;;
  if failed res then ret res else
  ast <- node_of res ;;
  if negb (is_type AST_ID ast) then ret res
  else postfix_chain fuel ast.

Definition unary : P result :=
  op <- accept_any [(TOKEN_NOT, AST_NOT); (TOKEN_PLUS, AST_PLUS);
                    (TOKEN_MINUS, AST_MINUS)] ;;
  res <- postfix ;;
  if failed res then ret res else
  ast <- node_of res ;;
  if is_type AST_EMPTY ast then
    match op with
    | None => ret (with_ast (Some ast))
    | Some _ => free ast ;; with_expected "unary" "expression"
    end
  else
    match op with
    | Some sub =>
        u <- inH (ast_new AST_UNARY sub) ;;
        match u with
        | None => free ast ;; ret (with_status NO_MEMORY)
        | Some h => ret (with_ast (Some (Unary h ast)))
        end
    | None => ret (with_ast (Some ast))
    end.

(** The loop shared, up to its operand rule, operator table, node type and
    rule name, by [multiplicative], [additive], [logical_and] and
    [logical_or]. *)
Fixpoint chain (n : nat) (operand : P result)
         (ops : list (token_type * ast_subtype)) (type : ast_type)
         (rule : string) (ast : ast) : P result :=
  match n with
  | O => out_of_fuel
  | S n' =>
      op <- accept_any ops ;;
      match op with
      | None => ret (with_ast (Some ast))
      | Some sub =>
          res <- operand ;;
          if failed res then free ast ;; ret res else
          rhs <- node_of res ;;
          if is_type AST_EMPTY rhs then
            free ast ;; free rhs ;;
            with_expected rule "expression"
          else
          b <- inH (ast_binary type sub ast rhs) ;;
          match b with
          | None => free ast ;; free rhs ;; ret (with_status NO_MEMORY)
          | Some b => chain n' operand ops type rule b
          end
      end
  end.

Definition multiplicative : P result :=
  res <- unary ;;
  if failed res then ret res else
  ast <- node_of res ;;
  chain fuel unary
        [(TOKEN_STAR, AST_MUL); (TOKEN_PERCENT, AST_MOD);
         (TOKEN_SLASH, AST_DIV)]
        AST_ARITHMETIC "multiplicative" ast.

Definition additive : P result :=
  res <- multiplicative ;;
  if failed res then ret res else
  ast <- node_of res ;;
  chain fuel multiplicative
        [(TOKEN_PLUS, AST_ADD); (TOKEN_MINUS, AST_SUB)]
        AST_ARITHMETIC "additive" ast.

(** What [relational] and [equality] do once an operator was accepted and,
    for [relational], the [in] after [not] was checked. *)
Definition comparison (operand : P result) (sub : ast_subtype)
           (rule : string) (lhs : ast) : P result :=
  res <- operand ;;
  if failed res then free lhs ;; ret res else
  rhs <- node_of res ;;
  if is_type AST_EMPTY rhs then
    free lhs ;; free rhs ;;
    with_expected rule "expression"
  else
  b <- inH (ast_binary AST_RELATIONAL sub lhs rhs) ;;
  match b with
  | None => free lhs ;; free rhs ;; ret (with_status NO_MEMORY)
  | Some b => ret (with_ast (Some b))
  end.

Definition relational : P result :=
  res <- additive ;;
  if failed res then ret res else
  lhs <- node_of res ;;
  op <- accept_any [(TOKEN_LT, AST_LT); (TOKEN_LE, AST_LE);
                    (TOKEN_GT, AST_GT); (TOKEN_GE, AST_GE);
                    (TOKEN_IN, AST_IN); (TOKEN_NOT, AST_NOT_IN)] ;;
  match op with
  | Some sub =>
      missing_in <- (if ast_subtype_beq sub AST_NOT_IN
                     then a <- accept TOKEN_IN ;; ret (negb a)
                     else ret false) ;;
      if missing_in : bool then
        free lhs ;; with_error "expected `in' after `not'"
      else comparison additive sub "relational" lhs
  | None => ret (with_ast (Some lhs))
  end.

Definition equality : P result :=
  res <- relational ;;
  if failed res then ret res else
  lhs <- node_of res ;;
  op <- accept_any [(TOKEN_EQ, AST_EQ); (TOKEN_NE, AST_NE)] ;;
  match op with
  | Some sub => comparison relational sub "equality" lhs
  | None => ret (with_ast (Some lhs))
  end.

Definition logical_and : P result :=
  res <- equality ;;
  if failed res then ret res else
  ast <- node_of res ;;
  chain fuel equality [(TOKEN_AND, AST_AND)] AST_LOGICAL "logical and" ast.

Definition logical_or : P result :=
  res <- logical_and ;;
  if failed res then ret res else
  ast <- node_of res ;;
  chain fuel logical_and [(TOKEN_OR, AST_OR)] AST_LOGICAL "logical or" ast.

Definition conditional : P result :=
  res <- logical_or ;;
  if failed res then ret res else
  exp <- node_of res ;;
  q <- accept TOKEN_TERNARY ;;
  if negb q then ret (with_ast (Some exp)) else
  res <- expression ;;
  if failed res then free exp ;; ret res else
  conseq <- node_of res ;;
  if is_type AST_EMPTY conseq then
    free exp ;; free conseq ;;
    with_expected "ternary" "true clause"
  else
  c <- accept TOKEN_COLON ;;
  if negb c then
    free exp ;; free conseq ;;
    with_expected "ternary" "colon"
  else
  res <- expression ;;
  if failed res then free exp ;; free conseq ;; ret res else
  alt <- node_of res ;;
  if is_type AST_EMPTY alt then
    free exp ;; free conseq ;; free alt ;;
    with_expected "ternary" "false clause"
  else
  t <- inH (ast_ternary exp conseq alt) ;;
  match t with
  | None =>
      free exp ;; free conseq ;; free alt ;;
      ret (with_status NO_MEMORY)
  | Some t => ret (with_ast (Some t))
  end.

Definition assignment : P result :=
  res <- conditional ;;
  if failed res then ret res else
  lhs <- node_of res ;;
  op <- accept_any [(TOKEN_ASSIGN, AST_ASSIGN);
                    (TOKEN_ADD_ASSIGN, AST_ADD_ASSIGN);
                    (TOKEN_SUB_ASSIGN, AST_SUB_ASSIGN);
                    (TOKEN_MUL_ASSIGN, AST_MUL_ASSIGN);
                    (TOKEN_DIV_ASSIGN, AST_DIV_ASSIGN);
                    (TOKEN_MOD_ASSIGN, AST_MOD_ASSIGN)] ;;
  match op with
  | Some sub =>
      if negb (is_type AST_ID lhs) then
        free lhs ;; with_error "assignment target must be an id"
      else
      res <- expression ;;
      if failed res then free lhs ;; ret res else
      rhs <- node_of res ;;
      if is_type AST_EMPTY rhs then
        free lhs ;; free rhs ;;
        with_expected "assignment" "expression"
      else
      b <- inH (ast_binary AST_ASSIGNMENT sub lhs rhs) ;;
      match b with
      | None => free lhs ;; free rhs ;; ret (with_status NO_MEMORY)
      | Some b => ret (with_ast (Some b))
      end
  | None => ret (with_ast (Some lhs))
  end.

End Expression.

(** [expression] calls [assignment], which reaches [expression] again
    inside brackets, arguments and ternaries: [depth] bounds that
    nesting. *)
Fixpoint expression (depth : nat) : P result :=
  match depth with
  | O => out_of_fuel
  | S d => assignment (expression d)
  end.

Section Statement.
Variable sequence : P result.

(** The [do ... while (accept(p, TOKEN_COMMA))] of [iteration] and the rest
    of the function. *)
Fixpoint iteration_ids (n : nat) (h : header) (ids : list ast) : P result :=
  match n with
  | O => out_of_fuel
  | S n' =>
      res <- maybe_identifier ;;
      if failed res then free (Foreach h ids None None) ;; ret res else
      id <- node_of res ;;
      if negb (is_type AST_ID id) then
        free (Foreach h ids None None) ;; free id ;;
        with_expected "foreach" "identifier"
      else
      let ids := ids ++ [id] in
      comma <- accept TOKEN_COMMA ;;
      if comma : bool then iteration_ids n' h ids
      else
        c <- accept TOKEN_COLON ;;
        if negb c then
          free (Foreach h ids None None) ;;
          with_expected "foreach" "colon"
        else
        res <- expression fuel ;;
        if failed res then free (Foreach h ids None None) ;; ret res else
        exp <- node_of res ;;
        if is_type AST_EMPTY exp then
          free (Foreach h ids None None) ;; free exp ;;
          with_expected "foreach" "expression"
        else
        res <- sequence ;;
        if failed res then free (Foreach h ids (Some exp) None) ;; ret res
        else
        body <- node_of res ;;
        e <- accept TOKEN_ENDFOREACH ;;
        if negb e then
          free (Foreach h ids (Some exp) (Some body)) ;;
          with_expected "foreach" "endforeach"
        else ret (with_ast (Some (Foreach h ids (Some exp) (Some body))))
  end.

Definition iteration : P result :=
  res <- expect TOKEN_FOREACH "foreach" "`foreach' keyword" ;;
  if failed res then ret res else
  foreach <- inH ast_foreach ;;
  match foreach with
  | None => ret (with_status NO_MEMORY)
  | Some h => iteration_ids fuel h []
  end.

(** The [do ... while (accept(p, TOKEN_ELIF))] of [selection] and the rest
    of the function. *)
Fixpoint selection_clauses (n : nat) (h : header) (clauses : list ast)
  : P result :=
  match n with
  | O => out_of_fuel
  | S n' =>
      let cond := If h clauses None in
      res <- expression fuel ;;
      if failed res then free cond ;; ret res else
      pred <- node_of res ;;
      if is_type AST_EMPTY pred then
        free cond ;; free pred ;;
        with_expected "if" "predicate"
      else
      res <- sequence ;;
      if failed res then free cond ;; free pred ;; ret res else
      conseq <- node_of res ;;
      c <- inH (ast_if_clause pred conseq) ;;
      match c with
      | None =>
          free cond ;; free pred ;; free conseq ;;
          ret (with_status NO_MEMORY)
      | Some clause =>
          let clauses := clauses ++ [clause] in
          elif <- accept TOKEN_ELIF ;;
          if elif : bool then selection_clauses n' h clauses
          else
            let finish_if (alt : option ast) : P result :=
              e <- accept TOKEN_ENDIF ;;
              if negb e then
                free (If h clauses alt) ;;
                with_expected "if" "endif"
              else ret (with_ast (Some (If h clauses alt))) in
            els <- accept TOKEN_ELSE ;;
            if els : bool then
              res <- sequence ;;
              if failed res then free (If h clauses None) ;; ret res else
              alt <- node_of res ;;
              finish_if (Some alt)
            else finish_if None
      end
  end.

Definition selection : P result :=
  res <- expect TOKEN_IF "if" "`if' keyword" ;;
  if failed res then ret res else
  cond <- inH ast_if ;;
  match cond with
  | None => ret (with_status NO_MEMORY)
  | Some h => selection_clauses fuel h []
  end.

Definition statement : P result :=
  t <- peek ;;
  match t with
  | TOKEN_END => e <- inH ast_empty ;; ret (with_ast e)
  | TOKEN_IF => selection
  | TOKEN_FOREACH => iteration
  | TOKEN_BREAK =>
      accept TOKEN_BREAK ;;
      h <- inH (ast_new AST_JUMP AST_BREAK) ;;
      ret (with_ast (omap Plain h))
  | TOKEN_CONTINUE =>
      accept TOKEN_CONTINUE ;;
      h <- inH (ast_new AST_JUMP AST_CONTINUE) ;;
      ret (with_ast (omap Plain h))
  | _ => expression fuel
  end.

(** The [do ... while] of [sequence] and the rest of the function; [node]
    is [res.ast] on entry to the loop body. *)
Fixpoint sequence_rest (n : nat) (h : header) (exps : list ast) (node : ast)
  : P result :=
  match n with
  | O => out_of_fuel
  | S n' =>
      let exps := exps ++ [node] in
      res <- statement ;;
      if failed res then free (Seq h exps) ;; ret res else
      next <- node_of res ;;
      if is_type AST_EMPTY next then
        free next ;;
        ret (with_ast (Some (Seq h exps)))
      else sequence_rest n' h exps next
  end.

Definition sequence_body : P result :=
  res <- statement ;;
  if failed res then ret res else
  first <- node_of res ;;
  if is_type AST_EMPTY first then ret (with_ast (Some first)) else
  seq <- inH ast_seq ;;
  match seq with
  | None => free first ;; ret (with_status NO_MEMORY)
  | Some h => sequence_rest fuel h [] first
  end.

End Statement.

(** [sequence] is reached again from the bodies of [if] and [foreach]:
    [depth] bounds that nesting. *)
Fixpoint sequence (depth : nat) : P result :=
  match depth with
  | O => out_of_fuel
  | S d => sequence_body (sequence d)
  end.

End Grammar.

(** Modelled from the spec: [struct parse_result] is declared in parser.h,
    which is not among the sources; by section 6 a result holds either the
    root node (success) or an error message. *)
Inductive parse_result : Type :=
| Parsed (root : ast)
| Rejected (error : str).

(** [parse]; [lexer_free] gives back the lexeme buffer, which is not one of
    the blocks of [heap]. *)
Definition parse (fuel : nat) (source : list ascii) (realloc_plan : list bool)
  : H parse_result := fun h =>
  let p := mk_parser (lexer_init source realloc_plan) TOKEN_INVALID false in
  match sequence fuel fuel (mk_world p h) with
  | Ret (res, w) =>
      match res with
      | Res_ast root => Ret (Parsed root, the_heap w)
      | Res_status SUCCESS => Fault
      | Res_error e => Ret (Rejected e, the_heap w)
      | Res_status FAILURE => Ret (Rejected NULL_STRING, the_heap w)
      | Res_status NO_MEMORY =>
          Ret (Rejected (Raw (chars "not enough memory")), the_heap w)
      end
  | Fault => Fault
  | OutOfFuel => OutOfFuel
  end.

End Parser.

(** ** tests/test-parser.c: the printed form of a tree

    [lispify] of the test suite, without the 1024-byte limit of its
    buffer.  A null name or value prints as nothing. *)

Section Lispify.
Local Open Scope string_scope.

Definition text_of (s : str) : string :=
  match string_text s with
  | Some t => string_of_list_ascii (c_str t)
  | None => ""
  end.

Definition assign_name (s : ast_subtype) : string :=
  match s with
  | AST_ASSIGN => "assign"
  | AST_ADD_ASSIGN => "assign+"
  | AST_SUB_ASSIGN => "assign-"
  | AST_MUL_ASSIGN => "assign*"
  | AST_DIV_ASSIGN => "assign/"
  | AST_MOD_ASSIGN => "assign%"
  | _ => "assign?"
  end.

Definition operator_name (t : ast_type) (s : ast_subtype) : string :=
  match t, s with
  | AST_ASSIGNMENT, _ => assign_name s
  | AST_LOGICAL, AST_AND => "and"
  | AST_LOGICAL, AST_OR => "or"
  | AST_ARITHMETIC, AST_ADD => "+"
  | AST_ARITHMETIC, AST_SUB => "-"
  | AST_ARITHMETIC, AST_MUL => "*"
  | AST_ARITHMETIC, AST_DIV => "/"
  | AST_ARITHMETIC, AST_MOD => "%"
  | AST_RELATIONAL, AST_LT => "<"
  | AST_RELATIONAL, AST_GT => ">"
  | AST_RELATIONAL, AST_EQ => "=="
  | AST_RELATIONAL, AST_NE => "!="
  | AST_RELATIONAL, AST_LE => "<="
  | AST_RELATIONAL, AST_GE => ">="
  | AST_RELATIONAL, AST_IN => "in"
  | AST_RELATIONAL, AST_NOT_IN => "notin"
  | _, _ => "?"
  end.

Definition unary_name (s : ast_subtype) : string :=
  match s with
  | AST_NOT => "not"
  | AST_PLUS => "plus"
  | AST_MINUS => "minus"
  | _ => "?"
  end.

Definition plain_name (t : ast_type) (s : ast_subtype) : string :=
  match t, s with
  | AST_EMPTY, _ => "empty"
  | AST_JUMP, AST_BREAK => "break"
  | AST_JUMP, AST_CONTINUE => "continue"
  | AST_JUMP, _ => "jump"
  | AST_BOOLEAN, AST_TRUE => "bool true"
  | AST_BOOLEAN, _ => "bool false"
  | _, _ => "unknown"
  end.

(** A list printed with [sep] before each element but, when [first] is
    set, not before the first one. *)
Fixpoint join (first : bool) (sep : string) (l : list string) : string :=
  match l with
  | [] => ""
  | x :: r => (if first then "" else sep) ++ x ++ join false sep r
  end.

Fixpoint lispify (t : ast) : string :=
  "(" ++
  match t with
  | Plain h => plain_name (type_of h) (subtype_of h)
  | Seq _ exps => "seq" ++ join false " " (List.map lispify exps)
  | Binary h lhs rhs =>
      operator_name (type_of h) (subtype_of h) ++ " " ++ lispify lhs
      ++ " " ++ lispify rhs
  | Ternary _ pred conseq alt =>
      "ternary " ++ lispify pred ++ " " ++ lispify conseq ++ " "
      ++ lispify alt
  | If _ clauses alt =>
      "cond"
      ++ join false " "
           (List.map (fun c =>
              match c with
              | IfClause _ pred conseq =>
                  "(" ++ lispify pred ++ " " ++ lispify conseq ++ ")"
              | _ => "?"
              end) clauses)
      ++ match alt with
         | Some a => " (else " ++ lispify a
         | None => ""
         end
  | IfClause _ _ _ => "unknown:IF_CLAUSE"
  | Foreach _ ids exp body =>
      "foreach ids:(" ++ join true " " (List.map lispify ids) ++ ") "
      ++ match exp with Some e => lispify e | None => "?" end ++ " "
      ++ match body with Some b => lispify b | None => "?" end
  | Unary h exp => "unary " ++ unary_name (subtype_of h) ++ " " ++ lispify exp
  | Member _ obj field => "member " ++ lispify obj ++ " " ++ lispify field
  | Index _ ref index =>
      "index " ++ match ref with Some r => lispify r | None => "?" end
      ++ " " ++ lispify index
  | App _ ref args kw_args =>
      "app " ++ match ref with Some r => lispify r | None => "?" end
      ++ match args with
         | [] => ""
         | _ => " args:(" ++ join true " " (List.map lispify args) ++ ")"
         end
      ++ match kw_args with
         | [] => ""
         | _ =>
             " kw-args:("
             ++ join true " "
                  (List.map (fun k =>
                     match k with
                     | KwArg _ id exp =>
                         "(" ++ lispify id ++ " " ++ lispify exp ++ ")"
                     | _ => "?"
                     end) kw_args)
             ++ ")"
         end
  | KwArg _ _ _ => "unknown:KEYWORD_ARG"
  | Id _ name => "id " ++ text_of name
  | Number _ value => "num " ++ NilZero.string_of_int (Z.to_int value)
  | String_ _ value => "str `" ++ text_of value ++ "`"
  | Array _ _ elts => "array" ++ join false " " (List.map lispify elts)
  | Dict _ map =>
      "dict"
      ++ join false " "
           (List.map (fun kv =>
              match kv with
              | Kv _ key value =>
                  "(" ++ lispify key ++ " " ++ lispify value ++ ")"
              | _ => "?"
              end) map)
  | Kv _ _ _ => "unknown:KV"
  end ++ ")".

End Lispify.

(** ** Running the parser on a source text *)

Definition empty_heap (plan : list bool) : heap := mk_heap plan 0 [] [].

(** Steps granted to the parser for [source]: every loop iteration and
    every nesting level consumes a byte of the source. *)
Definition budget (source : string) : nat := 2 * String.length source + 20.

(** [parse] on [source] when allocation answers by [plan] and the lexeme
    buffer always grows. *)
Definition parse_with (plan : list bool) (source : string)
  : outcome (Parser.parse_result * heap) :=
  Parser.parse (budget source) (chars source) [] (empty_heap plan).

(** The observation of tests/test-parser.c: the printed tree on success,
    the message on failure. *)
Definition check (source : string) : outcome (bool * string) :=
  match parse_with [] source with
  | Ret (Parser.Parsed root, _) => Ret (true, lispify root)
  | Ret (Parser.Rejected e, _) => Ret (false, text_of e)
  | Fault => Fault
  | OutOfFuel => OutOfFuel
  end.

(** * Vocabulary of the properties *)

(** [m] never clears the error latch of the tokenizer. *)
Definition keeps {A : Type} (m : Lexer.L A) : Prop :=
  forall l a l',
    Lexer.error l = true -> m l = Ret (a, l') -> Lexer.error l' = true.

(** A tokenizer that has consumed [pre] and has [rest] ahead, holding the
    lexeme [lx] in a buffer of [mx] bytes, with a clear latch and a buffer
    that grows whenever asked. *)
Definition scanning (pre rest lx : list ascii) (mx : nat) : Lexer.lexer :=
  Lexer.mk_lexer false (pre ++ rest) (length pre) (length (pre ++ rest))
                 lx mx [].

(** The text [rest] begins with a byte satisfying [f]. *)
Definition starts_with (f : ascii -> bool) (rest : list ascii) : bool :=
  match rest with
  | [] => false
  | c :: _ => f c
  end.

(** The text after a token is a boundary: end of input, white space or
    punctuation. *)
Definition boundary (rest : list ascii) : bool :=
  match rest with
  | [] => true
  | c :: _ => isspace c || Lexer.punct c
  end.

(** The base markers [b], [o], [x], the digits each one admits and the
    token of its base. *)
Definition marker (m : ascii) : bool :=
  Ascii.eqb m "b" || Ascii.eqb m "o" || Ascii.eqb m "x".

Definition base_digit (m : ascii) : ascii -> bool :=
  if Ascii.eqb m "b" then Lexer.bdigit
  else if Ascii.eqb m "o" then Lexer.odigit
  else isxdigit.

Definition base_token (m : ascii) : Lexer.token_type :=
  if Ascii.eqb m "b" then Lexer.TOKEN_BIN_NUMBER
  else if Ascii.eqb m "o" then Lexer.TOKEN_OCT_NUMBER
  else Lexer.TOKEN_HEX_NUMBER.

(** The keyword rule in the words of the specification (4.1): the longest
    keyword at the start of [s] whose next byte is a boundary, else the
    maximal run of letters, digits and underscores as an identifier. *)
Definition keyword_names : list (list ascii * Lexer.token_type) :=
  flat_map (fun k =>
              match k with
              | (_, Some name, tok) => [(name, tok)]
              | (_, None, _) => []
              end) Lexer.keywords.

(** What is left of [s] after its prefix [k], if [k] is one. *)
Fixpoint after_prefix (k s : list ascii) : option (list ascii) :=
  match k, s with
  | [], _ => Some s
  | c :: k', d :: s' => if Ascii.eqb c d then after_prefix k' s' else None
  | _ :: _, [] => None
  end.

Definition keyword_match (s : list ascii)
           (best : option (list ascii * Lexer.token_type))
           (k : list ascii * Lexer.token_type)
  : option (list ascii * Lexer.token_type) :=
  match after_prefix (fst k) s with
  | Some rest =>
      if boundary rest then
        match best with
        | Some b => if length (fst b) <? length (fst k) then Some k else best
        | None => Some k
        end
      else best
  | None => best
  end.

Fixpoint symbol_run (s : list ascii) : list ascii :=
  match s with
  | [] => []
  | c :: r =>
      if isalpha c || Ascii.eqb c "_" || isdigit c then c :: symbol_run r
      else []
  end.

Definition spec_symbol (s : string) : Lexer.token_type * string :=
  match fold_left (keyword_match (chars s)) keyword_names None with
  | Some (name, tok) => (tok, string_of_list_ascii name)
  | None =>
      (Lexer.TOKEN_IDENTIFIER, string_of_list_ascii (symbol_run (chars s)))
  end.

(** The parser before its first token, on [source], with an allocator and
    a lexeme buffer that never refuse. *)
Definition start (source : string) : Parser.world :=
  Parser.mk_world
    (Parser.mk_parser (Lexer.lexer_init (chars source) [])
                      Lexer.TOKEN_INVALID false)
    (empty_heap []).

(** The parser once the token of lookahead was accepted. *)
Definition consume (w : Parser.world) : Parser.world :=
  Parser.mk_world
    (Parser.mk_parser (Parser.p_lexer (Parser.the_parser w))
                      (Parser.p_token (Parser.the_parser w)) false)
    (Parser.the_heap w).

(** From [w], the rule [stmt] yields the nodes of [l], none of them empty,
    one after the other, and then the empty node [e], reaching [w']. *)
Inductive collects (stmt : Parser.P Parser.result)
  : Parser.world -> list ast -> ast -> Parser.world -> Prop :=
| collects_end w e w' :
    stmt w = Ret (Parser.Res_ast e, w') ->
    is_type AST_EMPTY e = true ->
    collects stmt w [] e w'
| collects_more w s w1 l e w' :
    stmt w = Ret (Parser.Res_ast s, w1) ->
    is_type AST_EMPTY s = false ->
    collects stmt w1 l e w' ->
    collects stmt w (s :: l) e w'.

(** Some binary node of the tree has the empty node as left operand. *)
Fixpoint has_empty_lhs (t : ast) : bool :=
  let any := existsb has_empty_lhs in
  let opt o := match o with Some x => has_empty_lhs x | None => false end in
  match t with
  | Plain _ | Id _ _ | Number _ _ | String_ _ _ => false
  | Seq _ exps => any exps
  | Binary _ lhs rhs =>
      is_type AST_EMPTY lhs || has_empty_lhs lhs || has_empty_lhs rhs
  | Ternary _ pred conseq alt =>
      has_empty_lhs pred || has_empty_lhs conseq || has_empty_lhs alt
  | If _ clauses alt => any clauses || opt alt
  | IfClause _ pred conseq => has_empty_lhs pred || has_empty_lhs conseq
  | Foreach _ ids exp body => any ids || opt exp || opt body
  | Unary _ exp => has_empty_lhs exp
  | Member _ obj field => has_empty_lhs obj || has_empty_lhs field
  | Index _ ref index => opt ref || has_empty_lhs index
  | App _ ref args kw_args => opt ref || any args || any kw_args
  | KwArg _ id exp => has_empty_lhs id || has_empty_lhs exp
  | Array _ _ elts => any elts
  | Dict _ map => any map
  | Kv _ key value => has_empty_lhs key || has_empty_lhs value
  end.

(** The root of a successful parse of [source] satisfies [p]. *)
Definition parses_to (source : string) (p : ast -> bool) : bool :=
  match parse_with [] source with
  | Ret (Parser.Parsed root, _) => p root
  | _ => false
  end.

(** The tokens of the binary operators that [unary] does not take as a
    prefix. *)
Definition infix_only : list Lexer.token_type :=
  [Lexer.TOKEN_STAR; Lexer.TOKEN_PERCENT; Lexer.TOKEN_SLASH; Lexer.TOKEN_EQ;
   Lexer.TOKEN_NE; Lexer.TOKEN_LT; Lexer.TOKEN_LE; Lexer.TOKEN_GT;
   Lexer.TOKEN_GE; Lexer.TOKEN_IN].

(** The bytes of the input buffer, its NUL included, from the cursor
    on. *)
Definition remaining (l : Lexer.lexer) : nat :=
  S (length (Lexer.input l)) - Lexer.input_pos l.

(** [l'] has the input of [l] and its cursor [k] bytes further. *)
Definition ahead (k : nat) (l l' : Lexer.lexer) : Prop :=
  Lexer.input l' = Lexer.input l
  /\ Lexer.input_len l' = Lexer.input_len l
  /\ Lexer.input_pos l' = Lexer.input_pos l + k.

(** [m] leaves the input alone and never moves the cursor backwards. *)
Definition forward {A : Type} (m : Lexer.L A) : Prop :=
  forall l a l', m l = Ret (a, l') -> exists k, ahead k l l'.

(** [m] consumes exactly [k] bytes. *)
Definition moves {A : Type} (k : nat) (m : Lexer.L A) : Prop :=
  forall l a l', m l = Ret (a, l') -> ahead k l l'.

(** [c] is a loop condition: it consumes nothing, needs no step budget,
    and holds only where there is a byte to read. *)
Definition guard (c : Lexer.L bool) : Prop :=
  forall l,
    c l <> OutOfFuel
    /\ forall b l',
         c l = Ret (b, l') ->
         ahead 0 l l'
         /\ (b = true -> Lexer.input_pos l <= length (Lexer.input l)).

(** [m] needs no step budget. *)
Definition total {A : Type} (m : Lexer.L A) : Prop :=
  forall l, m l <> OutOfFuel.

(** On a tokenizer with a clear latch, [cond] tells whether the text ahead
    begins with a byte satisfying [f] (so it fails at the end of input) and
    changes nothing. *)
Definition decides (cond : Lexer.L bool) (f : ascii -> bool) : Prop :=
  forall pre rest lx mx,
    cond (scanning pre rest lx mx)
    = Ret (starts_with f rest, scanning pre rest lx mx).

Definition quote (c : ascii) : bool := Ascii.eqb c "'".
Definition not_quote (c : ascii) : bool := negb (quote c).

(** The byte [c] begins a token or is no part of one: it is neither white
    space nor a backslash nor the [#] of a comment. *)
Definition not_blank (c : ascii) : bool :=
  negb (isspace c) && negb (Ascii.eqb c "\") && negb (Ascii.eqb c "#").

(** Read after [q] quotes in a row, the text [s] never shows three quotes
    in a row and does not end with a quote: the first three quotes in a
    row of [s] followed by three quotes are the three that follow it. *)
Fixpoint closes_after (q : nat) (s : list ascii) : bool :=
  match s with
  | [] => q =? 0
  | c :: r =>
      if quote c then (q <? 2) && closes_after (S q) r
      else closes_after 0 r
  end.

Definition quotes3 : list ascii := ["'"; "'"; "'"]%char.

Definition not_newline (c : ascii) : bool :=
  negb (Ascii.eqb c Lexer.newline).

(** What is left of the text [s] once the white space, the backslashes and
    the comments at its start are passed; [in_comment] tells whether [s]
    is read inside a comment, which the next newline ends. *)
Fixpoint after_blanks (in_comment : bool) (s : list ascii) : list ascii :=
  match s with
  | [] => []
  | c :: r =>
      if in_comment then after_blanks (not_newline c) r
      else if isspace c || Ascii.eqb c "\" then after_blanks false r
      else if Ascii.eqb c "#" then after_blanks true r
      else s
  end.

(** The tokens of one byte. *)
Definition single_byte_tokens : list (ascii * Lexer.token_type) :=
  [ ("("%char, Lexer.TOKEN_L_PAREN); (")"%char, Lexer.TOKEN_R_PAREN);
    ("{"%char, Lexer.TOKEN_L_BRACE); ("}"%char, Lexer.TOKEN_R_BRACE);
    ("["%char, Lexer.TOKEN_L_BRACKET); ("]"%char, Lexer.TOKEN_R_BRACKET);
    ("."%char, Lexer.TOKEN_DOT); (","%char, Lexer.TOKEN_COMMA);
    (":"%char, Lexer.TOKEN_COLON); ("?"%char, Lexer.TOKEN_TERNARY) ].

(** The operators of one byte, each with the token of the byte followed
    by [=] and the token of the byte alone. *)
Definition operator_tokens
  : list (ascii * Lexer.token_type * Lexer.token_type) :=
  [ ("+"%char, Lexer.TOKEN_ADD_ASSIGN, Lexer.TOKEN_PLUS);
    ("-"%char, Lexer.TOKEN_SUB_ASSIGN, Lexer.TOKEN_MINUS);
    ("*"%char, Lexer.TOKEN_MUL_ASSIGN, Lexer.TOKEN_STAR);
    ("/"%char, Lexer.TOKEN_DIV_ASSIGN, Lexer.TOKEN_SLASH);
    ("%"%char, Lexer.TOKEN_MOD_ASSIGN, Lexer.TOKEN_PERCENT);
    ("<"%char, Lexer.TOKEN_LE, Lexer.TOKEN_LT);
    (">"%char, Lexer.TOKEN_GE, Lexer.TOKEN_GT);
    ("="%char, Lexer.TOKEN_EQ, Lexer.TOKEN_ASSIGN);
    ("!"%char, Lexer.TOKEN_NE, Lexer.TOKEN_INVALID) ].

Definition equals_sign (c : ascii) : bool := Ascii.eqb c "=".

(** The byte [c] begins no token and is no blank. *)
Definition begins_nothing (c : ascii) : bool :=
  not_blank c && negb (isalpha c || Ascii.eqb c "_") && negb (Lexer.punct c)
  && negb (quote c) && negb (isdigit c).

(** The first loop of [symbol] as a function of the text ahead, at row
    [i] and column [j] of the keyword table: the token of the keyword that
    was completed before a boundary, if any, the bytes taken and the text
    left.  There is no answer when the table is read outside a name or the
    steps run out. *)
Fixpoint keyword_scan (fuel i j : nat) (s : list ascii)
  : option (option Lexer.token_type * list ascii * list ascii) :=
  match fuel with
  | O => None
  | S n =>
      match nth_error Lexer.keywords i with
      | None => None
      | Some (_, None, _) => Some (None, [], s)
      | Some (prefix, Some name, tok) =>
          match nth_error (name ++ [NUL]) j with
          | None => None
          | Some c =>
              if Ascii.eqb c NUL then
                Some (if boundary s then Some tok else None, [], s)
              else if Ascii.eqb (hd NUL s) c then
                match keyword_scan n i (S j) (tl s) with
                | Some (t, taken, rest) => Some (t, hd NUL s :: taken, rest)
                | None => None
                end
              else keyword_scan n (S i) (if prefix : bool then j else 0) s
          end
      end
  end.

(** The bytes of a name: letters, digits and the underscore. *)
Definition word_byte (c : ascii) : bool :=
  isalpha c || Ascii.eqb c "_" || isdigit c.

(** The first bytes of the keywords. *)
Definition keyword_initials : list ascii := chars "abcefinot".

Definition begins_no_keyword (c : ascii) : bool :=
  forallb (fun k => negb (Ascii.eqb c k)) keyword_initials.

(** * Properties *)

(** Splits a conjunction into its parts, leaving equations alone. *)
Ltac conjuncts := repeat match goal with |- _ /\ _ => split end.

(** Settles by evaluation the goals that have no variables. *)
Ltac compute_closed :=
  match goal with
  | |- forall _, _ => idtac
  | |- _ => vm_compute; reflexivity
  end.

(** ** The monad *)

Lemma bind_Ret {S A B : Type} (m : M S A) (k : A -> M S B) s b s' :
  bind m k s = Ret (b, s') ->
  exists a s1, m s = Ret (a, s1) /\ k a s1 = Ret (b, s').
Proof.
  unfold bind. destruct (m s) as [[a s1] | |]; try discriminate.
  intros E. exists a, s1. split; [reflexivity | exact E].
Qed.

Lemma bind_eq {S A B : Type} (m : M S A) (k : A -> M S B) s a s1 :
  m s = Ret (a, s1) -> bind m k s = k a s1.
Proof. unfold bind. intros ->. reflexivity. Qed.

(** ** The error latch of the tokenizer *)

Module Latch.
Import Lexer.

Lemma keeps_ret {A : Type} (a : A) : keeps (ret a).
Proof. intros l b l' E H. inversion H; subst; exact E. Qed.

Lemma keeps_bind {A B : Type} (m : L A) (k : A -> L B) :
  keeps m -> (forall a, keeps (k a)) -> keeps (bind m k).
Proof.
  intros Hm Hk l b l' E H.
  apply bind_Ret in H. destruct H as (a & l1 & H1 & H2).
  eapply Hk; [eapply Hm; eassumption | eassumption].
Qed.

Lemma keeps_fault {A : Type} : keeps (@fault lexer A).
Proof. intros l a l' _ H. discriminate. Qed.

Lemma keeps_out_of_fuel {A : Type} : keeps (@out_of_fuel lexer A).
Proof. intros l a l' _ H. discriminate. Qed.

Lemma keeps_get : keeps get.
Proof. intros l a l' E H. inversion H; subst; exact E. Qed.

Lemma keeps_modify (f : lexer -> lexer) :
  (forall l, error (f l) = error l) -> keeps (modify f).
Proof.
  intros Hf l a l' E H. inversion H; subst. rewrite Hf. exact E.
Qed.

Lemma keeps_peek : keeps peek.
Proof.
  intros l a l' E H. unfold peek in H.
  destruct (nth_error _ _); inversion H; subst; exact E.
Qed.

Lemma keeps_grow : keeps grow.
Proof.
  intros l a l' E H. unfold grow in H. rewrite E in H.
  inversion H; subst; exact E.
Qed.

Create HintDb latch.

#[local] Hint Resolve keeps_ret keeps_fault keeps_out_of_fuel keeps_get
  keeps_peek keeps_grow : latch.

(** Goes through a body made of binds, conditionals and matches. *)
Ltac latch :=
  repeat first
    [ solve [ eauto with latch ]
    | apply keeps_bind; [ | intros ? ]
    | apply keeps_modify; intros; reflexivity
    | match goal with
      | |- keeps (if ?b then _ else _) => destruct b
      | |- keeps (match ?x with _ => _ end) => destruct x
      | |- keeps (let (_, _) := ?x in _) => destruct x
      end ].

Lemma keeps_advance : keeps advance.
Proof. unfold advance. latch. Qed.
#[local] Hint Resolve keeps_advance : latch.

Lemma keeps_append : keeps append.
Proof. unfold append. latch. Qed.
#[local] Hint Resolve keeps_append : latch.

Lemma keeps_finish t : keeps (finish t).
Proof. unfold finish. latch. Qed.

Lemma keeps_is_end : keeps is_end.
Proof. unfold is_end. latch. Qed.

Lemma keeps_test f : keeps (test f).
Proof. unfold test. latch. Qed.
#[local] Hint Resolve keeps_finish keeps_is_end keeps_test : latch.

Lemma keeps_match c : keeps (match_ c).
Proof. unfold match_. latch. Qed.

Lemma keeps_accept c : keeps (accept c).
Proof. unfold accept. latch. Qed.

Lemma keeps_orL a b : keeps a -> keeps b -> keeps (orL a b).
Proof. intros. unfold orL. latch. Qed.

Lemma keeps_andL a b : keeps a -> keeps b -> keeps (andL a b).
Proof. intros. unfold andL. latch. Qed.

Lemma keeps_notL a : keeps a -> keeps (notL a).
Proof. intros. unfold notL. latch. Qed.
#[local] Hint Resolve keeps_match keeps_accept keeps_orL keeps_andL
  keeps_notL : latch.

Lemma keeps_at_boundary : keeps at_boundary.
Proof. unfold at_boundary, is_space, is_punct. latch. Qed.

Lemma keeps_while fuel cond body :
  keeps cond -> keeps body -> keeps (while fuel cond body).
Proof.
  intros Hc Hb. induction fuel as [| n IH]; simpl; latch.
Qed.

Lemma keeps_drop_lexeme k : keeps (drop_lexeme k).
Proof. unfold drop_lexeme. latch. Qed.
#[local] Hint Resolve keeps_at_boundary keeps_while keeps_drop_lexeme : latch.

Lemma keeps_symbol_scan fuel : forall i j, keeps (symbol_scan fuel i j).
Proof.
  induction fuel as [| n IH]; intros i j; simpl; [latch |].
  destruct (nth_error keywords i) as [[[prefix [name |]] tok] |]; latch.
Qed.
#[local] Hint Resolve keeps_symbol_scan : latch.

Lemma keeps_symbol fuel : keeps (symbol fuel).
Proof. unfold symbol, is_symbol, is_digit. latch. Qed.

Lemma keeps_quote_run fuel : forall i, keeps (quote_run fuel i).
Proof.
  induction fuel as [| n IH]; intros i; simpl; unfold is_quote; latch.
Qed.
#[local] Hint Resolve keeps_symbol keeps_quote_run : latch.

Lemma keeps_multiline_string fuel : keeps (multiline_string fuel).
Proof.
  induction fuel as [| n IH]; simpl; unfold is_quote; latch.
Qed.
#[local] Hint Resolve keeps_multiline_string : latch.

Lemma keeps_string fuel : keeps (string_ fuel).
Proof. unfold string_, is_quote. latch. Qed.

Lemma keeps_number_digits fuel cond t :
  keeps cond -> keeps (number_digits fuel cond t).
Proof. intros. unfold number_digits. latch. Qed.
#[local] Hint Resolve keeps_string keeps_number_digits : latch.

Lemma keeps_number_base c : keeps (fst (number_base c)).
Proof.
  unfold number_base, is_bdigit, is_odigit, is_xdigit, is_digit.
  repeat match goal with |- context [if ?b then _ else _] => destruct b end;
    simpl; latch.
Qed.

Lemma keeps_number fuel : keeps (number fuel).
Proof.
  unfold number.
  apply keeps_bind; [latch | intros z]. destruct z.
  - apply keeps_bind; [latch | intros c].
    pose proof (keeps_number_base c) as Hc.
    destruct (number_base c) as [cond tok]. simpl in Hc. latch.
  - unfold is_digit. latch.
Qed.

Lemma keeps_maybe_eq a b : keeps (maybe_eq a b).
Proof. unfold maybe_eq. latch. Qed.

Lemma keeps_append_finish t : keeps (append_finish t).
Proof. unfold append_finish. latch. Qed.
#[local] Hint Resolve keeps_number keeps_maybe_eq keeps_append_finish : latch.

Lemma keeps_skip_blanks fuel : keeps (skip_blanks fuel).
Proof.
  induction fuel as [| n IH]; simpl; unfold is_space; latch.
Qed.

Lemma keeps_punctuator fuel c : keeps (punctuator fuel c).
Proof. unfold punctuator. latch. Qed.
#[local] Hint Resolve keeps_skip_blanks keeps_punctuator : latch.

Lemma keeps_do_lex fuel : keeps (do_lex fuel).
Proof. unfold do_lex, is_symbol. latch. Qed.

End Latch.


(** ** The tokenizer never runs out of steps *)

Module Progress.
Import Lexer.

Lemma bind_ends {A B : Type} (m : L A) (k : A -> L B) l :
  m l <> OutOfFuel ->
  (forall a l1, m l = Ret (a, l1) -> k a l1 <> OutOfFuel) ->
  bind m k l <> OutOfFuel.
Proof.
  unfold bind. intros Hm Hk. destruct (m l) as [[a l1] | |].
  - apply Hk. reflexivity.
  - discriminate.
  - congruence.
Qed.

(** *** Frame: the input is kept and the cursor only advances *)

Lemma ahead_refl l : ahead 0 l l.
Proof. repeat split; lia. Qed.

Lemma ahead_trans j k l0 l1 l2 :
  ahead j l0 l1 -> ahead k l1 l2 -> ahead (j + k) l0 l2.
Proof.
  intros (I1 & N1 & P1) (I2 & N2 & P2).
  repeat split; [congruence | congruence | lia].
Qed.

Lemma ahead_remaining k l l' :
  ahead k l l' -> remaining l' = remaining l - k.
Proof. intros (I & _ & P). unfold remaining. rewrite I, P. lia. Qed.

Lemma forward_ret {A : Type} (a : A) : forward (ret a).
Proof. intros l b l' H. inversion H; subst. exists 0. apply ahead_refl. Qed.

Lemma forward_bind {A B : Type} (m : L A) (k : A -> L B) :
  forward m -> (forall a, forward (k a)) -> forward (bind m k).
Proof.
  intros Hm Hk l b l' H. apply bind_Ret in H.
  destruct H as (a & l1 & H1 & H2).
  apply Hm in H1. apply Hk in H2.
  destruct H1 as [j H1], H2 as [i H2].
  exists (j + i). eapply ahead_trans; eassumption.
Qed.

Lemma forward_fault {A : Type} : forward (@fault lexer A).
Proof. intros l a l' H. discriminate. Qed.

Lemma forward_out_of_fuel {A : Type} : forward (@out_of_fuel lexer A).
Proof. intros l a l' H. discriminate. Qed.

Lemma forward_get : forward get.
Proof. intros l a l' H. inversion H; subst. exists 0. apply ahead_refl. Qed.

Lemma forward_modify (f : lexer -> lexer) k :
  (forall l, ahead k l (f l)) -> forward (modify f).
Proof. intros Hf l a l' H. inversion H; subst. exists k. apply Hf. Qed.

Lemma forward_peek : forward peek.
Proof.
  intros l a l' H. unfold peek in H.
  destruct (nth_error _ _); inversion H; subst. exists 0. apply ahead_refl.
Qed.

Lemma forward_grow : forward grow.
Proof.
  intros l a l' H. exists 0. unfold grow in H.
  destruct (error l); [inversion H; subst; apply ahead_refl |].
  destruct (_ <=? _); [| inversion H; subst; apply ahead_refl].
  destruct (realloc_plan _) as [| [] plan]; inversion H; subst;
    repeat split; simpl; lia.
Qed.

Create HintDb progress.

#[local] Hint Resolve forward_ret forward_fault forward_out_of_fuel
  forward_get forward_peek forward_grow : progress.

Ltac fwd :=
  repeat first
    [ solve [ eauto with progress ]
    | apply forward_bind; [ | intros ? ]
    | apply (@forward_modify _ 0); intros; repeat split; simpl; lia
    | apply (@forward_modify _ 1); intros; repeat split; simpl; lia
    | match goal with
      | |- forward (if ?b then _ else _) => destruct b
      | |- forward (match ?x with _ => _ end) => destruct x
      | |- forward (let (_, _) := ?x in _) => destruct x
      end ].

Lemma forward_advance : forward advance.
Proof. unfold advance. fwd. Qed.
#[local] Hint Resolve forward_advance : progress.

Lemma forward_append : forward append.
Proof. unfold append. fwd. Qed.

Lemma forward_finish t : forward (finish t).
Proof. unfold finish. fwd. Qed.

Lemma forward_is_end : forward is_end.
Proof. unfold is_end. fwd. Qed.

Lemma forward_test f : forward (test f).
Proof. unfold test. fwd. Qed.
#[local] Hint Resolve forward_append forward_finish forward_is_end
  forward_test : progress.

Lemma forward_match c : forward (match_ c).
Proof. unfold match_. fwd. Qed.

Lemma forward_accept c : forward (accept c).
Proof. unfold accept. fwd. Qed.

Lemma forward_orL a b : forward a -> forward b -> forward (orL a b).
Proof. intros. unfold orL. fwd. Qed.

Lemma forward_andL a b : forward a -> forward b -> forward (andL a b).
Proof. intros. unfold andL. fwd. Qed.

Lemma forward_notL a : forward a -> forward (notL a).
Proof. intros. unfold notL. fwd. Qed.
#[local] Hint Resolve forward_match forward_accept forward_orL forward_andL
  forward_notL : progress.

Lemma forward_at_boundary : forward at_boundary.
Proof. unfold at_boundary, is_space, is_punct. fwd. Qed.

Lemma forward_while fuel cond body :
  forward cond -> forward body -> forward (while fuel cond body).
Proof. intros Hc Hb. induction fuel as [| n IH]; simpl; fwd. Qed.

Lemma forward_drop_lexeme k : forward (drop_lexeme k).
Proof. unfold drop_lexeme. fwd. Qed.
#[local] Hint Resolve forward_at_boundary forward_while
  forward_drop_lexeme : progress.

Lemma forward_symbol_scan fuel : forall i j, forward (symbol_scan fuel i j).
Proof.
  induction fuel as [| n IH]; intros i j; simpl; [fwd |].
  destruct (nth_error keywords i) as [[[prefix [name |]] tok] |]; fwd.
Qed.

Lemma forward_quote_run fuel : forall i, forward (quote_run fuel i).
Proof.
  induction fuel as [| n IH]; intros i; simpl; unfold is_quote; fwd.
Qed.

Lemma forward_skip_blanks fuel : forward (skip_blanks fuel).
Proof. induction fuel as [| n IH]; simpl; unfold is_space; fwd. Qed.

(** *** What needs no step budget *)

Lemma total_ret {A : Type} (a : A) : total (ret a).
Proof. intros l. discriminate. Qed.

Lemma total_bind {A B : Type} (m : L A) (k : A -> L B) :
  total m -> (forall a, total (k a)) -> total (bind m k).
Proof. intros Hm Hk l. apply bind_ends; [apply Hm | intros; apply Hk]. Qed.

Lemma total_fault {A : Type} : total (@fault lexer A).
Proof. intros l. discriminate. Qed.

Lemma total_get : total get.
Proof. intros l. discriminate. Qed.

Lemma total_modify f : total (modify f).
Proof. intros l. discriminate. Qed.

Lemma total_peek : total peek.
Proof. intros l. unfold peek. destruct (nth_error _ _); discriminate. Qed.

Lemma total_grow : total grow.
Proof.
  intros l. unfold grow. destruct (error l); [discriminate |].
  destruct (_ <=? _); [| discriminate].
  destruct (realloc_plan _) as [| [] plan]; discriminate.
Qed.

#[local] Hint Resolve total_ret total_fault total_get total_modify
  total_peek total_grow : progress.

Ltac tot :=
  repeat first
    [ solve [ eauto with progress ]
    | apply total_bind; [ | intros ? ]
    | match goal with
      | |- total (if ?b then _ else _) => destruct b
      | |- total (match ?x with _ => _ end) => destruct x
      end ].

Lemma total_advance : total advance.
Proof. unfold advance. tot. Qed.
#[local] Hint Resolve total_advance : progress.

Lemma total_append : total append.
Proof. unfold append. tot. Qed.

Lemma total_finish t : total (finish t).
Proof. unfold finish. tot. Qed.

Lemma total_is_end : total is_end.
Proof. unfold is_end. tot. Qed.

Lemma total_test f : total (test f).
Proof. unfold test. tot. Qed.
#[local] Hint Resolve total_append total_finish total_is_end
  total_test : progress.

Lemma total_match c : total (match_ c).
Proof. unfold match_. tot. Qed.

Lemma total_accept c : total (accept c).
Proof. unfold accept. tot. Qed.

Lemma total_orL a b : total a -> total b -> total (orL a b).
Proof. intros. unfold orL. tot. Qed.

Lemma total_andL a b : total a -> total b -> total (andL a b).
Proof. intros. unfold andL. tot. Qed.

Lemma total_notL a : total a -> total (notL a).
Proof. intros. unfold notL. tot. Qed.
#[local] Hint Resolve total_match total_accept total_orL total_andL
  total_notL : progress.

Lemma total_at_boundary : total at_boundary.
Proof. unfold at_boundary, is_space, is_punct. tot. Qed.

Lemma total_drop_lexeme k : total (drop_lexeme k).
Proof. unfold drop_lexeme. tot. Qed.
#[local] Hint Resolve total_at_boundary total_drop_lexeme : progress.

Lemma total_maybe_eq a b : total (maybe_eq a b).
Proof. unfold maybe_eq. tot. Qed.

Lemma total_append_finish t : total (append_finish t).
Proof. unfold append_finish. tot. Qed.
#[local] Hint Resolve total_maybe_eq total_append_finish : progress.

(** *** Steps and guards *)

Lemma peek_run l c l' :
  peek l = Ret (c, l') -> l' = l /\ input_pos l <= length (input l).
Proof.
  unfold peek. destruct (nth_error _ _) eqn:E; [| discriminate].
  intros H. inversion H; subst. split; [reflexivity |].
  assert (Hlt : input_pos l' < length (input l' ++ [NUL]))
    by (apply nth_error_Some; congruence).
  rewrite length_app in Hlt. simpl in Hlt. lia.
Qed.

Lemma test_run f l b l' :
  test f l = Ret (b, l') -> l' = l /\ input_pos l <= length (input l).
Proof.
  unfold test. intros H. apply bind_Ret in H.
  destruct H as (c & l1 & Hp & Hr). apply peek_run in Hp.
  inversion Hr; subst. destruct Hp as [-> Hp]. split; [reflexivity | exact Hp].
Qed.

Lemma is_end_run l b l' : is_end l = Ret (b, l') -> l' = l.
Proof. unfold is_end, bind, get, ret. intros H. inversion H. reflexivity. Qed.

Lemma moves_bind {A B : Type} j k (m : L A) (f : A -> L B) :
  moves j m -> (forall a, moves k (f a)) -> moves (j + k) (bind m f).
Proof.
  intros Hm Hf l b l' H. apply bind_Ret in H.
  destruct H as (a & l1 & H1 & H2).
  eapply ahead_trans; [eapply Hm | eapply Hf]; eassumption.
Qed.

Lemma moves_ret {A : Type} (a : A) : moves 0 (ret a).
Proof. intros l b l' H. inversion H; subst. apply ahead_refl. Qed.

Lemma moves_peek : moves 0 peek.
Proof.
  intros l c l' H. apply peek_run in H. destruct H as [-> _].
  apply ahead_refl.
Qed.

Lemma moves_grow : moves 0 grow.
Proof.
  intros l a l' H. unfold grow in H.
  destruct (error l); [inversion H; subst; apply ahead_refl |].
  destruct (_ <=? _); [| inversion H; subst; apply ahead_refl].
  destruct (realloc_plan _) as [| [] plan]; inversion H; subst;
    repeat split; simpl; lia.
Qed.

Lemma moves_advance : moves 1 advance.
Proof. intros l u l' H. inversion H; subst. repeat split; simpl; lia. Qed.

Lemma moves_append : moves 1 append.
Proof.
  unfold append.
  apply (@moves_bind _ _ 0 1); [apply moves_grow | intros ok].
  apply (@moves_bind _ _ 0 1); [| intros _; apply moves_advance].
  destruct ok; [| apply moves_ret].
  apply (@moves_bind _ _ 0 0); [apply moves_peek | intros c].
  intros l u l' H. inversion H; subst. repeat split; simpl; lia.
Qed.

Lemma guard_test f : guard (test f).
Proof.
  intros l. split; [apply total_test |].
  intros b l' H. apply test_run in H. destruct H as [-> H].
  split; [apply ahead_refl | intros _; exact H].
Qed.

Lemma guard_not_test f : guard (notL (test f)).
Proof.
  intros l. split; [apply total_notL, total_test |].
  intros b l' H. unfold notL in H. apply bind_Ret in H.
  destruct H as (x & l1 & Ht & Hr). apply test_run in Ht.
  inversion Hr; subst. destruct Ht as [-> Ht].
  split; [apply ahead_refl | intros _; exact Ht].
Qed.

Lemma guard_orL a b : guard a -> guard b -> guard (orL a b).
Proof.
  intros Ha Hb l. split; [apply total_orL; intros x; [apply Ha | apply Hb] |].
  intros r l' H. unfold orL in H. apply bind_Ret in H.
  destruct H as (x & l1 & H1 & H2).
  destruct (proj2 (Ha l) _ _ H1) as [A1 T1].
  destruct x.
  - inversion H2; subst. split; [exact A1 | intros _; auto].
  - destruct (proj2 (Hb l1) _ _ H2) as [A2 T2].
    split; [apply (ahead_trans A1 A2) |].
    intros E. destruct A1 as (I & _ & P). rewrite <- I.
    rewrite Nat.add_0_r in P. rewrite <- P. auto.
Qed.

(** A test behind [!is_end(l) &&]. *)
Lemma guard_not_end g : guard g -> guard (andL (notL is_end) g).
Proof.
  intros Hg l.
  split; [apply total_andL; [apply total_notL, total_is_end
                            | intros x; apply Hg] |].
  intros r l' H. unfold andL, notL in H. apply bind_Ret in H.
  destruct H as (x & l1 & H1 & H2).
  apply bind_Ret in H1. destruct H1 as (e & l0 & He & Hr).
  apply is_end_run in He. inversion Hr; subst.
  destruct (negb e).
  - apply (proj2 (Hg l1) _ _ H2).
  - inversion H2; subst. split; [apply ahead_refl | discriminate].
Qed.

(** A loop that consumes a byte per round ends within the bytes left. *)
Lemma while_ends cond body :
  guard cond -> moves 1 body -> total body ->
  forall fuel l, remaining l < fuel -> while fuel cond body l <> OutOfFuel.
Proof.
  intros Hc Hm Ht. induction fuel as [| n IH]; intros l Hf; [lia |].
  cbn [while]. apply bind_ends; [apply Hc |].
  intros b l1 Hb. destruct (proj2 (Hc l) _ _ Hb) as [A T].
  destruct b; [| discriminate].
  apply bind_ends; [apply Ht |]. intros u l2 Hu.
  apply IH. apply Hm in Hu.
  rewrite (ahead_remaining (ahead_trans A Hu)).
  specialize (T eq_refl). unfold remaining in *. lia.
Qed.

Lemma forward_remaining {A : Type} (m : L A) l a l' :
  forward m -> m l = Ret (a, l') -> remaining l' <= remaining l.
Proof.
  intros Hm H. destruct (Hm _ _ _ H) as [k Hk].
  rewrite (ahead_remaining Hk). lia.
Qed.

Lemma accept_run c l b l' :
  accept c l = Ret (b, l') ->
  if b then ahead 1 l l' /\ input_pos l <= length (input l) else l' = l.
Proof.
  unfold accept. intros H. apply bind_Ret in H.
  destruct H as (d & l1 & Hp & H). apply peek_run in Hp.
  destruct Hp as [-> Hp]. destruct (Ascii.eqb d c).
  - apply bind_Ret in H. destruct H as (u & l2 & Ha & Hr).
    inversion Hr; subst. split; [eapply moves_append; exact Ha | exact Hp].
  - inversion H; subst. reflexivity.
Qed.

Lemma match_run c l b l' :
  match_ c l = Ret (b, l') ->
  if b then ahead 1 l l' /\ input_pos l <= length (input l) else l' = l.
Proof.
  unfold match_. intros H. apply bind_Ret in H.
  destruct H as (d & l1 & Hp & H). apply peek_run in Hp.
  destruct Hp as [-> Hp]. destruct (Ascii.eqb d c).
  - apply bind_Ret in H. destruct H as (u & l2 & Ha & Hr).
    inversion Hr; subst. split; [eapply moves_advance; exact Ha | exact Hp].
  - inversion H; subst. reflexivity.
Qed.

(** *** The loops of the tokenizer *)

Lemma symbol_scan_ends fuel :
  forall i j l,
    (15 - i) + remaining l < fuel -> symbol_scan fuel i j l <> OutOfFuel.
Proof.
  induction fuel as [| n IH]; intros i j l Hf; [lia |].
  cbn [symbol_scan].
  destruct (nth_error keywords i) as [[[prefix [name |]] tok] |] eqn:K;
    try discriminate.
  assert (Hi : i < 15)
    by (change 15 with (length keywords); apply nth_error_Some; congruence).
  destruct (nth_error (name ++ [NUL]) j) as [c |]; [| discriminate].
  destruct (Ascii.eqb c NUL).
  - apply bind_ends; [apply total_at_boundary |]. intros b l1 _.
    destruct b; [| discriminate].
    apply bind_ends; [apply total_finish | discriminate].
  - apply bind_ends; [apply total_accept |]. intros a l1 Ha.
    apply accept_run in Ha. destruct a.
    + destruct Ha as [A Hp]. apply IH.
      rewrite (ahead_remaining A). unfold remaining in *. lia.
    + subst l1. apply IH. lia.
Qed.

Lemma symbol_ends fuel l :
  15 + remaining l < fuel -> symbol fuel l <> OutOfFuel.
Proof.
  intros Hf. unfold symbol.
  apply bind_ends; [apply symbol_scan_ends; lia |]. intros r l1 Hs.
  apply (@forward_remaining _ _ _ _ _ (forward_symbol_scan fuel 0 0)) in Hs.
  destruct r; [discriminate |].
  apply bind_ends.
  - apply while_ends;
      [apply guard_orL; apply guard_test | apply moves_append
      | apply total_append | lia].
  - intros. apply total_finish.
Qed.

Lemma quote_run_ends fuel :
  forall i l, 3 - i < fuel -> quote_run fuel i l <> OutOfFuel.
Proof.
  induction fuel as [| n IH]; intros i l Hf; [lia |].
  cbn [quote_run]. destruct (i <? 3) eqn:Hi; [| discriminate].
  apply Nat.ltb_lt in Hi.
  apply bind_ends; [apply total_test |]. intros q l1 _.
  destruct q; [| discriminate].
  apply bind_ends; [apply total_append |]. intros u l2 _.
  apply IH. lia.
Qed.

(** The quote counter reads the byte at the cursor before anything else. *)
Lemma quote_run_reads n l k l' :
  quote_run (S n) 0 l = Ret (k, l') -> input_pos l <= length (input l).
Proof.
  cbn [quote_run Nat.ltb Nat.leb]. intros H. apply bind_Ret in H.
  destruct H as (q & l1 & Hq & _). apply (test_run _ _ Hq).
Qed.

Lemma multiline_string_ends fuel :
  forall l, remaining l + 4 < fuel -> multiline_string fuel l <> OutOfFuel.
Proof.
  induction fuel as [| n IH]; intros l Hf; [lia |].
  cbn [multiline_string].
  apply bind_ends; [apply total_is_end |]. intros e l0 He.
  apply is_end_run in He. subst l0. destruct e; [discriminate |].
  apply bind_ends.
  { apply while_ends;
      [apply guard_not_end, guard_not_test | apply moves_append
      | apply total_append | lia]. }
  intros u l1 Hw.
  apply bind_ends; [apply quote_run_ends; lia |]. intros i l2 Hq.
  destruct (i =? 3).
  { apply bind_ends; [apply total_drop_lexeme |].
    intros. apply total_finish. }
  apply bind_ends; [apply total_append |]. intros u' l3 Ha.
  apply IH.
  assert (Hr : input_pos l1 <= length (input l1))
    by (destruct n; [lia | apply (quote_run_reads _ _ Hq)]).
  apply (@forward_remaining _ _ _ _ _
           (forward_while n (forward_andL (forward_notL forward_is_end)
                                          (forward_notL (forward_test _)))
                          forward_append)) in Hw.
  apply (forward_quote_run n 0) in Hq. destruct Hq as [k Hq].
  apply moves_append in Ha.
  rewrite (ahead_remaining (ahead_trans Hq Ha)).
  unfold remaining in *. lia.
Qed.

Lemma string_ends fuel l :
  remaining l + 4 < fuel -> string_ fuel l <> OutOfFuel.
Proof.
  intros Hf. unfold string_.
  apply bind_ends; [apply total_match |]. intros q0 l1 H1.
  apply (@forward_remaining _ _ _ _ _ (forward_match _)) in H1.
  apply bind_ends; [apply total_match |]. intros q l2 H2.
  apply (@forward_remaining _ _ _ _ _ (forward_match _)) in H2.
  destruct q.
  - apply bind_ends; [apply total_match |]. intros q' l3 H3.
    apply (@forward_remaining _ _ _ _ _ (forward_match _)) in H3.
    destruct q'; [apply multiline_string_ends; lia | apply total_finish].
  - apply bind_ends.
    { apply while_ends;
        [apply guard_not_end, guard_not_test | apply moves_append
        | apply total_append | lia]. }
    intros u l3 _.
    apply bind_ends; [apply total_match |]. intros q' l4 _.
    destruct q'; [apply total_finish | discriminate].
Qed.

Lemma number_digits_ends fuel cond tok l :
  guard cond -> remaining l < fuel ->
  number_digits fuel cond tok l <> OutOfFuel.
Proof.
  intros Hc Hf. unfold number_digits.
  apply bind_ends;
    [apply while_ends;
       [exact Hc | apply moves_append | apply total_append | exact Hf] |].
  intros u l1 _.
  apply bind_ends; [apply total_at_boundary |]. intros b l2 _.
  destruct b; [apply total_finish | discriminate].
Qed.

Lemma number_base_guard c : guard (fst (number_base c)).
Proof.
  unfold number_base.
  repeat match goal with |- context [if ?b then _ else _] => destruct b end;
    apply guard_test.
Qed.

Lemma number_ends fuel l : remaining l < fuel -> number fuel l <> OutOfFuel.
Proof.
  intros Hf. unfold number.
  apply bind_ends; [apply total_accept |]. intros z l1 Hz.
  apply (@forward_remaining _ _ _ _ _ (forward_accept _)) in Hz.
  destruct z.
  - apply bind_ends; [apply total_peek |]. intros c l2 Hp.
    apply peek_run in Hp. destruct Hp as [-> _].
    pose proof (number_base_guard c) as Hg.
    destruct (number_base c) as [cond tok]. cbn [fst] in Hg.
    destruct (token_type_beq tok TOKEN_DEC_NUMBER).
    + apply number_digits_ends; [exact Hg | lia].
    + apply bind_ends; [apply total_advance |]. intros u l3 Ha.
      apply (@forward_remaining _ _ _ _ _ forward_advance) in Ha.
      apply bind_ends; [apply Hg |]. intros d l4 Hd.
      destruct (proj2 (Hg l3) _ _ Hd) as [A _].
      apply ahead_remaining in A.
      destruct d; [| discriminate].
      apply bind_ends; [apply total_drop_lexeme |]. intros u' l5 Hl.
      apply (@forward_remaining _ _ _ _ _ (@forward_drop_lexeme 1)) in Hl.
      apply number_digits_ends; [exact Hg | lia].
  - apply number_digits_ends; [apply guard_test | lia].
Qed.

(** Every round of the loop of [do_lex] that goes on has consumed a byte:
    the backslash, or the [#] of a comment. *)
Lemma skip_blanks_ends fuel :
  forall l, remaining l + 1 < fuel -> skip_blanks fuel l <> OutOfFuel.
Proof.
  induction fuel as [| n IH]; intros l Hf; [lia |].
  cbn [skip_blanks].
  apply bind_ends.
  { apply while_ends;
      [apply guard_not_end, guard_test | apply moves_advance
      | apply total_advance | lia]. }
  intros u l1 Hw.
  apply (@forward_remaining _ _ _ _ _
           (forward_while n (forward_andL (forward_notL forward_is_end)
                                          (forward_test _))
                          forward_advance)) in Hw.
  apply bind_ends; [apply total_is_end |]. intros e l1' He.
  pose proof (@is_end_run _ _ _ He) as ->.
  destruct e.
  { apply bind_ends; [apply total_finish | discriminate]. }
  apply bind_ends; [apply total_match |]. intros m l2 Hm.
  apply match_run in Hm. destruct m.
  { destruct Hm as [A Hp]. apply IH.
    rewrite (ahead_remaining A). unfold remaining in *. lia. }
  subst l2.
  apply bind_ends; [apply total_peek |]. intros c l3 Hp.
  pose proof (@peek_run _ _ _ Hp) as [-> Hb].
  destruct (Ascii.eqb c "#") eqn:Hc; [| discriminate].
  cbn [negb].
  apply bind_ends.
  { apply while_ends;
      [apply guard_not_end, guard_test | apply moves_advance
      | apply total_advance | lia]. }
  intros u' l4 Hw2. apply IH.
  apply Ascii.eqb_eq in Hc. subst c.
  destruct n as [| n']; [unfold remaining in *; lia |].
  cbn [while] in Hw2.
  assert (Hcond : andL (notL is_end)
                       (test (fun d => negb (Ascii.eqb d newline))) l1
                  = Ret (true, l1)).
  { unfold andL, notL. rewrite (bind_eq _ _ _ (bind_eq _ _ _ He)).
    cbn [negb]. unfold test. rewrite (bind_eq _ _ _ Hp). reflexivity. }
  rewrite (bind_eq _ _ _ Hcond) in Hw2.
  apply bind_Ret in Hw2. destruct Hw2 as (u2 & l5 & Ha & Hrest).
  apply moves_advance in Ha.
  apply (@forward_remaining _ _ _ _ _
           (forward_while n' (forward_andL (forward_notL forward_is_end)
                                           (forward_test _))
                          forward_advance)) in Hrest.
  rewrite (ahead_remaining Ha) in Hrest.
  unfold remaining in *. lia.
Qed.

Lemma punctuator_ends fuel c l :
  remaining l + 4 < fuel -> punctuator fuel c l <> OutOfFuel.
Proof.
  intros Hf. unfold punctuator.
  repeat match goal with
         | |- (if ?b then _ else _) _ <> _ => destruct b
         end;
    first [ apply total_append_finish | apply total_maybe_eq
          | apply string_ends; exact Hf | apply number_ends; lia
          | discriminate ].
Qed.

Lemma do_lex_ends fuel l :
  remaining l + 16 < fuel -> do_lex fuel l <> OutOfFuel.
Proof.
  intros Hf. unfold do_lex.
  apply bind_ends; [apply total_modify |]. intros u l0 H0.
  inversion H0; subst. clear H0.
  change (remaining l) with (remaining (set_lexeme [] l)) in Hf.
  apply bind_ends; [apply skip_blanks_ends; lia |]. intros r l1 Hs.
  apply (@forward_remaining _ _ _ _ _ (forward_skip_blanks fuel)) in Hs.
  destruct r; [discriminate |].
  apply bind_ends; [apply total_test |]. intros s l2 Ht.
  apply test_run in Ht. destruct Ht as [-> _].
  destruct s; [apply symbol_ends; lia |].
  apply bind_ends; [apply total_peek |]. intros c l3 Hp.
  apply peek_run in Hp. destruct Hp as [-> _].
  apply punctuator_ends. lia.
Qed.

(** With a budget of the bytes left and sixteen more, [lex] returns or
    reads outside its buffers. *)
Lemma lex_ends fuel l : remaining l + 16 < fuel -> lex fuel l <> OutOfFuel.
Proof.
  intros Hf. unfold lex.
  apply bind_ends; [apply do_lex_ends; exact Hf |]. intros res l1 _.
  destruct (success res); [| discriminate].
  apply bind_ends; discriminate.
Qed.

End Progress.



(** ** Scanning a literal from a known text *)

Module Scan.
Import Lexer.

Lemma scanning_step pre c r lx mx :
  set_input_pos (S (length pre)) (scanning pre (c :: r) lx mx)
  = scanning (pre ++ [c]) r lx mx.
Proof.
  unfold scanning, set_input_pos. simpl.
  rewrite <- app_assoc. simpl.
  f_equal. rewrite length_app. simpl. lia.
Qed.

Lemma peek_scanning pre rest lx mx :
  peek (scanning pre rest lx mx)
  = Ret (hd NUL rest, scanning pre rest lx mx).
Proof.
  unfold peek, scanning. simpl.
  rewrite <- app_assoc, nth_error_app2, Nat.sub_diag by lia.
  destruct rest; reflexivity.
Qed.

Lemma advance_scanning pre c r lx mx :
  advance (scanning pre (c :: r) lx mx)
  = Ret (tt, scanning (pre ++ [c]) r lx mx).
Proof.
  unfold advance, modify. rewrite <- scanning_step. reflexivity.
Qed.

Lemma grow_scanning pre rest lx mx :
  exists mx', grow (scanning pre rest lx mx)
              = Ret (true, scanning pre rest lx mx').
Proof.
  unfold grow, scanning. simpl.
  destruct (mx <=? length lx); eexists; reflexivity.
Qed.

Lemma append_scanning pre c r lx mx :
  exists mx', append (scanning pre (c :: r) lx mx)
              = Ret (tt, scanning (pre ++ [c]) r (lx ++ [c]) mx').
Proof.
  destruct (grow_scanning pre (c :: r) lx mx) as [mx' G].
  exists mx'. unfold append.
  rewrite (bind_eq _ _ _ G).
  rewrite (bind_eq _ _ _ (bind_eq _ _ _ (peek_scanning _ _ _ _))).
  simpl. unfold modify.
  change (set_lexeme (lx ++ [c]) (scanning pre (c :: r) lx mx'))
    with (scanning pre (c :: r) (lx ++ [c]) mx').
  apply advance_scanning.
Qed.

Lemma is_end_scanning pre rest lx mx :
  is_end (scanning pre rest lx mx)
  = Ret (match rest with [] => true | _ => false end,
         scanning pre rest lx mx).
Proof.
  unfold is_end, bind, get, ret. simpl. f_equal. f_equal.
  rewrite length_app. destruct rest as [| c r]; simpl.
  - rewrite Nat.add_0_r. apply Nat.eqb_refl.
  - apply Nat.eqb_neq. lia.
Qed.

Lemma test_scanning f pre rest lx mx :
  test f (scanning pre rest lx mx)
  = Ret (f (hd NUL rest), scanning pre rest lx mx).
Proof.
  unfold test. rewrite (bind_eq _ _ _ (peek_scanning _ _ _ _)). reflexivity.
Qed.

Lemma finish_scanning t pre rest lx mx :
  exists mx', finish t (scanning pre rest lx mx)
              = Ret (mk_lex_result true t, scanning pre rest lx mx').
Proof.
  destruct (grow_scanning pre rest lx mx) as [mx' G].
  exists mx'. unfold finish. rewrite (bind_eq _ _ _ G). reflexivity.
Qed.

Lemma at_boundary_scanning pre rest lx mx :
  at_boundary (scanning pre rest lx mx)
  = Ret (boundary rest, scanning pre rest lx mx).
Proof.
  unfold at_boundary, orL.
  rewrite (bind_eq _ _ _ (is_end_scanning _ _ _ _)).
  destruct rest as [| c r]; [reflexivity |].
  unfold is_space, is_punct.
  rewrite (bind_eq _ _ _ (test_scanning _ _ _ _ _)). simpl.
  destruct (isspace c); [reflexivity |].
  rewrite test_scanning. reflexivity.
Qed.

(** The digit loop consumes exactly the digits [ds] when the text after
    them does not go on with a digit. *)
Lemma while_scanning f ds :
  forall pre rest lx mx fuel,
    f NUL = false ->
    forallb f ds = true -> starts_with f rest = false ->
    length ds < fuel ->
    exists mx', while fuel (test f) append (scanning pre (ds ++ rest) lx mx)
                = Ret (tt, scanning (pre ++ ds) rest (lx ++ ds) mx').
Proof.
  induction ds as [| d ds IH]; intros pre rest lx mx fuel Hnul Hds Hrest Hfuel.
  - destruct fuel as [| n]; [lia |]. exists mx. simpl.
    rewrite (bind_eq _ _ _ (test_scanning _ _ _ _ _)).
    rewrite !app_nil_r.
    destruct rest as [| c r]; simpl in *.
    + rewrite Hnul. reflexivity.
    + rewrite Hrest. reflexivity.
  - destruct fuel as [| n]; [simpl in Hfuel; lia |].
    simpl in Hds. apply andb_prop in Hds. destruct Hds as [Hd Hds].
    destruct (append_scanning pre d (ds ++ rest) lx mx) as [mx1 A].
    destruct (IH (pre ++ [d]) rest (lx ++ [d]) mx1 n Hnul Hds Hrest)
      as [mx' W]; [simpl in Hfuel; lia |].
    exists mx'. simpl.
    rewrite (bind_eq _ _ _ (test_scanning _ _ _ _ _)). simpl. rewrite Hd.
    rewrite (bind_eq _ _ _ A). rewrite W.
    rewrite <- !app_assoc. reflexivity.
Qed.

Lemma number_digits_scanning f tok ds pre rest lx mx fuel :
  f NUL = false ->
  forallb f ds = true -> starts_with f rest = false ->
  length ds < fuel ->
  exists mx',
    number_digits fuel (test f) tok (scanning pre (ds ++ rest) lx mx)
    = Ret (if boundary rest then mk_lex_result true tok else fail,
           scanning (pre ++ ds) rest (lx ++ ds) mx').
Proof.
  intros Hnul Hds Hrest Hfuel.
  destruct (while_scanning f ds pre rest lx mx Hnul Hds Hrest Hfuel)
    as [mx1 W].
  unfold number_digits. rewrite (bind_eq _ _ _ W).
  rewrite (bind_eq _ _ _ (at_boundary_scanning _ _ _ _)).
  destruct (boundary rest).
  - apply finish_scanning.
  - exists mx1. reflexivity.
Qed.

Lemma firstn_drop_last {A : Type} (lx : list A) (c : A) :
  firstn (length (lx ++ [c]) - 1) (lx ++ [c]) = lx.
Proof.
  rewrite length_app. cbn [length].
  replace (length lx + 1 - 1) with (length lx) by lia.
  rewrite firstn_app, Nat.sub_diag, firstn_all. cbn [firstn].
  apply app_nil_r.
Qed.

Lemma drop_last_scanning pre rest lx c mx :
  drop_lexeme 1 (scanning pre rest (lx ++ [c]) mx)
  = Ret (tt, scanning pre rest lx mx).
Proof.
  unfold drop_lexeme, modify, scanning, set_lexeme. cbn -[firstn length].
  rewrite firstn_drop_last. reflexivity.
Qed.

Lemma marker_cases m :
  marker m = true -> m = "b"%char \/ m = "o"%char \/ m = "x"%char.
Proof.
  unfold marker. intros H.
  apply orb_prop in H. destruct H as [H | H].
  - apply orb_prop in H. destruct H as [H | H]; apply Ascii.eqb_eq in H; auto.
  - apply Ascii.eqb_eq in H; auto.
Qed.

Lemma number_base_marker m :
  marker m = true ->
  number_base m = (test (base_digit m), base_token m)
  /\ base_digit m NUL = false
  /\ token_type_beq (base_token m) TOKEN_DEC_NUMBER = false.
Proof.
  intros H. destruct (marker_cases m H) as [-> | [-> | ->]];
    repeat split; reflexivity.
Qed.

Lemma number_base_plain c :
  marker c = false -> number_base c = (is_digit, TOKEN_DEC_NUMBER).
Proof.
  unfold marker, number_base. intros H.
  apply orb_false_elim in H. destruct H as [H Hx].
  apply orb_false_elim in H. destruct H as [Hb Ho].
  rewrite Hb, Ho, Hx. reflexivity.
Qed.

Lemma accept_scanning c r pre lx mx :
  exists mx', accept c (scanning pre (c :: r) lx mx)
              = Ret (true, scanning (pre ++ [c]) r (lx ++ [c]) mx').
Proof.
  destruct (append_scanning pre c r lx mx) as [mx' A].
  exists mx'. unfold accept.
  rewrite (bind_eq _ _ _ (peek_scanning _ _ _ _)). simpl.
  rewrite Ascii.eqb_refl. rewrite (bind_eq _ _ _ A). reflexivity.
Qed.

Lemma accept_scanning_other c rest pre lx mx :
  Ascii.eqb (hd NUL rest) c = false ->
  accept c (scanning pre rest lx mx) = Ret (false, scanning pre rest lx mx).
Proof.
  intros H. unfold accept.
  rewrite (bind_eq _ _ _ (peek_scanning _ _ _ _)). rewrite H. reflexivity.
Qed.

(** [number] on a literal with a base marker. *)
Lemma number_prefixed m ds pre rest lx mx fuel :
  marker m = true ->
  forallb (base_digit m) ds = true ->
  starts_with (base_digit m) rest = false ->
  length ds < fuel ->
  exists mx' lx',
    number fuel (scanning pre ("0"%char :: m :: ds ++ rest) lx mx)
    = Ret (match ds with
           | [] => fail
           | _ => if boundary rest then mk_lex_result true (base_token m)
                  else fail
           end,
           scanning (pre ++ "0"%char :: m :: ds) rest lx' mx')
    /\ (ds <> [] -> lx' = lx ++ ds).
Proof.
  intros Hm Hds Hrest Hfuel.
  destruct (number_base_marker m Hm) as (Hbase & Hnul & Hdec).
  destruct (accept_scanning "0" (m :: ds ++ rest) pre lx mx) as [mx1 A].
  unfold number. rewrite (bind_eq _ _ _ A).
  rewrite (bind_eq _ _ _ (peek_scanning _ _ _ _)). cbn beta. cbn [hd].
  rewrite Hbase, Hdec.
  rewrite (bind_eq _ _ _ (advance_scanning _ _ _ _ _)).
  rewrite (bind_eq _ _ _ (test_scanning _ _ _ _ _)).
  destruct ds as [| d ds].
  - assert (Hf : base_digit m (hd NUL rest) = false)
      by (destruct rest; simpl in *; congruence).
    exists mx1, (lx ++ ["0"%char]). cbn [app hd]. rewrite Hf.
    rewrite <- !app_assoc.
    split; [reflexivity | congruence].
  - pose proof Hds as Hds'. simpl in Hds'. apply andb_prop in Hds'.
    cbn [app hd]. rewrite (proj1 Hds').
    rewrite (bind_eq _ _ _ (drop_last_scanning _ _ _ _ _)).
    destruct (number_digits_scanning (base_digit m) (base_token m) (d :: ds)
                ((pre ++ ["0"%char]) ++ [m]) rest lx mx1 Hnul Hds Hrest Hfuel)
      as [mx' N].
    exists mx', (lx ++ d :: ds). cbn [app] in N. rewrite N.
    rewrite <- !app_assoc.
    split; [reflexivity | reflexivity].
Qed.

(** What being a decimal digit excludes. *)
Lemma digit_class c :
  isdigit c = true ->
  marker c = false
  /\ isspace c = false
  /\ Ascii.eqb c "\" = false
  /\ Ascii.eqb c "#" = false
  /\ (isalpha c || Ascii.eqb c "_") = false
  /\ (forall fuel, punctuator fuel c = number fuel).
Proof.
  destruct c as [b0 b1 b2 b3 b4 b5 b6 b7].
  destruct b0, b1, b2, b3, b4, b5, b6, b7;
    (intros H; vm_compute in H; try discriminate H);
    repeat split; reflexivity.
Qed.

(** [number] on a literal without base marker. *)
Lemma number_decimal d ds pre rest lx mx fuel :
  forallb isdigit (d :: ds) = true ->
  starts_with isdigit rest = false ->
  (ds = [] -> d = "0"%char -> starts_with marker rest = false) ->
  length (d :: ds) < fuel ->
  exists mx',
    number fuel (scanning pre ((d :: ds) ++ rest) lx mx)
    = Ret (if boundary rest then mk_lex_result true TOKEN_DEC_NUMBER
           else fail,
           scanning (pre ++ d :: ds) rest (lx ++ d :: ds) mx').
Proof.
  intros Hds Hrest Hplain Hfuel.
  assert (Hnul : isdigit NUL = false) by reflexivity.
  destruct (Ascii.eqb d "0") eqn:Hd.
  - apply Ascii.eqb_eq in Hd. subst d.
    destruct (accept_scanning "0" (ds ++ rest) pre lx mx) as [mx1 A].
    unfold number. cbn [app]. rewrite (bind_eq _ _ _ A).
    rewrite (bind_eq _ _ _ (peek_scanning _ _ _ _)). cbn beta.
    assert (Hc : marker (hd NUL (ds ++ rest)) = false).
    { destruct ds as [| d2 ds].
      - destruct rest as [| c r]; [reflexivity |].
        apply Hplain; reflexivity.
      - simpl in Hds. apply andb_prop in Hds.
        apply (digit_class d2). apply Hds. }
    rewrite (number_base_plain _ Hc). cbn [token_type_beq].
    simpl in Hds.
    destruct (@number_digits_scanning isdigit TOKEN_DEC_NUMBER ds
                (pre ++ ["0"%char]) rest (lx ++ ["0"%char]) mx1 fuel
                Hnul Hds Hrest) as [mx' N]; [simpl in Hfuel; lia |].
    exists mx'. unfold is_digit. rewrite N. rewrite <- !app_assoc.
    reflexivity.
  - unfold number.
    rewrite (bind_eq _ _ _
               (accept_scanning_other "0" ((d :: ds) ++ rest) pre lx mx Hd)).
    apply (number_digits_scanning isdigit TOKEN_DEC_NUMBER (d :: ds)
             pre rest lx mx Hnul Hds Hrest Hfuel).
Qed.

(** At a digit, [do_lex] has nothing to skip and calls [number] with an
    empty lexeme. *)
Lemma do_lex_digit c r pre lx mx n :
  isdigit c = true ->
  do_lex (S (S n)) (scanning pre (c :: r) lx mx)
  = number (S (S n)) (scanning pre (c :: r) [] mx).
Proof.
  intros Hc.
  destruct (digit_class c Hc) as (_ & Hsp & Hbs & Hhash & Hsym & Hp).
  unfold do_lex, modify, bind at 1.
  change (set_lexeme [] (scanning pre (c :: r) lx mx))
    with (scanning pre (c :: r) [] mx).
  assert (Hskip : skip_blanks (S (S n)) (scanning pre (c :: r) [] mx)
                  = Ret (None, scanning pre (c :: r) [] mx)).
  { cbn [skip_blanks while].
    unfold andL, notL, is_space, match_, bind.
    repeat (first [ rewrite is_end_scanning | rewrite test_scanning
                  | rewrite peek_scanning | rewrite Hsp | rewrite Hbs
                  | rewrite Hhash ];
            cbn [ret hd negb]).
    reflexivity. }
  rewrite (bind_eq _ _ _ Hskip).
  unfold is_symbol. rewrite (bind_eq _ _ _ (test_scanning _ _ _ _ _)).
  cbn [hd]. rewrite Hsym.
  rewrite (bind_eq _ _ _ (peek_scanning _ _ _ _)). cbn [hd].
  apply (f_equal (fun f => f _) (Hp _)).
Qed.

End Scan.

(** [lex] after [do_lex] has returned from a tokenizer with a clear
    latch. *)
Lemma lex_of_do_lex fuel l res pre rest lx mx :
  Lexer.do_lex fuel l = Ret (res, scanning pre rest lx mx) ->
  Lexer.lex fuel l
  = Ret (if Lexer.success res then Lexer.token res else Lexer.TOKEN_ERROR,
         scanning pre rest lx mx).
Proof.
  intros H. unfold Lexer.lex. rewrite (bind_eq _ _ _ H).
  destruct (Lexer.success res); reflexivity.
Qed.

(** C6: a base marker that is not followed by a digit of its base gives
    the error token; so does a number that is not followed by end of
    input, white space or punctuation; otherwise the token is the one of
    the base and the lexeme holds the digits without the marker, or all
    the digits, a leading [0] included, of a decimal number. *)
Theorem number_literals :
  (forall (pre ds rest lx : list ascii) (mx n : nat) (m : ascii),
      length ds <= n ->
      marker m = true ->
      forallb (base_digit m) ds = true ->
      starts_with (base_digit m) rest = false ->
      exists l',
        Lexer.lex (S (S n)) (scanning pre ("0"%char :: m :: ds ++ rest) lx mx)
        = Ret (match ds with
               | [] => Lexer.TOKEN_ERROR
               | _ => if boundary rest then base_token m
                      else Lexer.TOKEN_ERROR
               end, l')
        /\ (ds <> [] -> Lexer.lexeme l' = ds))
  /\ (forall (pre ds rest lx : list ascii) (mx n : nat),
         length ds <= n ->
         ds <> [] ->
         forallb isdigit ds = true ->
         starts_with isdigit rest = false ->
         (ds = ["0"%char] -> starts_with marker rest = false) ->
         exists l',
           Lexer.lex (S (S n)) (scanning pre (ds ++ rest) lx mx)
           = Ret (if boundary rest then Lexer.TOKEN_DEC_NUMBER
                  else Lexer.TOKEN_ERROR, l')
           /\ Lexer.lexeme l' = ds)
  /\ Lexer.lex_first "0x1A" = Ret (Lexer.TOKEN_HEX_NUMBER, "1A"%string)
  /\ Lexer.lex_first "0123" = Ret (Lexer.TOKEN_DEC_NUMBER, "0123"%string)
  /\ Lexer.lex_first "0_" = Ret (Lexer.TOKEN_ERROR, "0"%string)
  /\ Lexer.lex_first "0b" = Ret (Lexer.TOKEN_ERROR, "0"%string)
  /\ Lexer.lex_first "0o" = Ret (Lexer.TOKEN_ERROR, "0"%string)
  /\ Lexer.lex_first "0x" = Ret (Lexer.TOKEN_ERROR, "0"%string).
Proof.
  split; [| split; [| conjuncts; vm_compute; reflexivity]].
  - intros pre ds rest lx mx n m Hn Hm Hds Hrest.
    destruct (@Scan.number_prefixed m ds pre rest [] mx (S (S n))
                Hm Hds Hrest) as (mx' & lx' & N & Hlx); [lia |].
    rewrite <- (Scan.do_lex_digit "0" (m :: ds ++ rest) pre lx mx n
                  eq_refl) in N.
    exists (scanning (pre ++ "0"%char :: m :: ds) rest lx' mx').
    rewrite (lex_of_do_lex _ _ N). split.
    + destruct ds; [reflexivity |]. destruct (boundary rest); reflexivity.
    + intros Hne. rewrite (Hlx Hne). reflexivity.
  - intros pre ds rest lx mx n Hn Hne Hds Hrest Hplain.
    destruct ds as [| d ds]; [congruence |].
    assert (Hd : isdigit d = true)
      by (simpl in Hds; apply andb_prop in Hds; apply Hds).
    destruct (@Scan.number_decimal d ds pre rest [] mx (S (S n))
                Hds Hrest) as (mx' & N).
    + intros -> ->. apply Hplain. reflexivity.
    + simpl in *. lia.
    + cbn [app] in N.
      rewrite <- (Scan.do_lex_digit d (ds ++ rest) pre lx mx n Hd) in N.
      exists (scanning (pre ++ d :: ds) rest ([] ++ d :: ds) mx').
      cbn [app]. cbn [app] in N. rewrite (lex_of_do_lex _ _ N). split; [| reflexivity].
      destruct (boundary rest); reflexivity.
Qed.

Lemma number_literals_witness :
  ((length (chars "1A") <= 2
    /\ marker "x" = true
    /\ forallb (base_digit "x") (chars "1A") = true
    /\ starts_with (base_digit "x") (chars " + 1") = false)
   /\ exists l',
        Lexer.lex 4 (scanning (chars "n = ")
                              ("0"%char :: "x"%char
                                 :: chars "1A" ++ chars " + 1")
                              [] 128)
        = Ret (base_token "x", l')
        /\ (chars "1A" <> [] -> Lexer.lexeme l' = chars "1A"))
  /\ ((length (chars "42") <= 2
       /\ chars "42" <> []
       /\ forallb isdigit (chars "42") = true
       /\ starts_with isdigit (chars ")") = false
       /\ (chars "42" = ["0"%char] -> starts_with marker (chars ")") = false))
      /\ exists l',
           Lexer.lex 4 (scanning (chars "f(") (chars "42" ++ chars ")")
                                 [] 128)
           = Ret (Lexer.TOKEN_DEC_NUMBER, l')
           /\ Lexer.lexeme l' = chars "42").
Proof.
  assert (N : chars "42" <> []) by discriminate.
  split; split.
  - repeat split. simpl. lia.
  - exact (proj1 number_literals (chars "n = ") (chars "1A") (chars " + 1")
                 [] 128 2 "x"%char
                 (le_n 2) eq_refl eq_refl eq_refl).
  - split; [simpl; lia |]. split; [exact N |]. repeat split.
  - exact (proj1 (proj2 number_literals) (chars "f(") (chars "42") (chars ")")
                 [] 128 2
                 (le_n 2) N eq_refl eq_refl (fun _ => eq_refl)).
Defined.

(** ** Keywords and identifiers *)

(** C1: the run [aor] is lexed as the keyword token [or] with the lexeme
    [aor], where the rule of the specification gives the identifier [aor]:
    after the failed match of [and] the table column is reset but the byte
    [a] stays consumed.  On [if_] and [iffy] the code follows the rule. *)
Theorem symbol_keeps_consumed_prefix :
  Lexer.lex_first "aor" = Ret (Lexer.TOKEN_OR, "aor"%string)
  /\ spec_symbol "aor" = (Lexer.TOKEN_IDENTIFIER, "aor"%string)
  /\ Lexer.lex_first "if_" = Ret (spec_symbol "if_")
  /\ spec_symbol "if_" = (Lexer.TOKEN_IDENTIFIER, "if_"%string)
  /\ Lexer.lex_first "iffy" = Ret (spec_symbol "iffy")
  /\ Lexer.lex_first "if" = Ret (spec_symbol "if")
  /\ spec_symbol "if" = (Lexer.TOKEN_IF, "if"%string).
Proof. conjuncts; vm_compute; reflexivity. Qed.

(** ** Unterminated triple-quoted strings *)

(** C2: on a source that ends inside a triple-quoted string, here three
    quotes, [abc] and two quotes, no step budget lets [parse] return:
    after the closing quotes are missed, [multiline_string] appends once
    more at the end of the input, the cursor passes [input_len], [is_end]
    is false from then on, and the next [is_quote] reads outside the
    buffer. *)
Theorem unterminated_triple_quote_overruns :
  parse_with [] "'''abc''" = Fault
  /\ forall fuel r,
       Parser.parse fuel (chars "'''abc''") [] (empty_heap []) <> Ret r.
Proof.
  split; [vm_compute; reflexivity |].
  intros fuel r.
  do 8 (destruct fuel as [| fuel]; [vm_compute; discriminate |]).
  vm_compute. discriminate.
Qed.

(** ** Release of nodes on failure *)

(** C3: when the allocation of the member node of [a.b] is refused, [parse]
    reports the lack of memory while the identifier node of [b] (block 4)
    and its name (block 5) are still allocated: [postfix] releases the
    object but not the field. *)
Theorem member_allocation_failure_leaks :
  exists h,
    parse_with [true; true; true; true; true; true; false] "a.b"
    = Ret (Parser.Rejected (Raw (chars "not enough memory")), h)
    /\ live h = [5; 4]
    /\ released h = [1; 2; 3; 0]
    /\ check "a.b" = Ret (true, "(seq (member (id a) (id b)))"%string).
Proof. eexists. conjuncts; vm_compute; reflexivity. Qed.

(** ** The token of lookahead *)

Module Tokens.
Import Lexer Parser.

Lemma token_eqb_refl t : token_type_beq t t = true.
Proof. destruct t; reflexivity. Qed.

Lemma peek_ready fuel w t w1 :
  peek fuel w = Ret (t, w1) ->
  ready (the_parser w1) = true /\ p_token (the_parser w1) = t.
Proof.
  unfold peek, get_parser, bind, get, ret.
  destruct (ready (the_parser w)) eqn:R.
  - intros H. inversion H; subst. split; [exact R | reflexivity].
  - unfold inL, set_token, modify.
    destruct (lex fuel (p_lexer (the_parser w))) as [[t' l'] | |];
      try discriminate.
    intros H. inversion H; subst. split; reflexivity.
Qed.

Lemma peek_again fuel w t w1 :
  peek fuel w = Ret (t, w1) -> peek fuel w1 = Ret (t, w1).
Proof.
  intros H. destruct (@peek_ready fuel w t w1 H) as [R T].
  unfold peek, get_parser, bind, get, ret. rewrite R, T. reflexivity.
Qed.

Lemma set_token_consume fuel w t w1 :
  peek fuel w = Ret (t, w1) ->
  set_token t false w1 = Ret (tt, consume w1).
Proof.
  intros H. destruct (@peek_ready fuel w t w1 H) as [_ T].
  unfold set_token, modify, consume. rewrite T. reflexivity.
Qed.

Lemma accept_hit fuel w t w1 :
  peek fuel w = Ret (t, w1) -> accept fuel t w = Ret (true, consume w1).
Proof.
  intros H. unfold accept, accept_any, bind. rewrite H.
  cbn [find fst]. rewrite token_eqb_refl.
  rewrite (@set_token_consume fuel w t w1 H). reflexivity.
Qed.

Lemma accept_miss fuel w t w1 tok :
  peek fuel w = Ret (t, w1) -> token_type_beq tok t = false ->
  accept fuel tok w = Ret (false, w1).
Proof.
  intros H N. unfold accept, accept_any, bind. rewrite H.
  cbn [find fst]. rewrite N. reflexivity.
Qed.

(** A comma right before the closing token ends the list. *)
Lemma another_item_trailing fuel closing w w1 w2 :
  accept fuel TOKEN_COMMA w = Ret (true, w1) ->
  peek fuel w1 = Ret (closing, w2) ->
  another_item fuel closing w = Ret (false, w2).
Proof.
  intros A Pk. unfold another_item.
  rewrite (bind_eq _ _ _ A). rewrite (bind_eq _ _ _ Pk).
  rewrite token_eqb_refl. reflexivity.
Qed.

(** So does the closing token itself, when it is not a comma. *)
Lemma another_item_closing fuel closing w w2 :
  peek fuel w = Ret (closing, w2) ->
  token_type_beq TOKEN_COMMA closing = false ->
  another_item fuel closing w = Ret (false, w2).
Proof.
  intros Pk N. unfold another_item.
  rewrite (bind_eq _ _ _ (@accept_miss fuel w closing w2 TOKEN_COMMA Pk N)).
  reflexivity.
Qed.

End Tokens.

(** ** Trailing commas *)

(** C9: after the last element of an array, a dictionary or an argument
    list, a comma followed by the closing token ends the list just as the
    closing token alone does: in both cases the node built so far is
    returned as it is, with no element added.  So [[1, 2,]], [{k: v,}] and
    [f(a,)] parse to the very trees of [[1, 2]], [{k: v}] and [f(a)]. *)
Theorem trailing_comma_adds_nothing :
  (forall fuel again h elts count w w1 w2,
      Parser.accept fuel Lexer.TOKEN_COMMA w = Ret (true, w1) ->
      Parser.peek fuel w1 = Ret (Lexer.TOKEN_R_BRACKET, w2) ->
      Parser.array_end fuel again h elts count w
      = Ret (Parser.Res_ast (Array h count elts), consume w2))
  /\ (forall fuel again h elts count w w2,
         Parser.peek fuel w = Ret (Lexer.TOKEN_R_BRACKET, w2) ->
         Parser.array_end fuel again h elts count w
         = Ret (Parser.Res_ast (Array h count elts), consume w2))
  /\ (forall fuel again h map w w1 w2,
         Parser.accept fuel Lexer.TOKEN_COMMA w = Ret (true, w1) ->
         Parser.peek fuel w1 = Ret (Lexer.TOKEN_R_BRACE, w2) ->
         Parser.dictionary_end fuel again h map w
         = Ret (Parser.Res_ast (Dict h map), consume w2))
  /\ (forall fuel again h map w w2,
         Parser.peek fuel w = Ret (Lexer.TOKEN_R_BRACE, w2) ->
         Parser.dictionary_end fuel again h map w
         = Ret (Parser.Res_ast (Dict h map), consume w2))
  /\ (forall fuel again h args kw_args w w1 w2,
         Parser.accept fuel Lexer.TOKEN_COMMA w = Ret (true, w1) ->
         Parser.peek fuel w1 = Ret (Lexer.TOKEN_R_PAREN, w2) ->
         Parser.application_end fuel again h args kw_args w
         = Ret (Parser.Res_ast (App h None args kw_args), consume w2))
  /\ (forall fuel again h args kw_args w w2,
         Parser.peek fuel w = Ret (Lexer.TOKEN_R_PAREN, w2) ->
         Parser.application_end fuel again h args kw_args w
         = Ret (Parser.Res_ast (App h None args kw_args), consume w2))
  /\ parse_with [] "[1, 2,]" = parse_with [] "[1, 2]"
  /\ parse_with [] "{k: v,}" = parse_with [] "{k: v}"
  /\ parse_with [] "f(a,)" = parse_with [] "f(a)"
  /\ check "[1, 2,]" = Ret (true, "(seq (array (num 1) (num 2)))"%string)
  /\ check "{k: v,}" = Ret (true, "(seq (dict ((id k) (id v))))"%string)
  /\ check "f(a,)" = Ret (true, "(seq (app (id f) args:((id a))))"%string).
Proof.
  conjuncts; compute_closed.
  - intros fuel again h elts count w w1 w2 A Pk. unfold Parser.array_end.
    rewrite (bind_eq _ _ _ (@Tokens.another_item_trailing _ _ _ _ _ A Pk)).
    rewrite (bind_eq _ _ _ (@Tokens.accept_hit _ _ _ _
                              (@Tokens.peek_again _ _ _ _ Pk))).
    reflexivity.
  - intros fuel again h elts count w w2 Pk. unfold Parser.array_end.
    rewrite (bind_eq _ _ _ (@Tokens.another_item_closing _ _ _ _ Pk eq_refl)).
    rewrite (bind_eq _ _ _ (@Tokens.accept_hit _ _ _ _
                              (@Tokens.peek_again _ _ _ _ Pk))).
    reflexivity.
  - intros fuel again h map w w1 w2 A Pk. unfold Parser.dictionary_end.
    rewrite (bind_eq _ _ _ (@Tokens.another_item_trailing _ _ _ _ _ A Pk)).
    rewrite (bind_eq _ _ _ (@Tokens.accept_hit _ _ _ _
                              (@Tokens.peek_again _ _ _ _ Pk))).
    reflexivity.
  - intros fuel again h map w w2 Pk. unfold Parser.dictionary_end.
    rewrite (bind_eq _ _ _ (@Tokens.another_item_closing _ _ _ _ Pk eq_refl)).
    rewrite (bind_eq _ _ _ (@Tokens.accept_hit _ _ _ _
                              (@Tokens.peek_again _ _ _ _ Pk))).
    reflexivity.
  - intros fuel again h args kw_args w w1 w2 A Pk.
    unfold Parser.application_end.
    rewrite (bind_eq _ _ _ (@Tokens.another_item_trailing _ _ _ _ _ A Pk)).
    rewrite (bind_eq _ _ _ (@Tokens.accept_hit _ _ _ _
                              (@Tokens.peek_again _ _ _ _ Pk))).
    reflexivity.
  - intros fuel again h args kw_args w w2 Pk.
    unfold Parser.application_end.
    rewrite (bind_eq _ _ _ (@Tokens.another_item_closing _ _ _ _ Pk eq_refl)).
    rewrite (bind_eq _ _ _ (@Tokens.accept_hit _ _ _ _
                              (@Tokens.peek_again _ _ _ _ Pk))).
    reflexivity.
Qed.

Lemma trailing_comma_adds_nothing_witness :
  let lexer_at pos lx :=
    Lexer.mk_lexer false (chars ",]") pos 2 (chars lx) 128 [] in
  let w1 := Parser.mk_world
              (Parser.mk_parser (lexer_at 1 ","%string) Lexer.TOKEN_COMMA false)
              (empty_heap []) in
  let w2 := Parser.mk_world
              (Parser.mk_parser (lexer_at 2 "]"%string) Lexer.TOKEN_R_BRACKET
                                true)
              (empty_heap []) in
  let h := mk_header 0 AST_ARRAY AST_NONE in
  Parser.accept 5 Lexer.TOKEN_COMMA (start ",]") = Ret (true, w1)
  /\ Parser.peek 5 w1 = Ret (Lexer.TOKEN_R_BRACKET, w2)
  /\ Parser.array_end 5 fault h [] 0 (start ",]")
     = Ret (Parser.Res_ast (Array h 0 []), consume w2).
Proof.
  intros lexer_at w1 w2 h.
  assert (A : Parser.accept 5 Lexer.TOKEN_COMMA (start ",]") = Ret (true, w1))
    by (vm_compute; reflexivity).
  assert (Pk : Parser.peek 5 w1 = Ret (Lexer.TOKEN_R_BRACKET, w2))
    by (vm_compute; reflexivity).
  split; [exact A | split; [exact Pk |]].
  exact (proj1 trailing_comma_adds_nothing 5 fault h [] 0 (start ",]") w1 w2
               A Pk).
Defined.

(** ** Postfix extensions *)

(** C4, as stated, fails on a parenthesized identifier: the primary of
    [(a)[0]] is a parenthesized expression (its first token is the opening
    paren), and yet the subscript is attached to it. *)
Lemma parenthesized_identifier_is_extended :
  Lexer.lex_first "(a)[0]" = Ret (Lexer.TOKEN_L_PAREN, "("%string)
  /\ check "(a)[0]" = Ret (true, "(seq (index (id a) (num 0)))"%string).
Proof. conjuncts; vm_compute; reflexivity. Qed.

(** C4, amended: [postfix] attaches [.field], [(args)] and [[index]] exactly
    when the node returned by [primary] is an identifier node, which a
    parenthesized identifier also gives; every other result of [primary],
    a failure included, is returned unchanged.  So [[1,2,3][0]] is an array
    followed by another array, [(a + b)[0]] a sum followed by an array,
    while [a[0]] and [(a)[0]] are index nodes over [a]. *)
Theorem postfix_extends_identifier_nodes :
  (forall fuel expr w res w',
      Parser.primary fuel expr w = Ret (res, w') ->
      Parser.failed res = true
      \/ (exists a, res = Parser.Res_ast a /\ is_type AST_ID a = false) ->
      Parser.postfix fuel expr w = Ret (res, w'))
  /\ (forall fuel expr w a w',
         Parser.primary fuel expr w = Ret (Parser.Res_ast a, w') ->
         is_type AST_ID a = true ->
         Parser.postfix fuel expr w = Parser.postfix_chain fuel expr fuel a w')
  /\ check "[1,2,3][0]"
     = Ret (true,
            "(seq (array (num 1) (num 2) (num 3)) (array (num 0)))"%string)
  /\ check "(a + b)[0]"
     = Ret (true, "(seq (+ (id a) (id b)) (array (num 0)))"%string)
  /\ check "a[0]" = Ret (true, "(seq (index (id a) (num 0)))"%string)
  /\ check "(a)[0]" = Ret (true, "(seq (index (id a) (num 0)))"%string).
Proof.
  conjuncts; compute_closed.
  - intros fuel expr w res w' E H. unfold Parser.postfix.
    rewrite (bind_eq _ _ _ E).
    destruct H as [F | (a & -> & T)].
    + rewrite F. reflexivity.
    + cbn [Parser.failed Parser.status Parser.node_of].
      unfold bind, ret. rewrite T. reflexivity.
  - intros fuel expr w a w' E T. unfold Parser.postfix.
    rewrite (bind_eq _ _ _ E).
    cbn [Parser.failed Parser.status Parser.node_of].
    unfold bind, ret. rewrite T. reflexivity.
Qed.

Lemma postfix_extends_identifier_nodes_witness :
  let e := Parser.expression 30 30 in
  let w := start "[1][0]" in
  exists res w',
    Parser.primary 30 e w = Ret (res, w')
    /\ (Parser.failed res = true
        \/ (exists a, res = Parser.Res_ast a /\ is_type AST_ID a = false))
    /\ Parser.postfix 30 e w = Ret (res, w').
Proof.
  intros e w.
  destruct (Parser.primary 30 e w) as [[res w'] | |] eqn:E;
    try (vm_compute in E; discriminate E).
  assert (T : Parser.failed res = true
              \/ (exists a, res = Parser.Res_ast a
                            /\ is_type AST_ID a = false)).
  { pose proof E as E2. vm_compute in E2.
    injection E2 as <- _. right. eexists. split; reflexivity. }
  exists res, w'. split; [reflexivity | split; [exact T |]].
  exact (proj1 postfix_extends_identifier_nodes 30 e w res w' E T).
Defined.

(** ** Sequences of statements *)

Module Statements.
Import Parser.

(** The loop of [sequence] appends every statement up to the first empty
    one, which it releases. *)
Lemma sequence_rest_collects fuel seq h w l e w' :
  collects (statement fuel seq) w l e w' ->
  forall n exps node,
    length l < n ->
    sequence_rest fuel seq n h exps node w
    = (free e ;; ret (Res_ast (Seq h (exps ++ node :: l)))) w'.
Proof.
  induction 1 as [w e w' E T | w s w1 l e w' E T _ IH];
    intros n exps node Hn; (destruct n as [| n]; [simpl in Hn; lia |]);
    cbn [sequence_rest]; rewrite (bind_eq _ _ _ E);
    cbn [failed status node_of]; unfold bind at 1, ret at 1; rewrite T.
  - reflexivity.
  - rewrite IH by (simpl in Hn; lia).
    rewrite <- app_assoc. reflexivity.
Qed.

End Statements.

(** C7: when the first statement of a sequence is the empty node, that node
    is the result of the sequence; otherwise the statements are collected
    in order up to the first empty one, which is released and left out.
    So [a b c] is a sequence of exactly three statements and the empty
    source is the empty node. *)
Theorem sequence_collects_until_empty :
  (forall fuel seq w e w',
      Parser.statement fuel seq w = Ret (Parser.Res_ast e, w') ->
      is_type AST_EMPTY e = true ->
      Parser.sequence_body fuel seq w = Ret (Parser.Res_ast e, w'))
  /\ (forall fuel seq w s w1 h w2 l e w3,
         Parser.statement fuel seq w = Ret (Parser.Res_ast s, w1) ->
         is_type AST_EMPTY s = false ->
         Parser.inH ast_seq w1 = Ret (Some h, w2) ->
         collects (Parser.statement fuel seq) w2 l e w3 ->
         length l < fuel ->
         Parser.sequence_body fuel seq w
         = (Parser.free e ;; ret (Parser.Res_ast (Seq h (s :: l)))) w3)
  /\ check "a b c" = Ret (true, "(seq (id a) (id b) (id c))"%string)
  /\ parses_to "a b c"
       (fun root => match root with
                    | Seq _ [_; _; _] => true
                    | _ => false
                    end) = true
  /\ check "" = Ret (true, "(empty)"%string)
  /\ parses_to ""
       (fun root => match root with
                    | Plain h => ast_type_beq (type_of h) AST_EMPTY
                    | _ => false
                    end) = true.
Proof.
  conjuncts; compute_closed.
  - intros fuel seq w e w' E T. unfold Parser.sequence_body.
    rewrite (bind_eq _ _ _ E).
    cbn [Parser.failed Parser.status Parser.node_of].
    unfold bind, ret. rewrite T. reflexivity.
  - intros fuel seq w s w1 h w2 l e w3 E T A C Hl.
    unfold Parser.sequence_body.
    rewrite (bind_eq _ _ _ E).
    cbn [Parser.failed Parser.status Parser.node_of].
    unfold bind at 1, ret at 1. rewrite T.
    rewrite (bind_eq _ _ _ A).
    rewrite (@Statements.sequence_rest_collects fuel seq h w2 l e w3 C
               fuel [] s Hl).
    reflexivity.
Qed.

Lemma sequence_collects_until_empty_witness :
  let seq := Parser.sequence 20 20 in
  let stmt := Parser.statement 20 seq in
  (exists e w',
      stmt (start "") = Ret (Parser.Res_ast e, w')
      /\ is_type AST_EMPTY e = true
      /\ Parser.sequence_body 20 seq (start "") = Ret (Parser.Res_ast e, w'))
  /\ (exists s w1 h w2 l e w3,
         stmt (start "a b") = Ret (Parser.Res_ast s, w1)
         /\ is_type AST_EMPTY s = false
         /\ Parser.inH ast_seq w1 = Ret (Some h, w2)
         /\ collects stmt w2 l e w3
         /\ length l < 20
         /\ Parser.sequence_body 20 seq (start "a b")
            = (Parser.free e ;; ret (Parser.Res_ast (Seq h (s :: l)))) w3).
Proof.
  intros seq stmt. split.
  - destruct (stmt (start "")) as [[res w'] | |] eqn:E;
      try (vm_compute in E; discriminate E).
    pose proof E as E2. vm_compute in E2.
    destruct res as [e | |]; try discriminate E2.
    assert (T : is_type AST_EMPTY e = true)
      by (injection E2 as <- _; reflexivity).
    exists e, w'. split; [reflexivity | split; [exact T |]].
    exact (proj1 sequence_collects_until_empty 20 seq (start "") e w' E T).
  - destruct (stmt (start "a b")) as [[res w1] | |] eqn:E1;
      try (vm_compute in E1; discriminate E1).
    pose proof E1 as C1. vm_compute in C1.
    destruct res as [s | |]; try discriminate C1.
    injection C1 as Hs Hw1. subst s w1.
    match type of E1 with _ = Ret (_, ?w) =>
      destruct (Parser.inH ast_seq w) as [[[h |] w2] | |] eqn:E2;
        try (vm_compute in E2; discriminate E2)
    end.
    pose proof E2 as C2. vm_compute in C2.
    injection C2 as Hh Hw2. subst h w2.
    match type of E2 with _ = Ret (_, ?w) =>
      destruct (stmt w) as [[res w3] | |] eqn:E3;
        try (vm_compute in E3; discriminate E3)
    end.
    pose proof E3 as C3. vm_compute in C3.
    destruct res as [b | |]; try discriminate C3.
    injection C3 as Hb Hw3. subst b w3.
    match type of E3 with _ = Ret (_, ?w) =>
      destruct (stmt w) as [[res w4] | |] eqn:E4;
        try (vm_compute in E4; discriminate E4)
    end.
    pose proof E4 as C4. vm_compute in C4.
    destruct res as [e | |]; try discriminate C4.
    injection C4 as He Hw4. subst e w4.
    do 7 eexists.
    split; [exact E1 |]. split; [reflexivity |]. split; [exact E2 |].
    assert (C : collects stmt _ _ _ _)
      by (eapply collects_more; [exact E3 | reflexivity |];
          apply collects_end; [exact E4 | reflexivity]).
    split; [exact C |].
    assert (L : length [Id (mk_header 4 AST_ID AST_NONE)
                           (Owned 5 (chars "b"))] < 20) by (simpl; lia).
    split; [exact L |].
    exact (proj1 (proj2 sequence_collects_until_empty)
                 20 seq (start "a b") _ _ _ _ _ _ _
                 E1 eq_refl E2 C L).
Defined.

(** ** Arguments of an application *)

Module Arguments.
Import Lexer Parser.

(** Takes apart the hypotheses that say a monadic computation returned. *)
Ltac inv_run :=
  repeat match goal with
    | H : bind _ _ _ = Ret _ |- _ =>
        apply bind_Ret in H; destruct H as (? & ? & ? & H)
    | H : ret _ _ = Ret _ |- _ => inversion H; subst; clear H
    | H : fault _ = Ret _ |- _ => discriminate H
    | H : out_of_fuel _ = Ret _ |- _ => discriminate H
    | H : with_expected _ _ _ = Ret _ |- _ =>
        unfold with_expected, with_error in H
    | H : (if ?b then _ else _) _ = Ret _ |- _ => destruct b eqn:?
    | H : match ?x with _ => _ end _ = Ret _ |- _ => destruct x eqn:?
    end.

Lemma application_end_node fuel again h args kw_args w a w' :
  application_end fuel again h args kw_args w = Ret (Res_ast a, w') ->
  a = App h None args kw_args
  \/ exists w1, again w1 = Ret (Res_ast a, w').
Proof.
  unfold application_end. intros H. inv_run.
  - right. eexists. eassumption.
  - unfold with_ast in *. left. congruence.
Qed.

(** Once the keyword flag is set, the positional arguments stay as they
    are. *)
Lemma keywords_freeze_positionals fuel expr n :
  forall h args kw_args w a w',
    application_args fuel expr n h args kw_args true w = Ret (Res_ast a, w') ->
    exists kw_args', a = App h None args kw_args'.
Proof.
  induction n as [| n IH]; intros h args kw_args w a w' H;
    [discriminate H |].
  cbn [application_args orb andb negb] in H.
  inv_run; try discriminate.
  match goal with
  | H : application_end _ _ _ _ _ _ = Ret _ |- _ =>
      apply application_end_node in H; destruct H as [-> | [w1 H]]
  end.
  - eexists. reflexivity.
  - eapply IH. eassumption.
Qed.

End Arguments.

(** C5: in an argument list the positional arguments come first: while
    the keyword flag is clear an argument without colon is appended to the
    positional list; once the flag is set the positional list no longer
    changes, and an argument that is not followed by a colon fails with
    the message of the rule.  So [f(a, k: v)] is an application with the
    one positional argument [a] and the one keyword argument [k] bound to
    [v], and [f(k: v, a)] fails with [application: expected keyword]. *)
Theorem keyword_arguments_come_last :
  (forall fuel expr n h args kw_args w a w',
      Parser.application_args fuel expr n h args kw_args true w
      = Ret (Parser.Res_ast a, w') ->
      exists kw_args', a = App h None args kw_args')
  /\ (forall fuel expr n h args kw_args w arg w1 w2,
         expr w = Ret (Parser.Res_ast arg, w1) ->
         is_type AST_EMPTY arg = false ->
         Parser.accept fuel Lexer.TOKEN_COLON w1 = Ret (false, w2) ->
         Parser.application_args fuel expr (S n) h args kw_args true w
         = (Parser.free (App h None args kw_args) ;;
            Parser.free arg ;;
            Parser.with_expected "application" "keyword") w2)
  /\ (forall fuel expr n h args kw_args w arg w1 w2,
         expr w = Ret (Parser.Res_ast arg, w1) ->
         is_type AST_EMPTY arg = false ->
         Parser.accept fuel Lexer.TOKEN_COLON w1 = Ret (false, w2) ->
         Parser.application_args fuel expr (S n) h args kw_args false w
         = Parser.application_end fuel
             (Parser.application_args fuel expr n h (args ++ [arg]) kw_args
                                      false)
             h (args ++ [arg]) kw_args w2)
  /\ check "f(a, k: v)"
     = Ret (true,
            "(seq (app (id f) args:((id a)) kw-args:(((id k) (id v)))))"%string)
  /\ parses_to "f(a, k: v)"
       (fun root =>
          match root with
          | Seq _ [App _ (Some (Id _ f)) [Id _ a] [KwArg _ (Id _ k) (Id _ v)]]
            => String.eqb (text_of f) "f" && String.eqb (text_of a) "a"
               && String.eqb (text_of k) "k" && String.eqb (text_of v) "v"
          | _ => false
          end) = true
  /\ check "f(k: v, a)" = Ret (false, "application: expected keyword"%string).
Proof.
  conjuncts; compute_closed.
  - intros fuel expr n. apply Arguments.keywords_freeze_positionals.
  - intros fuel expr n h args kw_args w arg w1 w2 E T C.
    cbn [Parser.application_args]. rewrite (bind_eq _ _ _ E).
    cbn [Parser.failed Parser.status Parser.node_of].
    unfold bind at 1, ret at 1. rewrite T.
    rewrite (bind_eq _ _ _ C). reflexivity.
  - intros fuel expr n h args kw_args w arg w1 w2 E T C.
    cbn [Parser.application_args]. rewrite (bind_eq _ _ _ E).
    cbn [Parser.failed Parser.status Parser.node_of].
    unfold bind at 1, ret at 1. rewrite T.
    rewrite (bind_eq _ _ _ C). reflexivity.
Qed.

Lemma keyword_arguments_come_last_witness :
  let e := Parser.expression 30 30 in
  let h := mk_header 0 AST_APPLICATION AST_NONE in
  exists a w',
    Parser.application_args 30 e 30 h [] [] true (start "k: v)")
    = Ret (Parser.Res_ast a, w')
    /\ exists kw_args', a = App h None [] kw_args'.
Proof.
  intros e h.
  destruct (Parser.application_args 30 e 30 h [] [] true (start "k: v)"))
    as [[res w'] | |] eqn:E; try (vm_compute in E; discriminate E).
  pose proof E as C. vm_compute in C.
  destruct res as [a | |]; try discriminate C.
  exists a, w'. split; [reflexivity |].
  exact (proj1 keyword_arguments_come_last 30 e 30 h [] [] _ a w' E).
Defined.

(** ** Operators without a left operand *)

Module Operators.
Import Lexer Parser.

(** At a token of [infix_only], [unary] consumes nothing and returns a
    fresh empty node (or the lack of memory). *)
Lemma unary_at_infix fuel expr w t w1 :
  peek fuel w = Ret (t, w1) ->
  In t infix_only ->
  unary fuel expr w = (e <- inH ast_empty ;; ret (with_ast e)) w1.
Proof.
  intros Pk Hin.
  pose proof (@Tokens.peek_again fuel w t w1 Pk) as Pk1.
  unfold infix_only in Hin. simpl in Hin.
  repeat (destruct Hin as [<- | Hin];
          [ unfold unary, accept_any, postfix, primary, literal, bind;
            rewrite Pk; cbn [find fst token_type_beq ret];
            rewrite Pk1; rewrite Pk1;
            unfold inH, ast_empty, ast_new, mem_alloc, bind, ret;
            destruct (alloc_plan (the_heap w1)) as [| [] plan]; reflexivity
          | ]).
  contradiction.
Qed.

End Operators.




(** ** Runs of bytes under the loops of the tokenizer *)

Module Runs.
Import Lexer.

Lemma decides_test f : f NUL = false -> decides (test f) f.
Proof.
  intros Hnul pre rest lx mx. rewrite Scan.test_scanning.
  destruct rest; simpl; [rewrite Hnul |]; reflexivity.
Qed.

Lemma decides_not_end f : decides (andL (notL is_end) (test f)) f.
Proof.
  intros pre rest lx mx. unfold andL, notL.
  rewrite (bind_eq _ _ _ (bind_eq _ _ _ (Scan.is_end_scanning _ _ _ _))).
  destruct rest as [| c r]; [reflexivity |].
  cbn [ret negb]. apply Scan.test_scanning.
Qed.

Lemma decides_not_quote :
  decides (andL (notL is_end) (notL is_quote)) not_quote.
Proof.
  intros pre rest lx mx. unfold andL, notL at 1.
  rewrite (bind_eq _ _ _ (bind_eq _ _ _ (Scan.is_end_scanning _ _ _ _))).
  destruct rest as [| c r]; [reflexivity |].
  cbn [ret negb]. unfold notL, is_quote.
  rewrite (bind_eq _ _ _ (Scan.test_scanning _ _ _ _ _)). reflexivity.
Qed.

Lemma decides_word :
  decides (orL is_symbol is_digit)
          (fun c => isalpha c || Ascii.eqb c "_" || isdigit c).
Proof.
  intros pre rest lx mx. unfold orL, is_symbol, is_digit.
  rewrite (bind_eq _ _ _ (Scan.test_scanning _ _ _ _ _)).
  destruct rest as [| c r]; simpl.
  - rewrite Scan.test_scanning. reflexivity.
  - destruct (isalpha c || Ascii.eqb c "_"); [reflexivity |].
    rewrite Scan.test_scanning. reflexivity.
Qed.

(** A loop that appends while [cond] holds stores exactly the bytes [ds]
    when the text after them does not satisfy [cond]. *)
Lemma while_appends cond f ds :
  decides cond f ->
  forall pre rest lx mx fuel,
    forallb f ds = true -> starts_with f rest = false ->
    length ds < fuel ->
    exists mx', while fuel cond append (scanning pre (ds ++ rest) lx mx)
                = Ret (tt, scanning (pre ++ ds) rest (lx ++ ds) mx').
Proof.
  intros Hc.
  induction ds as [| d ds IH]; intros pre rest lx mx fuel Hds Hrest Hfuel.
  - destruct fuel as [| n]; [lia |]. exists mx. cbn [while app].
    rewrite (bind_eq _ _ _ (Hc _ _ _ _)), Hrest, !app_nil_r. reflexivity.
  - destruct fuel as [| n]; [simpl in Hfuel; lia |].
    simpl in Hds. apply andb_prop in Hds. destruct Hds as [Hd Hds].
    destruct (Scan.append_scanning pre d (ds ++ rest) lx mx) as [mx1 A].
    destruct (IH (pre ++ [d]) rest (lx ++ [d]) mx1 n Hds Hrest)
      as [mx' W]; [simpl in Hfuel; lia |].
    exists mx'. cbn [while app].
    rewrite (bind_eq _ _ _ (Hc _ _ _ _)). cbn [starts_with]. rewrite Hd.
    rewrite (bind_eq _ _ _ A), W, <- !app_assoc. reflexivity.
Qed.

(** A loop that advances while [cond] holds passes exactly the bytes
    [ds]. *)
Lemma while_advances cond f ds :
  decides cond f ->
  forall pre rest lx mx fuel,
    forallb f ds = true -> starts_with f rest = false ->
    length ds < fuel ->
    while fuel cond advance (scanning pre (ds ++ rest) lx mx)
    = Ret (tt, scanning (pre ++ ds) rest lx mx).
Proof.
  intros Hc.
  induction ds as [| d ds IH]; intros pre rest lx mx fuel Hds Hrest Hfuel.
  - destruct fuel as [| n]; [lia |]. cbn [while app].
    rewrite (bind_eq _ _ _ (Hc _ _ _ _)), Hrest, !app_nil_r. reflexivity.
  - destruct fuel as [| n]; [simpl in Hfuel; lia |].
    simpl in Hds. apply andb_prop in Hds. destruct Hds as [Hd Hds].
    cbn [while app].
    rewrite (bind_eq _ _ _ (Hc _ _ _ _)). cbn [starts_with]. rewrite Hd.
    rewrite (bind_eq _ _ _ (Scan.advance_scanning _ _ _ _ _)).
    rewrite IH by (simpl in Hfuel; try assumption; lia).
    rewrite <- !app_assoc. reflexivity.
Qed.

(** The longest prefix of bytes satisfying [f]. *)
Lemma longest_prefix (f : ascii -> bool) (s : list ascii) :
  exists ds rest,
    s = ds ++ rest /\ forallb f ds = true /\ starts_with f rest = false.
Proof.
  induction s as [| c s (ds & rest & E & Hds & Hrest)].
  - exists [], []. repeat split.
  - destruct (f c) eqn:Hc.
    + exists (c :: ds), rest. subst s. simpl. rewrite Hc. repeat split; assumption.
    + exists [], (c :: s). simpl. repeat split. exact Hc.
Qed.

Lemma match_scanning c r pre lx mx :
  match_ c (scanning pre (c :: r) lx mx)
  = Ret (true, scanning (pre ++ [c]) r lx mx).
Proof.
  unfold match_. rewrite (bind_eq _ _ _ (Scan.peek_scanning _ _ _ _)).
  cbn [hd]. rewrite Ascii.eqb_refl.
  rewrite (bind_eq _ _ _ (Scan.advance_scanning _ _ _ _ _)). reflexivity.
Qed.

Lemma match_scanning_other c rest pre lx mx :
  Ascii.eqb (hd NUL rest) c = false ->
  match_ c (scanning pre rest lx mx) = Ret (false, scanning pre rest lx mx).
Proof.
  intros H. unfold match_.
  rewrite (bind_eq _ _ _ (Scan.peek_scanning _ _ _ _)), H. reflexivity.
Qed.

(** [skip_blanks] is left at once before a byte that begins a token. *)
Lemma skip_blanks_token c r pre lx mx n :
  not_blank c = true ->
  skip_blanks (S (S n)) (scanning pre (c :: r) lx mx)
  = Ret (None, scanning pre (c :: r) lx mx).
Proof.
  unfold not_blank. intros H.
  apply andb_prop in H. destruct H as [H Hc].
  apply andb_prop in H. destruct H as [Hs Hb].
  apply negb_true_iff in Hs, Hb.
  cbn [skip_blanks].
  rewrite (bind_eq _ _ _
             (@while_advances _ _ [] (decides_not_end isspace)
                              pre (c :: r) lx mx (S n) eq_refl Hs
                              (Nat.lt_0_succ n))).
  rewrite app_nil_r.
  rewrite (bind_eq _ _ _ (Scan.is_end_scanning _ _ _ _)).
  rewrite (bind_eq _ _ _
             (@match_scanning_other "\"%char (c :: r) pre lx mx Hb)).
  rewrite (bind_eq _ _ _ (Scan.peek_scanning _ _ _ _)).
  cbn [hd]. rewrite Hc. reflexivity.
Qed.

(** [do_lex] before a byte that begins a token: the choice between
    [symbol] and the [switch]. *)
Lemma do_lex_token c r pre lx mx n :
  not_blank c = true ->
  do_lex (S (S n)) (scanning pre (c :: r) lx mx)
  = (if isalpha c || Ascii.eqb c "_" then symbol (S (S n))
     else punctuator (S (S n)) c) (scanning pre (c :: r) [] mx).
Proof.
  intros H. unfold do_lex, modify. unfold bind at 1.
  change (set_lexeme [] (scanning pre (c :: r) lx mx))
    with (scanning pre (c :: r) [] mx).
  rewrite (bind_eq _ _ _ (skip_blanks_token _ _ _ _ _ _ H)).
  unfold is_symbol.
  rewrite (bind_eq _ _ _ (Scan.test_scanning _ _ _ _ _)). cbn [hd].
  destruct (isalpha c || Ascii.eqb c "_"); [reflexivity |].
  rewrite (bind_eq _ _ _ (Scan.peek_scanning _ _ _ _)). reflexivity.
Qed.

End Runs.

(** ** String literals *)

Module Strings.
Import Lexer.

Lemma punctuator_quote fuel : punctuator fuel "'" = string_ fuel.
Proof. reflexivity. Qed.

Lemma not_quote_head body :
  forallb not_quote body = true -> Ascii.eqb (hd NUL body) "'" = false.
Proof.
  destruct body as [| b bs]; [reflexivity |]. simpl.
  intros H. apply andb_prop in H. destruct H as [H _].
  unfold not_quote, quote in H. apply negb_true_iff in H. exact H.
Qed.

Lemma not_quote_start rest :
  starts_with quote rest = false -> Ascii.eqb (hd NUL rest) "'" = false.
Proof. destruct rest; [reflexivity | exact (fun H => H)]. Qed.

(** [string] on a literal that is closed. *)
Lemma string_closed pre body rest lx mx fuel :
  forallb not_quote body = true ->
  (body = [] -> starts_with quote rest = false) ->
  length body < fuel ->
  exists mx',
    string_ fuel (scanning pre ("'"%char :: body ++ "'"%char :: rest) lx mx)
    = Ret (mk_lex_result true TOKEN_STRING,
           scanning (pre ++ "'"%char :: body ++ ["'"%char]) rest
                    (lx ++ body) mx').
Proof.
  intros Hbody Hrest Hfuel. unfold string_.
  rewrite (bind_eq _ _ _ (Runs.match_scanning _ _ _ _ _)).
  destruct body as [| b bs].
  - cbn [app].
    rewrite (bind_eq _ _ _ (Runs.match_scanning _ _ _ _ _)).
    rewrite (bind_eq _ _ _
               (@Runs.match_scanning_other "'"%char rest _ lx mx
                  (not_quote_start _ (Hrest eq_refl)))).
    destruct (Scan.finish_scanning TOKEN_STRING ((pre ++ ["'"%char]) ++ ["'"%char])
                                   rest lx mx) as [mx' F].
    exists mx'. rewrite F, app_nil_r, <- app_assoc. reflexivity.
  - rewrite (bind_eq _ _ _
               (@Runs.match_scanning_other "'"%char
                  ((b :: bs) ++ "'"%char :: rest) _ lx mx
                  (not_quote_head _ Hbody))).
    destruct (@Runs.while_appends _ _ (b :: bs) Runs.decides_not_quote
                (pre ++ ["'"%char]) ("'"%char :: rest) lx mx fuel
                Hbody eq_refl Hfuel) as [mx1 W].
    rewrite (bind_eq _ _ _ W).
    rewrite (bind_eq _ _ _ (Runs.match_scanning _ _ _ _ _)).
    destruct (Scan.finish_scanning TOKEN_STRING
                (((pre ++ ["'"%char]) ++ b :: bs) ++ ["'"%char])
                rest (lx ++ b :: bs) mx1) as [mx' F].
    exists mx'. rewrite F. rewrite <- !app_assoc. reflexivity.
Qed.

(** [string] on a literal that the input ends in. *)
Lemma string_open pre body lx mx fuel :
  forallb not_quote body = true ->
  length body < fuel ->
  exists mx',
    string_ fuel (scanning pre ("'"%char :: body) lx mx)
    = Ret (fail, scanning (pre ++ "'"%char :: body) [] (lx ++ body) mx').
Proof.
  intros Hbody Hfuel. unfold string_.
  rewrite (bind_eq _ _ _ (Runs.match_scanning _ _ _ _ _)).
  rewrite (bind_eq _ _ _
             (@Runs.match_scanning_other "'"%char body _ lx mx
                (not_quote_head _ Hbody))).
  destruct (@Runs.while_appends _ _ body Runs.decides_not_quote
              (pre ++ ["'"%char]) [] lx mx fuel Hbody eq_refl Hfuel)
    as [mx1 W].
  rewrite app_nil_r in W. rewrite (bind_eq _ _ _ W).
  rewrite (bind_eq _ _ _
             (@Runs.match_scanning_other "'"%char [] _ _ mx1 eq_refl)).
  exists mx1. rewrite <- !app_assoc. reflexivity.
Qed.

(** The loop over at most three quotes. *)
Lemma quote_run_scanning qs :
  forall i pre rest lx mx fuel,
    forallb quote qs = true ->
    i + length qs <= 3 ->
    (i + length qs < 3 -> starts_with quote rest = false) ->
    length qs < fuel ->
    exists mx',
      quote_run fuel i (scanning pre (qs ++ rest) lx mx)
      = Ret (i + length qs, scanning (pre ++ qs) rest (lx ++ qs) mx').
Proof.
  induction qs as [| q qs IH]; intros i pre rest lx mx fuel Hq Hi Hrest Hfuel;
    (destruct fuel as [| n]; [simpl in Hfuel; lia |]).
  - exists mx. cbn [quote_run app length]. rewrite Nat.add_0_r, !app_nil_r.
    destruct (i <? 3) eqn:E; [| reflexivity].
    apply Nat.ltb_lt in E. unfold is_quote.
    rewrite (bind_eq _ _ _ (Scan.test_scanning _ _ _ _ _)).
    cbn [length] in Hrest. rewrite Nat.add_0_r in Hrest.
    rewrite (not_quote_start _ (Hrest E)). reflexivity.
  - simpl in Hq. apply andb_prop in Hq. destruct Hq as [Hq Hqs].
    cbn [length] in Hi, Hrest, Hfuel.
    destruct (Scan.append_scanning pre q (qs ++ rest) lx mx) as [mx1 A].
    destruct (IH (S i) (pre ++ [q]) rest (lx ++ [q]) mx1 n Hqs)
      as [mx' R]; [lia | intros; apply Hrest; lia | lia |].
    exists mx'. cbn [quote_run app length].
    replace (i <? 3) with true by (symmetry; apply Nat.ltb_lt; lia).
    unfold is_quote.
    rewrite (bind_eq _ _ _ (Scan.test_scanning _ _ _ _ _)). cbn [hd].
    change (Ascii.eqb q "'") with (quote q). rewrite Hq.
    rewrite (bind_eq _ _ _ A), R, <- !app_assoc.
    replace (S i + length qs) with (i + S (length qs)) by lia.
    reflexivity.
Qed.

Lemma closes_after_plain ds s :
  forallb not_quote ds = true ->
  closes_after 0 (ds ++ s) = closes_after 0 s.
Proof.
  induction ds as [| d ds IH]; [reflexivity |]. simpl. intros H.
  apply andb_prop in H. destruct H as [Hd Hds].
  unfold not_quote in Hd. apply negb_true_iff in Hd. rewrite Hd.
  exact (IH Hds).
Qed.

Lemma drop3 (lx : list ascii) :
  firstn (length (lx ++ quotes3) - 3) (lx ++ quotes3) = lx.
Proof.
  rewrite length_app. cbn [length quotes3].
  replace (length lx + 3 - 3) with (length lx + 0) by lia.
  rewrite firstn_app_2. cbn [firstn]. apply app_nil_r.
Qed.

(** [multiline_string] runs to the first three quotes in a row. *)
Lemma multiline_closed fuel :
  forall body pre rest lx mx,
    closes_after 0 body = true ->
    length body + 4 < fuel ->
    exists mx',
      multiline_string fuel (scanning pre (body ++ quotes3 ++ rest) lx mx)
      = Ret (mk_lex_result true TOKEN_MULTILINE_STRING,
             scanning (pre ++ body ++ quotes3) rest (lx ++ body) mx').
Proof.
  induction fuel as [| n IH]; intros body pre rest lx mx Hbody Hfuel; [lia |].
  destruct (Runs.longest_prefix not_quote body)
    as (ds & tail & -> & Hds & Htail).
  rewrite (@closes_after_plain ds tail Hds) in Hbody.
  rewrite length_app in Hfuel.
  cbn [multiline_string].
  rewrite (bind_eq _ _ _ (Scan.is_end_scanning _ _ _ _)).
  replace (match (ds ++ tail) ++ quotes3 ++ rest with
           | [] => true
           | _ :: _ => false
           end) with false
    by (destruct ds, tail; reflexivity).
  rewrite <- app_assoc.
  destruct (@Runs.while_appends _ _ ds Runs.decides_not_quote
              pre (tail ++ quotes3 ++ rest) lx mx n Hds) as [mx1 W];
    [destruct tail; [reflexivity | exact Htail] | lia |].
  rewrite (bind_eq _ _ _ W). clear W.
  destruct tail as [| q1 t1].
  - (* the closing quotes *)
    cbn [app].
    destruct (@quote_run_scanning quotes3 0 (pre ++ ds) rest (lx ++ ds) mx1 n
                eq_refl) as [mx2 R];
      [simpl; lia | simpl; lia | simpl; lia |].
    rewrite (bind_eq _ _ _ R). cbn [Nat.add length quotes3 Nat.eqb].
    unfold drop_lexeme, modify. unfold bind at 1.
    change (lexeme (scanning ((pre ++ ds) ++ quotes3) rest
                             ((lx ++ ds) ++ quotes3) mx2))
      with ((lx ++ ds) ++ quotes3).
    rewrite drop3.
    destruct (Scan.finish_scanning TOKEN_MULTILINE_STRING
                ((pre ++ ds) ++ quotes3) rest (lx ++ ds) mx2) as [mx' F].
    exists mx'.
    change (set_lexeme (lx ++ ds)
              (scanning ((pre ++ ds) ++ quotes3) rest
                        ((lx ++ ds) ++ quotes3) mx2))
      with (scanning ((pre ++ ds) ++ quotes3) rest (lx ++ ds) mx2).
    rewrite F, !app_nil_r, <- !app_assoc. reflexivity.
  - (* one or two quotes inside the text *)
    cbn [starts_with] in Htail. unfold not_quote in Htail.
    apply negb_false_iff in Htail.
    cbn [closes_after] in Hbody. rewrite Htail in Hbody.
    cbn [Nat.ltb Nat.leb andb] in Hbody.
    destruct t1 as [| c t2]; [discriminate |].
    cbn [closes_after] in Hbody.
    destruct (quote c) eqn:Hc.
    + (* two quotes, then a byte that is none *)
      cbn [Nat.ltb Nat.leb andb] in Hbody.
      destruct t2 as [| c' t3]; [discriminate |].
      cbn [closes_after] in Hbody.
      destruct (quote c') eqn:Hc'; [discriminate |].
      cbn [length] in Hfuel.
      destruct (@quote_run_scanning [q1; c] 0 (pre ++ ds)
                  (c' :: t3 ++ quotes3 ++ rest) (lx ++ ds) mx1 n)
        as [mx2 R];
        [simpl; rewrite Htail, Hc; reflexivity | simpl; lia
        | intros _; exact Hc' | simpl; lia |].
      cbn [app] in R |- *. rewrite (bind_eq _ _ _ R).
      cbn [Nat.add length Nat.eqb].
      destruct (Scan.append_scanning ((pre ++ ds) ++ [q1; c]) c'
                  (t3 ++ quotes3 ++ rest) ((lx ++ ds) ++ [q1; c]) mx2)
        as [mx3 A].
      rewrite (bind_eq _ _ _ A).
      destruct (IH t3 (((pre ++ ds) ++ [q1; c]) ++ [c']) rest
                  (((lx ++ ds) ++ [q1; c]) ++ [c']) mx3 Hbody)
        as [mx' M]; [lia |].
      exists mx'. rewrite M, <- !app_assoc. reflexivity.
    + (* one quote, then a byte that is none *)
      cbn [length] in Hfuel.
      destruct (@quote_run_scanning [q1] 0 (pre ++ ds)
                  (c :: t2 ++ quotes3 ++ rest) (lx ++ ds) mx1 n)
        as [mx2 R];
        [simpl; rewrite Htail; reflexivity | simpl; lia
        | intros _; exact Hc | simpl; lia |].
      cbn [app] in R |- *. rewrite (bind_eq _ _ _ R).
      cbn [Nat.add length Nat.eqb].
      destruct (Scan.append_scanning ((pre ++ ds) ++ [q1]) c
                  (t2 ++ quotes3 ++ rest) ((lx ++ ds) ++ [q1]) mx2)
        as [mx3 A].
      rewrite (bind_eq _ _ _ A).
      destruct (IH t2 (((pre ++ ds) ++ [q1]) ++ [c]) rest
                  (((lx ++ ds) ++ [q1]) ++ [c]) mx3 Hbody)
        as [mx' M]; [lia |].
      exists mx'. rewrite M, <- !app_assoc. reflexivity.
Qed.

Lemma do_lex_quote r pre lx mx n :
  do_lex (S (S n)) (scanning pre ("'"%char :: r) lx mx)
  = string_ (S (S n)) (scanning pre ("'"%char :: r) [] mx).
Proof. rewrite Runs.do_lex_token by reflexivity. reflexivity. Qed.

End Strings.

(** A string in single quotes is one token whose lexeme is the text
    between the quotes, whatever bytes other than the quote it holds (a
    backslash does not escape, a newline does not end it) and whatever
    follows the closing quote; only an empty string must not be followed
    by a third quote.  If the input ends before the closing quote the
    token is [TOKEN_ERROR] and the cursor is at the end of the input. *)
Theorem single_quoted_string :
  (forall pre body rest lx mx n,
      forallb not_quote body = true ->
      (body = [] -> starts_with quote rest = false) ->
      length body <= n ->
      exists mx',
        Lexer.lex (S (S n))
                  (scanning pre ("'"%char :: body ++ "'"%char :: rest) lx mx)
        = Ret (Lexer.TOKEN_STRING,
               scanning (pre ++ "'"%char :: body ++ ["'"%char]) rest body
                        mx'))
  /\ (forall pre body lx mx n,
         forallb not_quote body = true ->
         length body <= n ->
         exists mx',
           Lexer.lex (S (S n)) (scanning pre ("'"%char :: body) lx mx)
           = Ret (Lexer.TOKEN_ERROR,
                  scanning (pre ++ "'"%char :: body) [] body mx')).
Proof.
  split.
  - intros pre body rest lx mx n Hbody Hrest Hn.
    destruct (@Strings.string_closed pre body rest [] mx (S (S n))
                Hbody Hrest) as [mx' E]; [lia |].
    exists mx'. apply lex_of_do_lex with (res := Lexer.mk_lex_result true _).
    rewrite Strings.do_lex_quote. exact E.
  - intros pre body lx mx n Hbody Hn.
    destruct (@Strings.string_open pre body [] mx (S (S n)) Hbody)
      as [mx' E]; [lia |].
    exists mx'. apply lex_of_do_lex with (res := Lexer.fail).
    rewrite Strings.do_lex_quote. exact E.
Qed.

Lemma single_quoted_string_witness :
  (forallb not_quote (chars "it\") = true
   /\ (chars "it\" = [] -> starts_with quote (chars "s'") = false)
   /\ length (chars "it\") <= 3)
  /\ exists mx',
       Lexer.lex 5 (scanning (chars "x = ")
                             ("'"%char :: chars "it\" ++ "'"%char :: chars "s'")
                             [] 128)
       = Ret (Lexer.TOKEN_STRING,
              scanning (chars "x = " ++ "'"%char :: chars "it\" ++ ["'"%char])
                       (chars "s'") (chars "it\") mx').
Proof.
  assert (E : chars "it\" = [] -> starts_with quote (chars "s'") = false)
    by (intros _; reflexivity).
  split; [split; [reflexivity | split; [exact E | simpl; lia]] |].
  exact (proj1 single_quoted_string (chars "x = ") (chars "it\") (chars "s'")
               [] 128 3 eq_refl E (le_n 3)).
Defined.

(** A string in triple quotes runs to the first three quotes in a row:
    when its text never shows three quotes in a row and does not end with
    a quote, the token is [TOKEN_MULTILINE_STRING] with that text, single
    and double quotes included, as lexeme, whatever follows. *)
Theorem triple_quoted_string :
  forall pre body rest lx mx n,
    closes_after 0 body = true ->
    length body + 3 <= n ->
    exists mx',
      Lexer.lex (S (S n))
                (scanning pre (quotes3 ++ body ++ quotes3 ++ rest) lx mx)
      = Ret (Lexer.TOKEN_MULTILINE_STRING,
             scanning (pre ++ quotes3 ++ body ++ quotes3) rest body mx').
Proof.
  intros pre body rest lx mx n Hbody Hn.
  destruct (@Strings.multiline_closed (S (S n)) body (pre ++ quotes3) rest
              [] mx Hbody) as [mx' E]; [lia |].
  exists mx'. apply lex_of_do_lex with (res := Lexer.mk_lex_result true _).
  cbn [quotes3 app].
  rewrite Strings.do_lex_quote. unfold Lexer.string_.
  rewrite (bind_eq _ _ _ (Runs.match_scanning _ _ _ _ _)).
  rewrite (bind_eq _ _ _ (Runs.match_scanning _ _ _ _ _)).
  rewrite (bind_eq _ _ _ (Runs.match_scanning _ _ _ _ _)).
  replace (((pre ++ ["'"%char]) ++ ["'"%char]) ++ ["'"%char])
    with (pre ++ quotes3) by (rewrite <- !app_assoc; reflexivity).
  refine (eq_trans E _). rewrite <- app_assoc. reflexivity.
Qed.

Lemma triple_quoted_string_witness :
  (closes_after 0 (chars "it's ''so'' ok") = true
   /\ length (chars "it's ''so'' ok") + 3 <= 20)
  /\ exists mx',
       Lexer.lex 22 (scanning (chars "x = ")
                              (quotes3 ++ chars "it's ''so'' ok" ++ quotes3 ++ chars "'")
                              [] 128)
       = Ret (Lexer.TOKEN_MULTILINE_STRING,
              scanning (chars "x = " ++ quotes3 ++ chars "it's ''so'' ok" ++ quotes3)
                       (chars "'") (chars "it's ''so'' ok") mx').
Proof.
  split; [split; [reflexivity | simpl; lia] |].
  apply (@triple_quoted_string (chars "x = ") (chars "it's ''so'' ok") (chars "'") [] 128 20); [reflexivity | simpl; lia].
Defined.

(** ** White space, backslashes and comments *)

Module Blanks.
Import Lexer.

Lemma after_spaces sp s :
  forallb isspace sp = true ->
  after_blanks false (sp ++ s) = after_blanks false s.
Proof.
  induction sp as [| c sp IH]; [reflexivity |]. simpl. intros H.
  apply andb_prop in H. destruct H as [Hc Hsp]. rewrite Hc. exact (IH Hsp).
Qed.

Lemma after_hash r : after_blanks false ("#"%char :: r) = after_blanks true r.
Proof. reflexivity. Qed.

Lemma after_backslash r :
  after_blanks false ("\"%char :: r) = after_blanks false r.
Proof. reflexivity. Qed.

Lemma after_comment cm s :
  forallb not_newline cm = true ->
  starts_with not_newline s = false ->
  after_blanks true (cm ++ s) = after_blanks false s.
Proof.
  intros Hcm Hs. induction cm as [| c cm IH].
  - destruct s as [| c s]; [reflexivity |]. simpl in *.
    rewrite Hs. unfold not_newline in Hs. apply negb_false_iff in Hs.
    apply Ascii.eqb_eq in Hs. subst c. reflexivity.
  - simpl in *. apply andb_prop in Hcm. destruct Hcm as [Hc Hcm].
    rewrite Hc. exact (IH Hcm).
Qed.

(** Where [after_blanks] stops, a token begins or the text ends. *)
Lemma after_blanks_stops s :
  forall b,
    after_blanks b s = []
    \/ exists c r, after_blanks b s = c :: r /\ not_blank c = true.
Proof.
  induction s as [| c s IH]; intros b; [left; reflexivity |].
  simpl. destruct b; [apply IH |].
  destruct (isspace c) eqn:Hs; [apply IH |].
  destruct (Ascii.eqb c "\") eqn:Hb; [apply IH |].
  destruct (Ascii.eqb c "#") eqn:Hc; [apply IH |].
  right. exists c, s. split; [reflexivity |].
  unfold not_blank. rewrite Hs, Hb, Hc. reflexivity.
Qed.

Lemma skip_blanks_step n :
  skip_blanks (S n)
  = (while n (andL (notL is_end) is_space) advance ;;
     e <- is_end ;;
     if e : bool then r <- finish TOKEN_END ;; ret (Some r)
     else
       m <- match_ "\" ;;
       if m : bool then skip_blanks n
       else
         c <- peek ;;
         if negb (Ascii.eqb c "#") then ret None
         else
           while n (andL (notL is_end)
                         (test (fun d => negb (Ascii.eqb d newline))))
                 advance ;;
           skip_blanks n).
Proof. reflexivity. Qed.

(** [skip_blanks] at the end of the input. *)
Lemma skip_blanks_end pre lx mx n :
  skip_blanks (S (S n)) (scanning pre [] lx mx)
  = (r <- finish TOKEN_END ;; ret (Some r)) (scanning pre [] lx mx).
Proof.
  cbn [skip_blanks].
  rewrite (bind_eq _ _ _
             (@Runs.while_advances _ _ [] (Runs.decides_not_end isspace)
                pre [] lx mx (S n) eq_refl eq_refl (Nat.lt_0_succ n))).
  rewrite app_nil_r.
  rewrite (bind_eq _ _ _ (Scan.is_end_scanning _ _ _ _)). reflexivity.
Qed.

(** Where a token begins or the text ends, [skip_blanks] does the same
    with every step budget. *)
Lemma skip_blanks_stable s pre lx mx n :
  s = [] \/ (exists c r, s = c :: r /\ not_blank c = true) ->
  skip_blanks (S (S n)) (scanning pre s lx mx)
  = skip_blanks 2 (scanning pre s lx mx).
Proof.
  intros [-> | (c & r & -> & H)].
  - rewrite !skip_blanks_end. reflexivity.
  - rewrite !Runs.skip_blanks_token by exact H. reflexivity.
Qed.

(** [skip_blanks] passes the blanks [ws] at the start of [s]. *)
Lemma skip_blanks_run n :
  forall s pre lx mx,
    length s <= n ->
    exists ws,
      s = ws ++ after_blanks false s
      /\ skip_blanks (S (S n)) (scanning pre s lx mx)
         = skip_blanks 2 (scanning (pre ++ ws) (after_blanks false s) lx mx).
Proof.
  induction n as [| n IH]; intros s pre lx mx Hn.
  - destruct s; [| simpl in Hn; lia].
    exists []. split; [reflexivity | rewrite app_nil_r; reflexivity].
  - destruct (Runs.longest_prefix isspace s) as (sp & s1 & -> & Hsp & Hs1).
    rewrite (@after_spaces sp s1 Hsp). rewrite length_app in Hn.
    rewrite skip_blanks_step.
    rewrite (bind_eq _ _ _
               (@Runs.while_advances _ _ sp (Runs.decides_not_end isspace)
                  pre s1 lx mx (S (S n)) Hsp Hs1 ltac:(lia))).
    rewrite (bind_eq _ _ _ (Scan.is_end_scanning _ _ _ _)).
    destruct s1 as [| c r1].
    { exists sp. cbn [after_blanks]. split; [reflexivity |].
      rewrite skip_blanks_end. reflexivity. }
    cbn [starts_with] in Hs1. cbn [length] in Hn.
    destruct (Ascii.eqb c "\") eqn:Hb.
    { apply Ascii.eqb_eq in Hb. subst c.
      rewrite (bind_eq _ _ _ (Runs.match_scanning _ _ _ _ _)).
      destruct (IH r1 ((pre ++ sp) ++ ["\"%char]) lx mx) as (ws & E & R);
        [lia |].
      exists (sp ++ "\"%char :: ws). rewrite after_backslash.
      split.
      - rewrite <- app_assoc. cbn [app]. rewrite <- E. reflexivity.
      - rewrite R. rewrite <- !app_assoc. reflexivity. }
    rewrite (bind_eq _ _ _
               (@Runs.match_scanning_other "\"%char (c :: r1) _ lx mx Hb)).
    rewrite (bind_eq _ _ _ (Scan.peek_scanning _ _ _ _)). cbn [hd].
    destruct (Ascii.eqb c "#") eqn:Hc; cbn [negb].
    2:{ exists sp. cbn [after_blanks]. rewrite Hs1, Hb, Hc. cbn [orb].
        split; [reflexivity |].
        symmetry. apply Runs.skip_blanks_token.
        unfold not_blank. rewrite Hs1, Hb, Hc. reflexivity. }
    apply Ascii.eqb_eq in Hc. subst c.
    destruct (Runs.longest_prefix not_newline r1)
      as (cm & s2 & -> & Hcm & Hs2).
    rewrite length_app in Hn.
    rewrite (bind_eq _ _ _
               (@Runs.while_advances _ _ ("#"%char :: cm)
                  (Runs.decides_not_end not_newline)
                  (pre ++ sp) s2 lx mx (S (S n))
                  ltac:(simpl; exact Hcm) Hs2 ltac:(simpl; lia))).
    destruct (IH s2 ((pre ++ sp) ++ "#"%char :: cm) lx mx) as (ws & E & R);
      [lia |].
    exists (sp ++ "#"%char :: cm ++ ws).
    rewrite after_hash, (@after_comment cm s2 Hcm Hs2).
    split.
    + rewrite <- (app_assoc sp). cbn [app]. rewrite <- (app_assoc cm), <- E.
      reflexivity.
    + rewrite R, <- !app_assoc. reflexivity.
Qed.

(** With nothing stored, [finish] asks for no growth. *)
Lemma finish_empty t pre rest mx :
  finish t (scanning pre rest [] mx)
  = Ret (mk_lex_result true t, scanning pre rest [] mx).
Proof. destruct mx; reflexivity. Qed.

(** [do_lex] depends on the tokenizer through [skip_blanks] only. *)
Lemma do_lex_after fuel pre s lx mx pre' s' lx' mx' :
  skip_blanks fuel (scanning pre s [] mx)
  = skip_blanks fuel (scanning pre' s' [] mx') ->
  do_lex fuel (scanning pre s lx mx) = do_lex fuel (scanning pre' s' lx' mx').
Proof.
  intros E. unfold do_lex, modify. unfold bind at 1 3.
  change (set_lexeme [] (scanning pre s lx mx)) with (scanning pre s [] mx).
  change (set_lexeme [] (scanning pre' s' lx' mx'))
    with (scanning pre' s' [] mx').
  unfold bind. rewrite E. reflexivity.
Qed.

Lemma lex_after fuel (l l' : lexer) :
  do_lex fuel l = do_lex fuel l' -> lex fuel l = lex fuel l'.
Proof. intros E. unfold lex, bind. rewrite E. reflexivity. Qed.

End Blanks.

(** White space, backslashes and comments before a token are passed
    without a trace: [lex] on a text gives what it gives once the cursor
    stands where [after_blanks] stops, so a comment runs to the end of its
    line, a backslash is passed wherever it stands, and a text of blanks
    only gives [TOKEN_END]. *)
Theorem blanks_are_skipped :
  forall s pre lx mx n,
    length s <= n ->
    exists ws,
      s = ws ++ after_blanks false s
      /\ Lexer.lex (S (S n)) (scanning pre s lx mx)
         = Lexer.lex (S (S n))
                     (scanning (pre ++ ws) (after_blanks false s) lx mx)
      /\ (after_blanks false s = [] ->
          Lexer.lex (S (S n)) (scanning pre s lx mx)
          = Ret (Lexer.TOKEN_END, scanning (pre ++ s) [] [] mx)).
Proof.
  intros s pre lx mx n Hn.
  destruct (@Blanks.skip_blanks_run n s pre [] mx Hn) as (ws & E & R).
  exists ws. split; [exact E |].
  assert (L : Lexer.lex (S (S n)) (scanning pre s lx mx)
              = Lexer.lex (S (S n))
                  (scanning (pre ++ ws) (after_blanks false s) lx mx)).
  { apply Blanks.lex_after, Blanks.do_lex_after. rewrite R.
    symmetry. apply Blanks.skip_blanks_stable, Blanks.after_blanks_stops. }
  split; [exact L |].
  intros Hend. rewrite L. rewrite Hend in E |- *.
  rewrite app_nil_r in E. subst ws.
  apply lex_of_do_lex with (res := Lexer.mk_lex_result true Lexer.TOKEN_END).
  unfold Lexer.do_lex, modify. unfold bind at 1.
  change (Lexer.set_lexeme [] (scanning (pre ++ s) [] lx mx))
    with (scanning (pre ++ s) [] [] mx).
  rewrite (bind_eq _ _ _
             (eq_trans (Blanks.skip_blanks_end _ _ _ _)
                (bind_eq _ _ _ (Blanks.finish_empty _ _ _ _)))).
  reflexivity.
Qed.

Lemma blanks_are_skipped_witness :
  let s := chars " \ # a" ++ Lexer.newline :: chars " x" in
  length s <= 10
  /\ exists ws,
       s = ws ++ after_blanks false s
       /\ Lexer.lex 12 (scanning [] s [] 128)
          = Lexer.lex 12 (scanning ([] ++ ws) (after_blanks false s) [] 128)
       /\ (after_blanks false s = [] ->
           Lexer.lex 12 (scanning [] s [] 128)
           = Ret (Lexer.TOKEN_END, scanning ([] ++ s) [] [] 128)).
Proof.
  intros s.
  assert (B : length s <= 10) by (subst s; simpl; lia).
  split; [exact B |].
  exact (@blanks_are_skipped s [] [] 128 10 B).
Defined.

(** ** Punctuation, the end of the input and stray bytes *)

Module Punctuation.
Import Lexer.

Lemma append_finish_scanning t c r pre lx mx :
  exists mx',
    append_finish t (scanning pre (c :: r) lx mx)
    = Ret (mk_lex_result true t, scanning (pre ++ [c]) r (lx ++ [c]) mx').
Proof.
  destruct (Scan.append_scanning pre c r lx mx) as [mx1 A].
  destruct (Scan.finish_scanning t (pre ++ [c]) r (lx ++ [c]) mx1)
    as [mx' F].
  exists mx'. unfold append_finish. rewrite (bind_eq _ _ _ A). exact F.
Qed.

Lemma maybe_eq_with teq t c r pre lx mx :
  exists mx',
    maybe_eq teq t (scanning pre (c :: "="%char :: r) lx mx)
    = Ret (mk_lex_result true teq,
           scanning (pre ++ [c; "="%char]) r (lx ++ [c; "="%char]) mx').
Proof.
  destruct (Scan.append_scanning pre c ("="%char :: r) lx mx) as [mx1 A].
  destruct (Scan.accept_scanning "="%char r (pre ++ [c]) (lx ++ [c]) mx1)
    as [mx2 B].
  destruct (Scan.finish_scanning teq ((pre ++ [c]) ++ ["="%char]) r
              ((lx ++ [c]) ++ ["="%char]) mx2) as [mx' F].
  exists mx'. unfold maybe_eq.
  rewrite (bind_eq _ _ _ A), (bind_eq _ _ _ B), F, <- !app_assoc.
  reflexivity.
Qed.

Lemma maybe_eq_without teq t c r pre lx mx :
  starts_with equals_sign r = false ->
  exists mx',
    maybe_eq teq t (scanning pre (c :: r) lx mx)
    = Ret (mk_lex_result true t, scanning (pre ++ [c]) r (lx ++ [c]) mx').
Proof.
  intros Hr.
  destruct (Scan.append_scanning pre c r lx mx) as [mx1 A].
  destruct (Scan.finish_scanning t (pre ++ [c]) r (lx ++ [c]) mx1)
    as [mx' F].
  exists mx'. unfold maybe_eq.
  rewrite (bind_eq _ _ _ A).
  rewrite (bind_eq _ _ _
             (@Scan.accept_scanning_other "="%char r (pre ++ [c])
                (lx ++ [c]) mx1
                ltac:(destruct r; [reflexivity | exact Hr]))).
  exact F.
Qed.

Lemma single_byte_case c t :
  In (c, t) single_byte_tokens ->
  forall r pre lx mx n,
    do_lex (S (S n)) (scanning pre (c :: r) lx mx)
    = append_finish t (scanning pre (c :: r) [] mx).
Proof.
  intros H r pre lx mx n. simpl in H.
  repeat (destruct H as [H | H];
          [inversion H; subst c t;
           rewrite Runs.do_lex_token by reflexivity; reflexivity |]).
  contradiction.
Qed.

Lemma operator_case c teq t :
  In (c, teq, t) operator_tokens ->
  forall r pre lx mx n,
    do_lex (S (S n)) (scanning pre (c :: r) lx mx)
    = maybe_eq teq t (scanning pre (c :: r) [] mx).
Proof.
  intros H r pre lx mx n. simpl in H.
  repeat (destruct H as [H | H];
          [inversion H; subst c teq t;
           rewrite Runs.do_lex_token by reflexivity; reflexivity |]).
  contradiction.
Qed.

(** The tests of the tokenizer on a byte that is known. *)
Lemma peek_at l c :
  nth_error (input l ++ [NUL]) (input_pos l) = Some c -> peek l = Ret (c, l).
Proof. unfold peek. intros ->. reflexivity. Qed.

Lemma test_at f l c : peek l = Ret (c, l) -> test f l = Ret (f c, l).
Proof. intros H. unfold test. rewrite (bind_eq _ _ _ H). reflexivity. Qed.

Lemma skip_blanks_at l c n :
  peek l = Ret (c, l) ->
  input_pos l <> input_len l ->
  not_blank c = true ->
  skip_blanks (S (S n)) l = Ret (None, l).
Proof.
  intros Hp He H. unfold not_blank in H.
  apply andb_prop in H. destruct H as [H Hc].
  apply andb_prop in H. destruct H as [Hs Hb].
  apply negb_true_iff in Hs, Hb.
  assert (E : is_end l = Ret (false, l)).
  { unfold is_end, bind, get, ret.
    apply Nat.eqb_neq in He. rewrite He. reflexivity. }
  assert (A : notL is_end l = Ret (true, l)).
  { unfold notL. rewrite (bind_eq _ _ _ E). reflexivity. }
  assert (C : andL (notL is_end) is_space l = Ret (false, l)).
  { unfold andL. rewrite (bind_eq _ _ _ A). cbn beta iota.
    unfold is_space. rewrite (test_at isspace Hp), Hs. reflexivity. }
  assert (W : while (S n) (andL (notL is_end) is_space) advance l
              = Ret (tt, l)).
  { cbn [while]. rewrite (bind_eq _ _ _ C). reflexivity. }
  assert (B : match_ "\" l = Ret (false, l)).
  { unfold match_. rewrite (bind_eq _ _ _ Hp), Hb. reflexivity. }
  rewrite Blanks.skip_blanks_step.
  rewrite (bind_eq _ _ _ W), (bind_eq _ _ _ E). cbn beta iota.
  rewrite (bind_eq _ _ _ B). cbn beta iota.
  rewrite (bind_eq _ _ _ Hp), Hc. reflexivity.
Qed.

Lemma punctuator_nothing fuel c :
  punct c = false -> quote c = false -> isdigit c = false ->
  punctuator fuel c = ret fail.
Proof.
  intros Hp Hq Hd. unfold punct in Hp. cbn [existsb] in Hp.
  repeat (apply orb_false_iff in Hp; destruct Hp as [? Hp]).
  unfold punctuator.
  repeat match goal with
         | H : Ascii.eqb c _ = false |- _ => rewrite H; clear H
         end.
  unfold quote in Hq. rewrite Hq, Hd. reflexivity.
Qed.

End Punctuation.

(** Each byte of punctuation is a token of its own, and each operator
    byte one token with the [=] that follows it, if any, and alone
    otherwise; a lone [!] gives [TOKEN_INVALID], not an error.  The
    lexeme is the one or two bytes, and nothing is asked of the text
    behind them. *)
Theorem punctuation_tokens :
  (forall c t r pre lx mx n,
      In (c, t) single_byte_tokens ->
      exists mx',
        Lexer.lex (S (S n)) (scanning pre (c :: r) lx mx)
        = Ret (t, scanning (pre ++ [c]) r [c] mx'))
  /\ (forall c teq t r pre lx mx n,
         In (c, teq, t) operator_tokens ->
         exists mx',
           Lexer.lex (S (S n)) (scanning pre (c :: "="%char :: r) lx mx)
           = Ret (teq, scanning (pre ++ [c; "="%char]) r [c; "="%char] mx'))
  /\ (forall c teq t r pre lx mx n,
         In (c, teq, t) operator_tokens ->
         starts_with equals_sign r = false ->
         exists mx',
           Lexer.lex (S (S n)) (scanning pre (c :: r) lx mx)
           = Ret (t, scanning (pre ++ [c]) r [c] mx')).
Proof.
  split; [| split].
  - intros c t r pre lx mx n H.
    destruct (Punctuation.append_finish_scanning t c r pre [] mx) as [mx' E].
    exists mx'. apply lex_of_do_lex with (res := Lexer.mk_lex_result true t).
    rewrite (Punctuation.single_byte_case H). exact E.
  - intros c teq t r pre lx mx n H.
    destruct (Punctuation.maybe_eq_with teq t c r pre [] mx) as [mx' E].
    exists mx'.
    apply lex_of_do_lex with (res := Lexer.mk_lex_result true teq).
    rewrite (Punctuation.operator_case H). exact E.
  - intros c teq t r pre lx mx n H Hr.
    destruct (@Punctuation.maybe_eq_without teq t c r pre [] mx Hr)
      as [mx' E].
    exists mx'. apply lex_of_do_lex with (res := Lexer.mk_lex_result true t).
    rewrite (Punctuation.operator_case H). exact E.
Qed.

Lemma punctuation_tokens_witness :
  (In ("!"%char, Lexer.TOKEN_NE, Lexer.TOKEN_INVALID) operator_tokens
   /\ starts_with equals_sign (chars "a") = false)
  /\ exists mx',
       Lexer.lex 2 (scanning (chars "x ") ("!"%char :: chars "a") [] 128)
       = Ret (Lexer.TOKEN_INVALID,
              scanning (chars "x " ++ ["!"%char]) (chars "a") ["!"%char] mx').
Proof.
  assert (H : In ("!"%char, Lexer.TOKEN_NE, Lexer.TOKEN_INVALID)
                 operator_tokens)
    by (simpl; tauto).
  split; [split; [exact H | reflexivity] |].
  exact (proj2 (proj2 punctuation_tokens) "!"%char _ _ (chars "a")
               (chars "x ") [] 128 0 H eq_refl).
Defined.

(** At the end of the input [lex] gives [TOKEN_END] and moves nothing, so
    every later call gives [TOKEN_END] again. *)
Theorem end_of_input_is_stable :
  forall fuel l,
    Lexer.error l = false ->
    Lexer.input_pos l = Lexer.input_len l ->
    0 < Lexer.lexeme_max l ->
    Lexer.lex (S (S fuel)) l = Ret (Lexer.TOKEN_END, Lexer.set_lexeme [] l)
    /\ Lexer.lex (S (S fuel)) (Lexer.set_lexeme [] l)
       = Ret (Lexer.TOKEN_END, Lexer.set_lexeme [] l).
Proof.
  assert (once : forall fuel l,
             Lexer.error l = false ->
             Lexer.input_pos l = Lexer.input_len l ->
             0 < Lexer.lexeme_max l ->
             Lexer.lex (S (S fuel)) l
             = Ret (Lexer.TOKEN_END, Lexer.set_lexeme [] l)).
  { intros fuel l E Hend Hmax.
    destruct l as [e inp pos len lx mx plan]. simpl in *. subst.
    destruct mx as [| mx]; [lia |].
    unfold Lexer.lex, Lexer.do_lex, bind, modify. simpl.
    unfold Lexer.andL, Lexer.notL, Lexer.is_end, bind, get, ret. simpl.
    rewrite Nat.eqb_refl. simpl. rewrite Nat.eqb_refl. simpl.
    reflexivity. }
  intros fuel l E Hend Hmax. split; [exact (once fuel l E Hend Hmax) |].
  exact (once fuel (Lexer.set_lexeme [] l) E Hend Hmax).
Qed.

Lemma end_of_input_is_stable_witness :
  let l := Lexer.set_input_pos 3 (Lexer.lexer_init (chars "a b") []) in
  (Lexer.error l = false
   /\ Lexer.input_pos l = Lexer.input_len l
   /\ 0 < Lexer.lexeme_max l)
  /\ Lexer.lex 2 l = Ret (Lexer.TOKEN_END, Lexer.set_lexeme [] l)
  /\ Lexer.lex 2 (Lexer.set_lexeme [] l)
     = Ret (Lexer.TOKEN_END, Lexer.set_lexeme [] l).
Proof.
  intros l.
  assert (M : 0 < Lexer.lexeme_max l) by (simpl; lia).
  split; [split; [reflexivity | split; [reflexivity | exact M]] |].
  exact (@end_of_input_is_stable 0 l eq_refl eq_refl M).
Defined.

(** A byte that begins no token, such as [$] or [@], is not consumed:
    [lex] gives [TOKEN_ERROR] with the cursor still on it, so every later
    call gives [TOKEN_ERROR] for the same byte. *)
Theorem stray_byte_is_not_consumed :
  forall fuel l c,
    nth_error (Lexer.input l ++ [NUL]) (Lexer.input_pos l) = Some c ->
    Lexer.input_pos l <> Lexer.input_len l ->
    begins_nothing c = true ->
    Lexer.lex (S (S fuel)) l = Ret (Lexer.TOKEN_ERROR, Lexer.set_lexeme [] l)
    /\ Lexer.lex (S (S fuel)) (Lexer.set_lexeme [] l)
       = Ret (Lexer.TOKEN_ERROR, Lexer.set_lexeme [] l).
Proof.
  assert (once : forall fuel l c,
             nth_error (Lexer.input l ++ [NUL]) (Lexer.input_pos l) = Some c ->
             Lexer.input_pos l <> Lexer.input_len l ->
             begins_nothing c = true ->
             Lexer.lex (S (S fuel)) l
             = Ret (Lexer.TOKEN_ERROR, Lexer.set_lexeme [] l)).
  { intros fuel l c Hc He H. unfold begins_nothing in H.
    apply andb_prop in H. destruct H as [H Hd].
    apply andb_prop in H. destruct H as [H Hq].
    apply andb_prop in H. destruct H as [H Hpu].
    apply andb_prop in H. destruct H as [H Hsy].
    apply negb_true_iff in Hd, Hq, Hpu, Hsy.
    assert (Hp : Lexer.peek (Lexer.set_lexeme [] l)
                 = Ret (c, Lexer.set_lexeme [] l))
      by (apply Punctuation.peek_at; exact Hc).
    assert (M : modify (Lexer.set_lexeme []) l
                = Ret (tt, Lexer.set_lexeme [] l)) by reflexivity.
    assert (D : Lexer.do_lex (S (S fuel)) l
                = Ret (Lexer.fail, Lexer.set_lexeme [] l)).
    { unfold Lexer.do_lex. rewrite (bind_eq _ _ _ M).
      rewrite (bind_eq _ _ _
                 (@Punctuation.skip_blanks_at (Lexer.set_lexeme [] l) c fuel
                    Hp He H)).
      cbn beta iota. unfold Lexer.is_symbol.
      rewrite (bind_eq _ _ _ (Punctuation.test_at _ Hp)), Hsy.
      rewrite (bind_eq _ _ _ Hp).
      rewrite Punctuation.punctuator_nothing by assumption.
      reflexivity. }
    unfold Lexer.lex. rewrite (bind_eq _ _ _ D). reflexivity. }
  intros fuel l c Hc He H. split; [exact (once fuel l c Hc He H) |].
  exact (once fuel (Lexer.set_lexeme [] l) c Hc He H).
Qed.

Lemma stray_byte_is_not_consumed_witness :
  let l := Lexer.set_input_pos 2 (Lexer.lexer_init (chars "a $ b") []) in
  (nth_error (Lexer.input l ++ [NUL]) (Lexer.input_pos l) = Some "$"%char
   /\ Lexer.input_pos l <> Lexer.input_len l
   /\ begins_nothing "$" = true)
  /\ Lexer.lex 2 l = Ret (Lexer.TOKEN_ERROR, Lexer.set_lexeme [] l)
  /\ Lexer.lex 2 (Lexer.set_lexeme [] l)
     = Ret (Lexer.TOKEN_ERROR, Lexer.set_lexeme [] l).
Proof.
  intros l.
  assert (N : Lexer.input_pos l <> Lexer.input_len l) by (simpl; lia).
  split; [split; [reflexivity | split; [exact N | reflexivity]] |].
  exact (@stray_byte_is_not_consumed 0 l "$"%char eq_refl N eq_refl).
Defined.

(** ** Keywords and names *)

Module Words.
Import Lexer.

Lemma symbol_scan_step n i j :
  symbol_scan (S n) i j
  = match nth_error keywords i with
    | None => fault
    | Some (_, None, _) => ret None
    | Some (prefix, Some name, tok) =>
        match nth_error (name ++ [NUL]) j with
        | None => fault
        | Some c =>
            if Ascii.eqb c NUL then
              b <- at_boundary ;;
              if b : bool then r <- finish tok ;; ret (Some r)
              else ret None
            else
              a <- accept c ;;
              if a : bool then symbol_scan n i (S j)
              else symbol_scan n (S i) (if prefix : bool then j else 0)
        end
    end.
Proof. reflexivity. Qed.

(** [symbol_scan] does on the tokenizer what [keyword_scan] says of the
    text ahead. *)
Lemma symbol_scan_text fuel :
  forall i j s pre lx mx t taken rest,
    keyword_scan fuel i j s = Some (t, taken, rest) ->
    s = taken ++ rest
    /\ exists mx',
         symbol_scan fuel i j (scanning pre s lx mx)
         = Ret (omap (mk_lex_result true) t,
                scanning (pre ++ taken) rest (lx ++ taken) mx').
Proof.
  induction fuel as [| n IH]; intros i j s pre lx mx t taken rest H;
    [discriminate |].
  rewrite symbol_scan_step. cbn [keyword_scan] in H.
  destruct (nth_error keywords i) as [[[prefix [name |]] tok] |];
    [| | discriminate].
  2:{ inversion H; subst. split; [reflexivity |].
      exists mx. rewrite !app_nil_r. reflexivity. }
  destruct (nth_error (name ++ [NUL]) j) as [c |]; [| discriminate].
  destruct (Ascii.eqb c NUL) eqn:Hnul.
  { inversion H; subst. split; [reflexivity |].
    rewrite (bind_eq _ _ _ (Scan.at_boundary_scanning _ _ _ _)).
    rewrite !app_nil_r.
    destruct (boundary rest).
    - destruct (Scan.finish_scanning tok pre rest lx mx) as [mx' F].
      exists mx'. rewrite (bind_eq _ _ _ F). reflexivity.
    - exists mx. reflexivity. }
  destruct (Ascii.eqb (hd NUL s) c) eqn:Hc.
  - destruct (keyword_scan n i (S j) (tl s)) as [[[t1 taken1] rest1] |] eqn:K;
      [| discriminate].
    inversion H; subst t1 taken rest1. clear H.
    apply Ascii.eqb_eq in Hc.
    destruct s as [| d r].
    { simpl in Hc. subst c. discriminate. }
    simpl in Hc. subst d. cbn [hd tl] in *.
    destruct (Scan.accept_scanning c r pre lx mx) as [mx1 A].
    destruct (IH i (S j) r (pre ++ [c]) (lx ++ [c]) mx1 _ _ _ K)
      as (E & mx' & R).
    split; [rewrite E; reflexivity |].
    exists mx'. rewrite (bind_eq _ _ _ A), R, <- !app_assoc. reflexivity.
  - rewrite (bind_eq _ _ _
               (@Scan.accept_scanning_other c s pre lx mx Hc)).
    exact (IH _ _ s pre lx mx _ _ _ H).
Qed.

(** After the table, [symbol] takes the rest of the name. *)
Lemma symbol_name fuel s pre lx mx taken ds rest :
  keyword_scan fuel 0 0 s = Some (None, taken, ds ++ rest) ->
  forallb word_byte ds = true ->
  starts_with word_byte rest = false ->
  length ds < fuel ->
  exists mx',
    symbol fuel (scanning pre s lx mx)
    = Ret (mk_lex_result true TOKEN_IDENTIFIER,
           scanning (pre ++ taken ++ ds) rest (lx ++ taken ++ ds) mx').
Proof.
  intros K Hds Hrest Hfuel.
  destruct (@symbol_scan_text fuel 0 0 s pre lx mx _ _ _ K)
    as (_ & mx1 & R).
  destruct (@Runs.while_appends _ _ ds Runs.decides_word (pre ++ taken) rest
              (lx ++ taken) mx1 fuel Hds Hrest Hfuel) as [mx2 W].
  destruct (Scan.finish_scanning TOKEN_IDENTIFIER ((pre ++ taken) ++ ds) rest
              ((lx ++ taken) ++ ds) mx2) as [mx' F].
  exists mx'. unfold symbol.
  rewrite (bind_eq _ _ _ R). cbn [omap].
  rewrite (bind_eq _ _ _ W), F, <- !app_assoc. reflexivity.
Qed.

Lemma keyword_found name tok :
  In (name, tok) keyword_names ->
  forall rest n,
    boundary rest = true ->
    keyword_scan (30 + n) 0 0 (name ++ rest) = Some (Some tok, name, rest)
    /\ exists c r, name = c :: r
                   /\ not_blank c = true
                   /\ (isalpha c || Ascii.eqb c "_") = true.
Proof.
  intros H rest n Hb. simpl in H.
  repeat (destruct H as [H | H];
          [inversion H; subst name tok;
           split; [simpl; rewrite Hb; reflexivity
                  | eexists; eexists; repeat split] |]).
  contradiction.
Qed.

Lemma no_keyword_initial c s n :
  begins_no_keyword c = true ->
  keyword_scan (15 + n) 0 0 (c :: s) = Some (None, [], c :: s).
Proof.
  unfold begins_no_keyword. cbn [forallb keyword_initials chars
                                 list_ascii_of_string].
  intros H.
  repeat (apply andb_prop in H; destruct H as [? H]).
  repeat match goal with
         | X : negb _ = true |- _ => apply negb_true_iff in X
         end.
  simpl.
  repeat match goal with
         | X : Ascii.eqb c _ = false |- _ => rewrite X; simpl
         end.
  reflexivity.
Qed.

End Words.

Lemma name_start_class c :
  (isalpha c || Ascii.eqb c "_") = true ->
  not_blank c = true /\ word_byte c = true.
Proof.
  intros H. unfold word_byte. rewrite H. split; [| reflexivity].
  revert H.
  destruct c as [[] [] [] [] [] [] [] []];
    vm_compute; intros H; first [reflexivity | discriminate H].
Qed.

(** Each keyword of the table, before the end of the input, white space
    or punctuation, gives its own token, with the keyword as lexeme. *)
Theorem keywords_before_a_boundary :
  forall name tok pre rest lx mx n,
    In (name, tok) keyword_names ->
    boundary rest = true ->
    exists mx',
      Lexer.lex (30 + n) (scanning pre (name ++ rest) lx mx)
      = Ret (tok, scanning (pre ++ name) rest name mx').
Proof.
  intros name tok pre rest lx mx n H Hb.
  destruct (Words.keyword_found H rest n Hb)
    as (K & c & r & -> & Hc & Ha).
  destruct (@Words.symbol_scan_text (30 + n) 0 0 ((c :: r) ++ rest) pre []
              mx _ _ _ K) as (_ & mx' & R).
  exists mx'. apply lex_of_do_lex with (res := Lexer.mk_lex_result true tok).
  change (30 + n) with (S (S (28 + n))) in *.
  cbn [app]. rewrite Runs.do_lex_token by exact Hc. rewrite Ha.
  unfold Lexer.symbol. cbn [app] in R. rewrite (bind_eq _ _ _ R).
  reflexivity.
Qed.

Lemma keywords_before_a_boundary_witness :
  (In (chars "endif", Lexer.TOKEN_ENDIF) keyword_names
   /\ boundary (chars " x") = true)
  /\ exists mx',
       Lexer.lex 30 (scanning (chars "a ") (chars "endif" ++ chars " x")
                              [] 128)
       = Ret (Lexer.TOKEN_ENDIF,
              scanning (chars "a " ++ chars "endif") (chars " x")
                       (chars "endif") mx').
Proof.
  assert (H : In (chars "endif", Lexer.TOKEN_ENDIF) keyword_names)
    by (simpl; tauto).
  split; [split; [exact H | reflexivity] |].
  exact (@keywords_before_a_boundary (chars "endif") Lexer.TOKEN_ENDIF
           (chars "a ") (chars " x") [] 128 0 H eq_refl).
Defined.

(** A name whose first byte begins no keyword is an identifier: the token
    is [TOKEN_IDENTIFIER] and the lexeme the longest run of letters,
    digits and underscores, whatever byte ends it. *)
Theorem names_outside_the_keywords :
  forall c cs pre rest lx mx n,
    (isalpha c || Ascii.eqb c "_") = true ->
    begins_no_keyword c = true ->
    forallb word_byte cs = true ->
    starts_with word_byte rest = false ->
    length cs <= n ->
    exists mx',
      Lexer.lex (15 + n) (scanning pre (c :: cs ++ rest) lx mx)
      = Ret (Lexer.TOKEN_IDENTIFIER,
             scanning (pre ++ c :: cs) rest (c :: cs) mx').
Proof.
  intros c cs pre rest lx mx n Ha Hk Hcs Hrest Hn.
  destruct (name_start_class c Ha) as [Hc Hw].
  destruct (@Words.symbol_name (15 + n) (c :: cs ++ rest) pre [] mx []
              (c :: cs) rest (@Words.no_keyword_initial c (cs ++ rest) n Hk))
    as [mx' Sy]; [simpl; rewrite Hw; exact Hcs | exact Hrest | simpl; lia |].
  exists mx'.
  apply lex_of_do_lex
    with (res := Lexer.mk_lex_result true Lexer.TOKEN_IDENTIFIER).
  change (15 + n) with (S (S (13 + n))) in *.
  rewrite Runs.do_lex_token by exact Hc. rewrite Ha. exact Sy.
Qed.

Lemma names_outside_the_keywords_witness :
  ((isalpha "x" || Ascii.eqb "x" "_") = true
   /\ begins_no_keyword "x" = true
   /\ forallb word_byte (chars "_1") = true
   /\ starts_with word_byte (chars "$") = false
   /\ length (chars "_1") <= 2)
  /\ exists mx',
       Lexer.lex 17 (scanning (chars "a ") ("x"%char :: chars "_1" ++ chars "$")
                              [] 128)
       = Ret (Lexer.TOKEN_IDENTIFIER,
              scanning (chars "a " ++ "x"%char :: chars "_1") (chars "$")
                       ("x"%char :: chars "_1") mx').
Proof.
  split; [repeat split; simpl; lia |].
  exact (@names_outside_the_keywords "x"%char (chars "_1") (chars "a ")
           (chars "$") [] 128 2 eq_refl eq_refl eq_refl eq_refl (le_n 2)).
Defined.

(** ** The tokenizer ends and keeps its input *)

Module Frame.
Import Lexer.

#[local] Hint Resolve Progress.forward_ret Progress.forward_fault
  Progress.forward_out_of_fuel Progress.forward_get Progress.forward_peek
  Progress.forward_grow Progress.forward_advance Progress.forward_append
  Progress.forward_finish Progress.forward_is_end Progress.forward_test
  Progress.forward_match Progress.forward_accept Progress.forward_orL
  Progress.forward_andL Progress.forward_notL Progress.forward_at_boundary
  Progress.forward_while Progress.forward_drop_lexeme
  Progress.forward_symbol_scan Progress.forward_quote_run
  Progress.forward_skip_blanks : progress.

Ltac fwd := Progress.fwd.

Lemma forward_symbol fuel : forward (symbol fuel).
Proof. unfold symbol, is_symbol, is_digit. fwd. Qed.

Lemma forward_multiline_string fuel : forward (multiline_string fuel).
Proof. induction fuel as [| n IH]; simpl; unfold is_quote; fwd. Qed.
#[local] Hint Resolve forward_symbol forward_multiline_string : progress.

Lemma forward_string fuel : forward (string_ fuel).
Proof. unfold string_, is_quote. fwd. Qed.

Lemma forward_number_digits fuel cond tok :
  forward cond -> forward (number_digits fuel cond tok).
Proof. intros. unfold number_digits. fwd. Qed.
#[local] Hint Resolve forward_string forward_number_digits : progress.

Lemma forward_number_base c : forward (fst (number_base c)).
Proof.
  unfold number_base, is_bdigit, is_odigit, is_xdigit, is_digit.
  repeat match goal with |- context [if ?b then _ else _] => destruct b end;
    simpl; fwd.
Qed.

Lemma forward_number fuel : forward (number fuel).
Proof.
  unfold number, is_digit.
  apply Progress.forward_bind; [fwd | intros z]. destruct z; [| fwd].
  apply Progress.forward_bind; [fwd | intros c].
  pose proof (forward_number_base c) as Hc.
  destruct (number_base c) as [cond tok]. cbn [fst] in Hc. fwd.
Qed.

Lemma forward_maybe_eq a b : forward (maybe_eq a b).
Proof. unfold maybe_eq. fwd. Qed.

Lemma forward_append_finish t : forward (append_finish t).
Proof. unfold append_finish. fwd. Qed.
#[local] Hint Resolve forward_number forward_maybe_eq forward_append_finish
  : progress.

Lemma forward_punctuator fuel c : forward (punctuator fuel c).
Proof. unfold punctuator. fwd. Qed.
#[local] Hint Resolve forward_punctuator : progress.

Lemma forward_do_lex fuel : forward (do_lex fuel).
Proof. unfold do_lex, is_symbol. fwd. Qed.
#[local] Hint Resolve forward_do_lex : progress.

Lemma forward_lex fuel : forward (lex fuel).
Proof. unfold lex. fwd. Qed.

End Frame.


